(** * generate-annotated-metadata: the optimizer and the generator

    A shallow embedding of [src/generator.ts] (the renderer [generateType],
    the declaration walks and [generate]) and of the optimizer [optimize]
    that follows it in the same file, together with the properties the
    specification states about them, and with further properties of the
    code.

    The TypeScript code works on a graph of AST objects: nodes are shared,
    may form cycles, are compared by identity ([Set<AST>], lodash's
    [memoize] and its [Map] cache) and are mutated in place
    ([Object.assign]).  The embedding therefore keeps an explicit store of
    nodes indexed by address; an address is the identity of an object. *)

From Stdlib Require Import ZArith Ascii String Lia.
From stdpp Require Import gmap strings list pretty.

Local Open Scope string_scope.
Local Open Scope list_scope.

(** ** The tree model (types/AST) *)

(** The identity of an AST object: its index in the store. *)
Abbreviation addr := nat.

(** The value of a LITERAL node: a concrete scalar. *)
Inductive JSONValue : Type :=
| JNull
| JBool (b : bool)
| JNumber (n : Z)
| JString (s : string).

(** The [type] tag of a node. *)
Inductive ASTType : Type :=
| ANY | ARRAY | BOOLEAN | ENUM | INTERFACE | INTERSECTION | LITERAL | NEVER
| NUMBER | NULL | OBJECT | REFERENCE | STRING | TUPLE | UNION | UNKNOWN
| CUSTOM_TYPE.

#[global] Instance ASTType_eq_dec : EqDecision ASTType.
Proof. solve_decision. Defined.

(** A member of an interface ([TInterfaceParam]).  Members are held by value
    in their interface; [Object.assign(member, {ast: ...})] is an update of
    that member at its position. *)
Record TInterfaceParam : Type := mkParam {
  p_ast : addr;
  p_keyName : string;
  isRequired : bool;
  isPatternProperty : bool;
  isUnreachableDefinition : bool
}.

(** A member of an enum. *)
Record TEnumParam : Type := mkEnumParam {
  e_ast : addr;
  e_keyName : string
}.

(** The [type] of a node together with its [params] (and, for a tuple and an
    interface, the fields that only they have). *)
Inductive Shape : Type :=
| TAny | TBoolean | TNever | TNull | TNumber | TObject | TString | TUnknown
| TLiteral (params : JSONValue)
| TReference (params : string)
| TCustomType (params : string)
| TArray (params : addr)
| TTuple (params : list addr) (minItems : Z) (maxItems : option Z)
         (spreadParam : option addr)
| TUnion (params : list addr)
| TIntersection (params : list addr)
| TInterface (params : list TInterfaceParam) (superTypes : list addr)
| TEnum (params : list TEnumParam).

(** A node: the fields every AST object has, and its shape. *)
Record AST : Type := mkAST {
  shape : Shape;
  standaloneName : option string;
  comment : option string;
  deprecated : bool;
  keyName : option string
}.

Definition type (n : AST) : ASTType :=
  match shape n with
  | TAny => ANY | TBoolean => BOOLEAN | TNever => NEVER | TNull => NULL
  | TNumber => NUMBER | TObject => OBJECT | TString => STRING
  | TUnknown => UNKNOWN | TLiteral _ => LITERAL | TReference _ => REFERENCE
  | TCustomType _ => CUSTOM_TYPE | TArray _ => ARRAY | TTuple _ _ _ _ => TUPLE
  | TUnion _ => UNION | TIntersection _ => INTERSECTION
  | TInterface _ _ => INTERFACE | TEnum _ => ENUM
  end.

(** A node with no field but its type, as an object literal [{type: ...}]. *)
Definition bare (s : Shape) : AST := mkAST s None None false None.

Definition with_shape (n : AST) (s : Shape) : AST :=
  mkAST s (standaloneName n) (comment n) (deprecated n) (keyName n).

(** Modelled from the spec: the constants [T_ANY], [T_UNKNOWN] and [T_STRING]
    of types/AST, which is not among the sources: one shared node each, with
    no payload.  They are the first three objects of every store. *)
Definition T_ANY : addr := 0.
Definition T_UNKNOWN : addr := 1.
Definition T_STRING : addr := 2.

Definition constants : list AST := [bare TAny; bare TUnknown; bare TString].

(** Modelled from the spec: [T_INTERFACE(params, comment)] of types/AST, the
    fresh anonymous interface the optimizer synthesizes: the given members,
    the given comment, no super type and no standalone name. *)
Definition T_INTERFACE (params : list TInterfaceParam)
    (c : option string) : AST :=
  mkAST (TInterface params []) None c false None.

(** Modelled from the spec: [hasStandaloneName] of types/AST: a node has a
    standalone name when the field is present. *)
Definition hasStandaloneName (n : AST) : bool :=
  match standaloneName n with Some _ => true | None => false end.

(** JavaScript truthiness of an optional string: present and not empty. *)
Definition truthy (o : option string) : bool :=
  match o with
  | Some s => negb (String.eqb s EmptyString)
  | None => false
  end.

(** The options the two passes read. *)
Record Options : Type := mkOptions {
  declareExternallyReferenced : bool;
  unknownAny : bool;
  strictIndexSignatures : bool;
  enableConstEnums : bool;
  bannerComment : string
}.

(** What the code imports and this development leaves open: [toSafeString]
    of utils, [hasComment] of types/AST, and JavaScript's [JSON.stringify]. *)
Class Host : Type := {
  toSafeString : string -> string;
  hasComment : AST -> bool;
  JSON_stringify : JSONValue -> string
}.

(** ** The state of a run *)

(** [nodes]: the objects, by address.  [memo]: the cache of the memoized
    [generateType], keyed by the identity of its first argument.
    [processed]: the [Set<AST>] of the pass that is running. *)
Record State : Type := mkState {
  nodes : list AST;
  memo : gmap nat string;
  processed : gset nat
}.

(** A call returns a value and a state, or does not return within the
    recursion budget, or meets an object outside the TypeScript types (an
    address with no object, an enum with no name). *)
Inductive result (A : Type) : Type :=
| Ok (a : A) (st : State)
| OutOfFuel
| Stuck.
Arguments Ok {A} a st.
Arguments OutOfFuel {A}.
Arguments Stuck {A}.

Definition M (A : Type) : Type := State -> result A.

Definition ret {A} (a : A) : M A := fun st => Ok a st.

Definition bind {A B} (m : M A) (k : A -> M B) : M B :=
  fun st =>
    match m st with
    | Ok a st' => k a st'
    | OutOfFuel => OutOfFuel
    | Stuck => Stuck
    end.

Notation "'let*' x ':=' m 'in' k" := (bind m (fun x => k))
  (at level 10, x name, m at level 100, k at level 200).
Notation "m ';;' k" := (bind m (fun _ => k))
  (at level 100, k at level 200, right associativity).

Definition stuck {A} : M A := fun _ => Stuck.
Definition diverge {A} : M A := fun _ => OutOfFuel.

(** Reading the object at an address. *)
Definition get_node (a : addr) : M AST :=
  fun st =>
    match nodes st !! a with
    | Some n => Ok n st
    | None => Stuck
    end.

(** A new object; its address is fresh. *)
Definition alloc (n : AST) : M addr :=
  fun st =>
    Ok (length (nodes st)) (mkState (nodes st ++ [n]) (memo st) (processed st)).

(** [Object.assign(ast, {params: ...})]: the shape of the object at [a] is
    replaced, its other fields are kept. *)
Definition assign_shape (a : addr) (s : Shape) : M unit :=
  fun st =>
    match nodes st !! a with
    | Some n =>
        Ok tt (mkState (<[a := with_shape n s]> (nodes st)) (memo st)
                 (processed st))
    | None => Stuck
    end.

Definition memo_get (a : addr) : M (option string) :=
  fun st => Ok (memo st !! a) st.

Definition memo_set (a : addr) (t : string) : M unit :=
  fun st => Ok tt (mkState (nodes st) (<[a := t]> (memo st)) (processed st)).

Definition processed_has (a : addr) : M bool :=
  fun st => Ok (bool_decide (a ∈ processed st)) st.

Definition processed_add (a : addr) : M unit :=
  fun st => Ok tt (mkState (nodes st) (memo st) ({[a]} ∪ processed st)).

(** [new Set<AST>()]: the default value of the [processed] argument. *)
Definition new_processed : M unit :=
  fun st => Ok tt (mkState (nodes st) (memo st) ∅).

(** [array.map(f)] with the effects of [f] in order. *)
Fixpoint mapM {A B} (f : A -> M B) (l : list A) : M (list B) :=
  match l with
  | [] => ret []
  | x :: l' => let* y := f x in let* ys := mapM f l' in ret (y :: ys)
  end.

(** [array.every(f)]: stops at the first element that fails. *)
Fixpoint everyM {A} (f : A -> M bool) (l : list A) : M bool :=
  match l with
  | [] => ret true
  | x :: l' => let* b := f x in if b then everyM f l' else ret false
  end.

(** ** Strings *)

Definition nl : string := String "010"%char EmptyString.
Definition dquote : ascii := "034"%char.

(** [parts.join(sep)] *)
Definition join (sep : string) (parts : list string) : string :=
  String.concat sep parts.

(** [s.endsWith(c)] for a one-character [c]. *)
Fixpoint endsWith (s : string) (c : ascii) : bool :=
  match s with
  | EmptyString => false
  | String x EmptyString => Ascii.eqb x c
  | String _ s' => endsWith s' c
  end.

(** [s.startsWith(p)] *)
Definition startsWith (p s : string) : bool := String.prefix p s.

(** [s.split('\n')]: the lines of [s]; an empty string has one empty line. *)
Fixpoint split_lines_from (cur : string) (s : string) : list string :=
  match s with
  | EmptyString => [cur]
  | String c s' =>
      if Ascii.eqb c "010"%char then cur :: split_lines_from EmptyString s'
      else split_lines_from (cur +:+ String c EmptyString) s'
  end.

Definition split_lines (s : string) : list string :=
  split_lines_from EmptyString s.

Definition is_upper (c : ascii) : bool :=
  ((65 <=? nat_of_ascii c) && (nat_of_ascii c <=? 90))%nat.
Definition is_lower (c : ascii) : bool :=
  ((97 <=? nat_of_ascii c) && (nat_of_ascii c <=? 122))%nat.
Definition is_digit (c : ascii) : bool :=
  ((48 <=? nat_of_ascii c) && (nat_of_ascii c <=? 57))%nat.

(** The character class [[A-Za-z_$]]. *)
Definition ident_start (c : ascii) : bool :=
  is_upper c || is_lower c || Ascii.eqb c "_"%char || Ascii.eqb c "$"%char.

(** The character class [[\w$]]. *)
Definition ident_char (c : ascii) : bool := ident_start c || is_digit c.

Fixpoint all_chars (f : ascii -> bool) (s : string) : bool :=
  match s with
  | EmptyString => true
  | String c s' => f c && all_chars f s'
  end.

Definition index_signature : string := "[k: string]".

(** ** The renderer (generator.ts) *)

Inductive MapEntryKind : Type := BASIC | SEQUENCE | MAP.

Section Renderer.
Context `{Host}.
Variable options : Options.

(** The memoized [generateType] that the functions of this section call;
    the knot is tied by the fixpoint [generateType] below. *)
Variable generateType : addr -> M string.

Definition escapeKeyName (keyName : string) : string :=
  if match keyName with
     | EmptyString => false
     | String c _ => ident_start c
     end && all_chars ident_char keyName
  then keyName
  else if String.eqb keyName index_signature then keyName
  else JSON_stringify (JString keyName).

Definition isAnnotatedString (key : ASTType) : bool :=
  match key with
  | STRING | ENUM | LITERAL | NUMBER | UNKNOWN => true
  | _ => false
  end.

Definition generateComment (c : option string) (dep : bool) : string :=
  join nl
    (["/**"]
     ++ (if dep then [" * @deprecated"] else [])
     ++ match c with
        | Some text => map (fun l => " * " +:+ l) (split_lines text)
        | None => []
        end
     ++ [" */"]).

Definition getMapEntryPrefix (mapEntryKind : MapEntryKind) : string :=
  match mapEntryKind with
  | BASIC => "getMapEntry"
  | SEQUENCE => "getMapEntrySequence"
  | MAP => "getMapEntryMap"
  end.

(** The accessor the generator writes for a member: the text
    [get KEY() { return PREFIX(this.node, 'KEY', this.uri, CTOR) }], after
    the member's comment. *)
Definition getter (commentString key mapEntryPrefix ctor : string) : string :=
  commentString +:+ "get " +:+ escapeKeyName key +:+ "() {" +:+ nl
    +:+ " return " +:+ mapEntryPrefix +:+ "(this.node, '"
    +:+ escapeKeyName key +:+ "', this.uri, " +:+ ctor +:+ ")" +:+ nl +:+ "}".

(** [KEY: TYPE] or [KEY?: TYPE]. *)
Definition field (commentString key : string) (required : bool)
    (ty : string) : string :=
  commentString +:+ escapeKeyName key +:+ (if required then "" else "?")
    +:+ ": " +:+ ty.

Definition generateEndNodes (key ty : string) (paramType : ASTType)
    (required : bool) (name c : option string) (dep : bool)
    (mapEntryKind : MapEntryKind) : string :=
  let mapEntryPrefix := getMapEntryPrefix mapEntryKind in
  let commentString :=
    if truthy c then generateComment c dep +:+ nl else "" in
  if truthy name
  then getter commentString key mapEntryPrefix (default "" name)
  else if isAnnotatedString paramType
  then getter commentString key mapEntryPrefix "AnnotatedString"
  else if bool_decide (paramType = BOOLEAN)
  then getter commentString key mapEntryPrefix "AnnotatedBoolean"
  else field commentString key required ty.

(** [x || y] on optional strings. *)
Definition or_else (x y : option string) : option string :=
  if truthy x then x else y.

Definition handleUnionRecursively (n : AST) (params : list addr)
    (key ty : string) (required : bool) : M string :=
  match params with
  | [] => stuck
  | p0 :: _ =>
      let* n0 := get_node p0 in
      match shape n0 with
      | TArray e =>
          let* ne := get_node e in
          ret (generateEndNodes key ty (type ne) required
                 (or_else (standaloneName n0) (standaloneName ne))
                 (comment n) (deprecated n) SEQUENCE)
      | TInterface [m] _ =>
          if negb (truthy (standaloneName n0))
             && String.eqb (escapeKeyName (p_keyName m)) index_signature
          then
            let* nm := get_node (p_ast m) in
            ret (generateEndNodes key ty (type nm) required
                   (standaloneName nm) (comment n) (deprecated n) MAP)
          else
            ret (generateEndNodes key ty (type n0) required
                   (or_else (standaloneName n) (standaloneName n0))
                   (comment n) (deprecated n) BASIC)
      | _ =>
          ret (generateEndNodes key ty (type n0) required
                 (or_else (standaloneName n) (standaloneName n0))
                 (comment n) (deprecated n) BASIC)
      end
  end.

Definition commentOf (n : AST) : string :=
  if hasComment n then generateComment (comment n) (deprecated n) +:+ nl
  else "".

(** The text of one member of an interface: the callback of the second
    [map] of [generateInterface].  [allKeys] is the list of that name in
    the source, [ty] the rendered type of the member. *)
Definition generateMember (allKeys : list string) (m : TInterfaceParam)
    (ty : string) : M string :=
  let key := p_keyName m in
  let named_key :=
    negb (String.eqb (escapeKeyName key) index_signature) in
  let* n := get_node (p_ast m) in
  let plain :=
    field (if hasComment n && negb (truthy (standaloneName n))
           then generateComment (comment n) (deprecated n) +:+ nl else "")
      key (isRequired m) ty in
  if isAnnotatedString (type n) && named_key then
    ret (getter (commentOf n) key "getMapEntry" "AnnotatedString")
  else if bool_decide (type n = BOOLEAN) && named_key then
    ret (getter (commentOf n) key "getMapEntry" "AnnotatedBoolean")
  else
    match shape n with
    | TInterface ps _ =>
        if truthy (standaloneName n) && named_key then
          ret (getter (commentOf n) key "getMapEntry"
                 (default "" (standaloneName n)))
        else
          match ps with
          | [m0] =>
              if negb (truthy (standaloneName n))
                 && String.eqb (escapeKeyName (p_keyName m0))
                      index_signature
              then
                let* n0 := get_node (p_ast m0) in
                ret (generateEndNodes key ty (type n0) (isRequired m)
                       (standaloneName n0) (comment n) (deprecated n) MAP)
              else if (0 <? length allKeys)%nat then
                ret (if named_key then plain else "")
              else ret plain
          | _ =>
              if (0 <? length allKeys)%nat then
                ret (if named_key then plain else "")
              else ret plain
          end
    | TArray e =>
        if named_key then
          let* ne := get_node e in
          ret (generateEndNodes key ty (type ne) (isRequired m)
                 (standaloneName ne) (comment n) (deprecated n) SEQUENCE)
        else if (0 <? length allKeys)%nat then
          ret (if named_key then plain else "")
        else ret plain
    | TUnion ps | TIntersection ps =>
        if named_key && bool_decide (length ps = 1) then
          handleUnionRecursively n ps key ty (isRequired m)
        else if (0 <? length allKeys)%nat then
          ret (if named_key then plain else "")
        else ret plain
    | _ =>
        if (0 <? length allKeys)%nat then
          ret (if named_key then plain else "")
        else ret plain
    end.

Definition generateInterface (params : list TInterfaceParam) : M string :=
  let shown :=
    List.filter
      (fun m => negb (isPatternProperty m)
                && negb (isUnreachableDefinition m)) params in
  let allKeys :=
    map (fun m => escapeKeyName (p_keyName m))
      (List.filter
         (fun m => negb (String.eqb (escapeKeyName (p_keyName m))
                           index_signature)) shown) in
  let* typed :=
    mapM (fun m => let* ty := generateType (p_ast m) in ret (m, ty)) shown in
  let* members :=
    mapM (fun mt => generateMember allKeys (fst mt) (snd mt)) typed in
  ret ("{" +:+ nl +:+ join nl members
       +:+ (if (0 <? length allKeys)%nat
            then nl +:+ " get __keys() {" +:+ nl +:+ " return ["
                 +:+ join "," (map (fun k => "'" +:+ k +:+ "'") allKeys)
                 +:+ "] }" +:+ nl
            else "")
       +:+ nl +:+ "}").

(** Generate a Union or Intersection. *)
Definition generateSetOperation (is_union : bool) (params : list addr)
    : M string :=
  let* members := mapM generateType params in
  let separator := if is_union then "|" else "&" in
  match members with
  | [m] => ret m
  | _ => ret ("(" +:+ join (" " +:+ separator +:+ " ") members +:+ ")")
  end.

(** [array.slice(0, end)]; a negative [end] counts from the end. *)
Definition slice0 {A} (l : list A) (e : Z) : list A :=
  if (e <? 0)%Z then take (Z.to_nat (Z.of_nat (length l) + e)) l
  else take (Z.to_nat e) l.

(** [array[i]] in a list of texts that is then joined: an index outside
    the array gives [undefined], which [join] writes as the empty text. *)
Definition item (l : list string) (i : Z) : string :=
  if (i <? 0)%Z then "" else default "" (l !! Z.to_nat i).

Definition paramsToString (params : list string) : string :=
  "[" +:+ join ", " params +:+ "]".

Definition addSpreadParam (spreadParam : option addr)
    (params : list string) : M (list string) :=
  match spreadParam with
  | Some sp =>
      let* ty := generateType sp in
      ret (params ++ ["...(" +:+ ty +:+ ")[]"])
  | None => ret params
  end.

(** The loop [for (let i = minItems; i < paramsList.length; i += 1)] of
    the tuple case, with [n] iterations left. *)
Fixpoint unionOfTuples (spreadParam : option addr)
    (paramsList : list string) (n : nat) (i : Z)
    (cumulativeParamsList typesToUnion : list string) : M (list string) :=
  match n with
  | O => ret typesToUnion
  | S n' =>
      let cumulative := cumulativeParamsList ++ [item paramsList i] in
      let* cumulative :=
        if (i =? Z.of_nat (length paramsList) - 1)%Z
        then addSpreadParam spreadParam cumulative
        else ret cumulative in
      unionOfTuples spreadParam paramsList n' (i + 1)%Z cumulative
        (typesToUnion ++ [paramsToString cumulative])
  end.

Definition generateTuple (params : list addr) (minItems : Z)
    (astMaxItems : option Z) (astSpreadParam : option addr) : M string :=
  (* const maxItems = ast.maxItems || -1 *)
  let maxItems :=
    match astMaxItems with
    | Some m => if (m =? 0)%Z then (-1)%Z else m
    | None => (-1)%Z
    end in
  let filler := if unknownAny options then T_UNKNOWN else T_ANY in
  let len := Z.of_nat (length params) in
  let spreadParam :=
    if (0 <? minItems)%Z && (len <? minItems)%Z
       && bool_decide (astSpreadParam = None) && (maxItems <? 0)%Z
    then Some filler else astSpreadParam in
  let astParams :=
    if (len <? maxItems)%Z && bool_decide (astSpreadParam = None)
    then params ++ replicate (Z.to_nat (maxItems - len)) filler
    else params in
  let* paramsList := mapM generateType astParams in
  if (minItems <? Z.of_nat (length paramsList))%Z then
    let cumulativeParamsList := slice0 paramsList minItems in
    let typesToUnion :=
      if (0 <? length cumulativeParamsList)%nat
      then [paramsToString cumulativeParamsList]
      else [paramsToString []] in
    let* typesToUnion :=
      unionOfTuples spreadParam paramsList
        (Z.to_nat (Z.of_nat (length paramsList) - minItems)) minItems
        cumulativeParamsList typesToUnion in
    ret (join "|" typesToUnion)
  else
    let* all := addSpreadParam spreadParam paramsList in
    ret (paramsToString all).

Definition generateRawType (n : AST) : M string :=
  match standaloneName n with
  | Some name => ret (toSafeString name)
  | None =>
      match shape n with
      | TAny => ret "any"
      | TArray e =>
          let* ty := generateType e in
          ret (if endsWith ty dquote then "(" +:+ ty +:+ ")[]"
               else ty +:+ "[]")
      | TBoolean => ret "boolean"
      | TInterface params _ => generateInterface params
      | TIntersection params => generateSetOperation false params
      | TLiteral v => ret (JSON_stringify v)
      | TNever => ret "never"
      | TNumber => ret "number"
      | TNull => ret "null"
      | TObject => ret "object"
      | TReference name => ret name
      | TString => ret "string"
      | TTuple params minItems maxItems spreadParam =>
          generateTuple params minItems maxItems spreadParam
      | TUnion params => generateSetOperation true params
      | TUnknown => ret "unknown"
      | TCustomType text => ret text
      | TEnum _ => stuck
      end
  end.

Definition generateTypeUnmemoized (n : AST) : M string :=
  let* ty := generateRawType n in
  if strictIndexSignatures options
     && bool_decide (keyName n = Some index_signature)
  then ret (ty +:+ " | undefined")
  else ret ty.
End Renderer.

(** lodash's [memoize(func)] with no resolver: the cache key is the first
    argument, the node, compared by identity; the other arguments play no
    part in the lookup.  The result is stored once [func] has returned. *)
Definition memoize (func : AST -> M string) (a : addr) : M string :=
  let* cached := memo_get a in
  match cached with
  | Some text => ret text
  | None =>
      let* n := get_node a in
      let* text := func n in
      memo_set a text ;; ret text
  end.

(** [export const generateType = memoize(generateTypeUnmemoized)].  The
    recursion of the renderer through [generateType] is bounded by [fuel]. *)
Fixpoint generateType `{Host} (fuel : nat) (options : Options) (a : addr)
    : M string :=
  match fuel with
  | O => diverge
  | S fuel' =>
      memoize (generateTypeUnmemoized options (generateType fuel' options)) a
  end.

(** ** The optimizer *)

(** [array.forEach((x, i) => ...)] *)
Fixpoint forEach {A} (f : nat -> A -> M unit) (i : nat) (l : list A)
    : M unit :=
  match l with
  | [] => ret tt
  | x :: l' => f i x ;; forEach f (S i) l'
  end.

(** The [params] of a tuple, a union or an intersection replaced. *)
Definition withParams (s : Shape) (params : list addr) : Shape :=
  match s with
  | TTuple _ minItems maxItems spreadParam =>
      TTuple params minItems maxItems spreadParam
  | TUnion _ => TUnion params
  | TIntersection _ => TIntersection params
  | _ => s
  end.

(** [Object.assign(ast, {params})] and [ast.params = params] on such a node. *)
Definition assign_params (a : addr) (params : list addr) : M unit :=
  let* n := get_node a in
  assign_shape a (withParams (shape n) params).

(** [Object.assign(ast, {params: e})] on an array. *)
Definition assign_element (a : addr) (e : addr) : M unit :=
  let* n := get_node a in
  match shape n with
  | TArray _ => assign_shape a (TArray e)
  | _ => stuck
  end.

(** [Object.assign(_, {ast: r})] on the member at position [i] of the
    interface at [a]. *)
Definition assign_member (a : addr) (i : nat) (r : addr) : M unit :=
  let* n := get_node a in
  match shape n with
  | TInterface params superTypes =>
      match params !! i with
      | Some m =>
          assign_shape a
            (TInterface
               (<[i := mkParam r (p_keyName m) (isRequired m)
                         (isPatternProperty m) (isUnreachableDefinition m)]>
                  params)
               superTypes)
      | None => stuck
      end
  | _ => stuck
  end.

(** [{...T_STRING, comment: c}] when [c] is truthy, else [T_STRING]. *)
Definition stringWithComment (c : option string) : M addr :=
  if truthy c then alloc (mkAST TString None c false None)
  else ret T_STRING.

(** [omitStandaloneName]: an enum is returned as it is; any other node is
    copied into a new object without its standalone name. *)
Definition omitStandaloneName (a : addr) : M addr :=
  let* n := get_node a in
  match shape n with
  | TEnum _ => ret a
  | _ =>
      alloc (mkAST (shape n) None (comment n) (deprecated n) (keyName n))
  end.

(** lodash's [uniqBy]: of the elements with the same key, the first stays.
    The list holds each element with its key; [seen] are the keys so far. *)
Fixpoint uniqBy {A} (seen : list string) (l : list (A * string)) : list A :=
  match l with
  | [] => []
  | (x, k) :: l' =>
      if existsb (String.eqb k) seen then uniqBy seen l'
      else x :: uniqBy (k :: seen) l'
  end.

(** The members of the merged interface: those of [params] added to [acc],
    one that has the key name of a member already there being skipped. *)
Definition addMembers (acc params : list TInterfaceParam)
    : list TInterfaceParam :=
  fold_left
    (fun acc p =>
       if existsb (fun a => String.eqb (p_keyName a) (p_keyName p)) acc
       then acc else acc ++ [p])
    params acc.

Definition membersOf (n : AST) : list TInterfaceParam :=
  match shape n with
  | TInterface params _ => params
  | _ => []
  end.

Definition hasType (t : ASTType) (pn : addr * AST) : bool :=
  bool_decide (type (snd pn) = t).

Definition isStringLike (pn : addr * AST) : bool :=
  hasType LITERAL pn || hasType STRING pn || hasType NULL pn.

Definition isNamed (pn : addr * AST) : bool :=
  match standaloneName (snd pn) with Some _ => true | None => false end.

Section Optimizer.
Context `{Host}.
Variable options : Options.

(** The recursive calls of [optimize], and the renderer it calls. *)
Variable optimize : addr -> M addr.
Variable generateType : addr -> M string.

(** A named STRING at [e] is replaced by an anonymous one, which keeps
    the comment; [store] writes the replacement where [e] stood. *)
Definition flattenNamedString (e : addr) (store : addr -> M unit)
    : M unit :=
  let* ne := get_node e in
  if truthy (standaloneName ne) && bool_decide (type ne = STRING) then
    let* s := stringWithComment (comment ne) in store s
  else ret tt.

(** The callback of [every] in the rule below: the text of [p] and the
    text of the first parameter, both rendered without their standalone
    names, are the same. *)
Definition sameTextAsFirst (params : list (addr * AST)) (p : addr * AST)
    : M bool :=
  let* ca := omitStandaloneName (fst p) in
  let* a := generateType ca in
  let* cb := omitStandaloneName (hd (fst p) (map fst params)) in
  let* b := generateType cb in
  ret (String.eqb a b).

(** [A (named), A] -> [A (named)] *)
Definition keepNamed (params : list (addr * AST))
    : M (list (addr * AST)) :=
  let* same := everyM (sameTextAsFirst params) params in
  if same && existsb isNamed params
  then ret (List.filter isNamed params)
  else ret params.

(** [A, B, B] -> [A, B] *)
Definition dropDuplicates (params : list (addr * AST))
    : M (list (addr * AST)) :=
  let* keys := mapM (fun p => generateType (fst p)) params in
  ret (uniqBy [] (zip params keys)).

(** The case of a union or an intersection at [a], whose object was [n]
    and whose parameters were [params] when the call began. *)
Definition optimizeSetOperation (a : addr) (n : AST) (params : list addr)
    : M addr :=
  (* Start with the leaves... *)
  let* optimized := mapM optimize params in
  assign_params a optimized ;;
  let* read := mapM get_node optimized in
  let params := zip optimized read in
  (* [A, B, C, null] -> [A, B, C] *)
  let params :=
    if existsb (hasType NULL) params
    then List.filter (fun p => negb (hasType NULL p)) params
    else params in
  assign_params a (map fst params) ;;
  if existsb (hasType ANY) params then ret T_ANY
  else if existsb (hasType UNKNOWN) params then ret T_UNKNOWN
  else if forallb isStringLike params then stringWithComment (comment n)
  else
    let* params := keepNamed params in
    assign_params a (map fst params) ;;
    let* params := dropDuplicates params in
    assign_params a (map fst params) ;;
    if (1 <? length params)%nat && forallb (hasType INTERFACE) params then
      (* [union of interfaces] -> a single interface *)
      let acc :=
        fold_left (fun acc p => addMembers acc (membersOf (snd p)))
          params [] in
      let* merged := alloc (T_INTERFACE acc (comment n)) in
      assign_params a [merged] ;;
      ret a
    else
      let* again := mapM optimize (map fst params) in
      assign_params a again ;;
      ret a.

(** The [switch (ast.type)] of [optimize], on the node at [a], whose object
    was [n] when the call began. *)
Definition optimize_switch (a : addr) (n : AST) : M addr :=
  match shape n with
  | TLiteral _ => stringWithComment (comment n)
  | TArray e =>
      let* e' := optimize e in
      assign_element a e' ;;
      flattenNamedString e' (assign_element a) ;;
      ret a
  | TTuple params _ _ _ =>
      let* params' := mapM optimize params in
      assign_params a params' ;;
      ret a
  | TInterface params _ =>
      forEach
        (fun i m =>
           let* r := optimize (p_ast m) in assign_member a i r)
        0 params ;;
      let* n' := get_node a in
      forEach
        (fun i m => flattenNamedString (p_ast m) (assign_member a i))
        0 (membersOf n') ;;
      optimize a
  | TUnion params | TIntersection params =>
      optimizeSetOperation a n params
  | _ => ret a
  end.

Definition optimize_body (a : addr) : M addr :=
  let* seen := processed_has a in
  if seen then ret a
  else
    processed_add a ;;
    let* n := get_node a in
    optimize_switch a n.
End Optimizer.

(** [optimize(ast, options, processed)]; the set [processed] is the one of
    the state.  The renderer gets the recursion budget that is left. *)
Fixpoint optimize `{Host} (fuel : nat) (options : Options) (a : addr)
    : M addr :=
  match fuel with
  | O => diverge
  | S fuel' =>
      optimize_body (optimize fuel' options) (generateType fuel' options) a
  end.

(** [optimize(ast, options)]: [processed] takes its default, a new set. *)
Definition runOptimize `{Host} (fuel : nat) (options : Options) (a : addr)
    : M addr :=
  new_processed ;; optimize fuel options a.

(** ** The declarations and [generate] *)

(** [array.filter(Boolean)] on texts: the empty ones (and [false] and
    [undefined], written here as the empty text) are dropped. *)
Definition nonEmpty (l : list string) : list string :=
  List.filter (fun s => negb (String.eqb s EmptyString)) l.

(** [omit(ast, 'standaloneName')]: a copy of the node without that field. *)
Definition omit_standaloneName (n : AST) : M addr :=
  alloc (mkAST (shape n) None (comment n) (deprecated n) (keyName n)).

Definition getSuperTypesAndParams (params : list TInterfaceParam)
    (superTypes : list addr) : list addr :=
  map p_ast params ++ superTypes.

Section Declarations.
Context `{Host}.
Variable options : Options.
Variable generateType : addr -> M string.

Definition generateStandaloneEnum (n : AST) : M string :=
  match shape n, standaloneName n with
  | TEnum params, Some name =>
      let* members :=
        mapM (fun p =>
                let* ty := generateType (e_ast p) in
                ret (e_keyName p +:+ " = " +:+ ty)) params in
      ret (commentOf n +:+ "export "
           +:+ (if enableConstEnums options then "const " else "")
           +:+ "enum " +:+ toSafeString name +:+ " {" +:+ nl
           +:+ join ("," +:+ nl) members +:+ nl +:+ "}")
  | _, _ => stuck
  end.

Definition generateStandaloneInterface (n : AST) : M string :=
  match shape n, standaloneName n with
  | TInterface params superTypes, Some name =>
      let* supers :=
        mapM (fun s =>
                let* ns := get_node s in
                match standaloneName ns with
                | Some x => ret (toSafeString x)
                | None => stuck
                end) superTypes in
      let* body := generateInterface generateType params in
      ret (commentOf n +:+ "export class " +:+ toSafeString name
           +:+ " extends Annotated "
           +:+ (if (0 <? length superTypes)%nat
                then "extends " +:+ join ", " supers +:+ " " else "")
           +:+ body)
  | _, _ => stuck
  end.

Definition generateStandaloneType (n : AST) : M string :=
  match standaloneName n with
  | Some name =>
      let* copy := omit_standaloneName n in
      let* generatedType := generateType copy in
      let suffix :=
        if startsWith "{" generatedType
        then "export class " +:+ toSafeString name +:+ " extends Annotated "
             +:+ generatedType
        else "export type " +:+ toSafeString name +:+ " = "
             +:+ generatedType in
      ret ((if hasComment n then generateComment (comment n) false +:+ nl
            else "") +:+ suffix)
  | None => stuck
  end.

Section Walks.
Variable rootASTName : option string.
Variables declareEnums declareNamedInterfaces declareNamedTypes
  : addr -> M string.

Definition declareEnums_body (a : addr) : M string :=
  let* seen := processed_has a in
  if seen then ret ""
  else
    processed_add a ;;
    let* n := get_node a in
    match shape n with
    | TEnum _ =>
        let* text := generateStandaloneEnum n in ret (text +:+ nl)
    | TArray e => declareEnums e
    | TUnion params | TIntersection params =>
        let* texts := mapM declareEnums params in ret (join "" texts)
    | TTuple params _ _ spreadParam =>
        let* texts := mapM declareEnums params in
        match spreadParam with
        | Some sp =>
            let* text := declareEnums sp in
            ret (join "" texts +:+ text)
        | None => ret (join "" texts)
        end
    | TInterface params superTypes =>
        let* texts :=
          mapM declareEnums (getSuperTypesAndParams params superTypes) in
        ret (join "" texts)
    | _ => ret ""
    end.

Definition declareNamedInterfaces_body (a : addr) : M string :=
  let* seen := processed_has a in
  if seen then ret ""
  else
    processed_add a ;;
    let* n := get_node a in
    match shape n with
    | TArray e => declareNamedInterfaces e
    | TInterface params superTypes =>
        let* own :=
          if hasStandaloneName n
             && (bool_decide (standaloneName n = rootASTName)
                 || declareExternallyReferenced options)
          then generateStandaloneInterface n
          else ret "" in
        let* texts :=
          mapM declareNamedInterfaces
            (getSuperTypesAndParams params superTypes) in
        ret (join nl (nonEmpty [own; join nl (nonEmpty texts)]))
    | TIntersection params | TUnion params =>
        let* texts := mapM declareNamedInterfaces params in
        ret (join nl (nonEmpty texts))
    | TTuple params _ _ spreadParam =>
        let* texts := mapM declareNamedInterfaces params in
        match spreadParam with
        | Some sp =>
            let* text := declareNamedInterfaces sp in
            ret (join nl (nonEmpty texts) +:+ text)
        | None => ret (join nl (nonEmpty texts))
        end
    | _ => ret ""
    end.

Definition declareNamedTypes_body (a : addr) : M string :=
  let* seen := processed_has a in
  if seen then ret ""
  else
    processed_add a ;;
    let* n := get_node a in
    let standalone :=
      if hasStandaloneName n then generateStandaloneType n else ret "" in
    match shape n with
    | TArray e =>
        let* inner := declareNamedTypes e in
        let* own := standalone in
        ret (join nl (nonEmpty [inner; own]))
    | TEnum _ => ret ""
    | TInterface params superTypes =>
        let* texts :=
          mapM (fun c =>
                  let* nc := get_node c in
                  if bool_decide (standaloneName nc = rootASTName)
                     || declareExternallyReferenced options
                  then declareNamedTypes c
                  else ret "")
            (getSuperTypesAndParams params superTypes) in
        ret (join nl (nonEmpty texts))
    | TIntersection params | TUnion params =>
        let* own := standalone in
        let* texts := mapM declareNamedTypes params in
        ret (join nl (nonEmpty [own; join nl (nonEmpty texts)]))
    | TTuple params _ _ spreadParam =>
        let* own := standalone in
        let* texts := mapM declareNamedTypes params in
        let* spread :=
          match spreadParam with
          | Some sp => declareNamedTypes sp
          | None => ret ""
          end in
        ret (join nl (nonEmpty [own; join nl (nonEmpty texts); spread]))
    | _ => standalone
    end.
End Walks.
End Declarations.

Fixpoint declareEnums `{Host} (fuel : nat) (options : Options) (a : addr)
    : M string :=
  match fuel with
  | O => diverge
  | S fuel' =>
      declareEnums_body options (generateType fuel' options)
        (declareEnums fuel' options) a
  end.

Fixpoint declareNamedInterfaces `{Host} (fuel : nat) (options : Options)
    (rootASTName : option string) (a : addr) : M string :=
  match fuel with
  | O => diverge
  | S fuel' =>
      declareNamedInterfaces_body options (generateType fuel' options)
        rootASTName (declareNamedInterfaces fuel' options rootASTName) a
  end.

Fixpoint declareNamedTypes `{Host} (fuel : nat) (options : Options)
    (rootASTName : option string) (a : addr) : M string :=
  match fuel with
  | O => diverge
  | S fuel' =>
      declareNamedTypes_body options (generateType fuel' options)
        rootASTName (declareNamedTypes fuel' options rootASTName) a
  end.

(** The runtime support that [generate] writes before everything else. *)
Definition prefix : string :=
"import { DocumentUri } from 'vscode-languageserver';
  import { Node, Pair, isMap, isScalar, isSeq } from 'yaml';
  
  export class Annotated {
    node: Node;
    uri: DocumentUri;
  
    constructor(node: Node, uri: DocumentUri) {
      this.node = node;
      this.uri = uri;
    }
  }
  
  export class AnnotatedString extends Annotated {
    get value() {
      if (isScalar(this.node) && typeof this.node.value === 'string') {
        return this.node.value;
      }
    }
  }
  
  export class AnnotatedBoolean extends Annotated {
    get value() {
      if (isScalar(this.node) && typeof this.node.value === 'boolean') {
        return this.node.value;
      }
    }
  }
  
  // Represent the SecretValue schema of OpenDDS
  // https://github.com/hasura/open-data-domain-specification/blob/main/jsonschema/metadata_object.jsonschema#L643
  export class AnnotatedSecretValue extends Annotated {
    get value() {
      return getMapEntry(this.node, 'value', this.uri, AnnotatedString);
    }
    get stringValueFromSecret() {
      return getMapEntry(this.node, 'stringValueFromSecret', this.uri, AnnotatedString);
    }
  }
  
  export class Any extends Annotated {
    get(key: string) {
      return getMapEntry(this.node, key, this.uri, Any);
    }
  }
  
  export class Map<V extends Annotated> extends Annotated {
    private ctor: AnnotatedConstructor<V>;
    constructor(node: Node, uri: DocumentUri, ctor: AnnotatedConstructor<V>) {
      super(node, uri);
      this.ctor = ctor;
    }
    keys(): AnnotatedString[] {
      if (isMap(this.node)) {
        return this.node.items.map((pair) => {
          return new AnnotatedString(pair.key as Node, this.uri);
        });
      }
      return [];
    }
    values(): V[] {
      if (isMap(this.node)) {
        return this.node.items.map((pair) => {
          return new this.ctor(pair.value as Node, this.uri) as V;
        });
      }
      return [];
    }
    entries(): [AnnotatedString, V][] {
      if (isMap(this.node)) {
        return this.node.items.map((pair) => {
          return [new AnnotatedString(pair.key as Node, this.uri), new this.ctor(pair.value as Node, this.uri) as V];
        });
      }
      return [];
    }
    get(key: string): V | undefined {
      if (isMap(this.node)) {
        const node = this.node.items.find((pair) => ((pair.key as AnnotatedString).value as string) === key)?.value;
        return node ? (new this.ctor(node as Node, this.uri) as V) : undefined;
      }
      return undefined;
    }
  }
  
  export class MapEntry<T extends Annotated> {
    keyNode: Node;
    value: T;
    uri: DocumentUri;
  
    get key() {
      return new AnnotatedString(this.keyNode, this.uri).value;
    }
  
    constructor(keyNode: Node, value: T, uri: DocumentUri) {
      this.keyNode = keyNode;
      this.value = value;
      this.uri = uri;
    }
  }
  
  export class Sequence<T extends Annotated> extends Annotated {
    private ctor: AnnotatedConstructor<T>;
    constructor(node: Node, uri: DocumentUri, ctor: AnnotatedConstructor<T>) {
      super(node, uri);
      this.ctor = ctor;
    }
    items() {
      if (isSeq(this.node)) {
        return this.node.items.map((item) => new this.ctor(item as Node, this.uri));
      }
    }
  
    // eslint-disable-next-line @typescript-eslint/class-methods-use-this
    get() {
      return undefined;
    }
  }
  
  interface AnnotatedConstructor<T extends Annotated> {
    new (node: Node, uri: DocumentUri): T;
  }
  
  function getMapEntry<T extends Annotated>(node: Node, key: string, uri: DocumentUri, ctor: AnnotatedConstructor<T>) {
    return getMapEntryWith(node, key, uri, (pair) => new ctor(pair.value as Node, uri));
  }
  
  function getMapEntrySequence<T extends Annotated>(node: Node, key: string, uri: DocumentUri, ctor: AnnotatedConstructor<T>) {
    return getMapEntryWith<Sequence<T>>(node, key, uri, (pair) => new Sequence<T>(pair.value as Node, uri, ctor));
  }
  
  function getMapEntryMap<T extends Annotated>(node: Node, key: string, uri: DocumentUri, ctor: AnnotatedConstructor<T>) {
    return getMapEntryWith<Map<T>>(node, key, uri, (pair) => new Map<T>(pair.value as Node, uri, ctor));
  }
  
  function getMapEntryWith<T extends Annotated>(
    node: Node,
    key: string,
    uri: DocumentUri,
    fn: (pair: Pair<unknown, unknown>) => T
  ) {
    if (isMap(node)) {
      for (const pair of node.items) {
        if (isScalar(pair.key) && pair.key.value == key) {
          return new MapEntry<T>(pair.key, fn(pair), uri);
        }
      }
    }
  }".

(** The sections of the output after the prefix, in their order. *)
Definition sections (banner types interfaces enums : string) : list string :=
  [banner; types; interfaces; enums].

Definition generate `{Host} (fuel : nat) (options : Options) (a : addr)
    : M string :=
  let* n := get_node a in
  let* types :=
    (new_processed ;; declareNamedTypes fuel options (standaloneName n) a) in
  let* interfaces :=
    (new_processed ;;
     declareNamedInterfaces fuel options (standaloneName n) a) in
  let* enums := (new_processed ;; declareEnums fuel options a) in
  ret (prefix
       +:+ join (nl +:+ nl)
             (nonEmpty (sections (bannerComment options) types interfaces
                          enums))
       +:+ nl).

(** * Properties *)

(** ** Reasoning about calls *)

(** Every returning call of [m] takes a state to one related to it by [R]. *)
Definition preserves {A} (R : relation State) (m : M A) : Prop :=
  forall st a st', m st = Ok a st' -> R st st'.

Section Preserves.
Context (R : relation State) `{!PreOrder R}.

Lemma preserves_ret {A} (a : A) : preserves R (ret a).
Proof. intros st x st' [= _ <-]. reflexivity. Qed.

Lemma preserves_stuck {A} : preserves R (@stuck A).
Proof. intros st x st' [=]. Qed.

Lemma preserves_diverge {A} : preserves R (@diverge A).
Proof. intros st x st' [=]. Qed.

Lemma preserves_bind {A B} (m : M A) (k : A -> M B) :
  preserves R m -> (forall a, preserves R (k a)) -> preserves R (bind m k).
Proof.
  intros Hm Hk st b st'. unfold bind.
  destruct (m st) as [a st1| |] eqn:E; try discriminate.
  intros Hb. transitivity st1; [eapply Hm | eapply Hk]; eauto.
Qed.

Lemma preserves_mapM {A B} (f : A -> M B) (l : list A) :
  (forall x, preserves R (f x)) -> preserves R (mapM f l).
Proof.
  intros Hf. induction l as [|x l IH]; simpl.
  - apply preserves_ret.
  - apply preserves_bind; [apply Hf|]. intros y.
    apply preserves_bind; [apply IH|]. intros ys. apply preserves_ret.
Qed.

Lemma preserves_everyM {A} (f : A -> M bool) (l : list A) :
  (forall x, preserves R (f x)) -> preserves R (everyM f l).
Proof.
  intros Hf. induction l as [|x l IH]; simpl.
  - apply preserves_ret.
  - apply preserves_bind; [apply Hf|]. intros [|]; [apply IH|].
    apply preserves_ret.
Qed.

Lemma preserves_forEach {A} (f : nat -> A -> M unit) (l : list A) i :
  (forall j x, preserves R (f j x)) -> preserves R (forEach f i l).
Proof.
  intros Hf. revert i. induction l as [|x l IH]; intros i; simpl.
  - apply preserves_ret.
  - apply preserves_bind; [apply Hf|]. intros _. apply IH.
Qed.

Lemma preserves_get_node a : preserves R (get_node a).
Proof.
  intros st n st'. unfold get_node.
  destruct (nodes st !! a); intros [= _ <-]. reflexivity.
Qed.

Lemma preserves_memo_get a : preserves R (memo_get a).
Proof. intros st n st' [= _ <-]. reflexivity. Qed.

Lemma preserves_processed_has a : preserves R (processed_has a).
Proof. intros st n st' [= _ <-]. reflexivity. Qed.
End Preserves.

Create HintDb frame.

#[local] Hint Resolve preserves_ret preserves_stuck preserves_diverge
  preserves_get_node preserves_memo_get preserves_processed_has : frame.

(** Splits a goal [preserves R m] along the structure of [m]. *)
Ltac frame_step :=
  first
    [ assumption
    | exact _
    | solve [ eauto with frame typeclass_instances ]
    | progress cbv zeta
    | apply preserves_mapM; [ exact _ | intros ]
    | apply preserves_everyM; [ exact _ | intros ]
    | apply preserves_forEach; [ exact _ | intros ]
    | match goal with
      | |- preserves _ (bind _ _) =>
          apply preserves_bind; [ exact _ | | intros ]
      | |- preserves _ (match ?x with _ => _ end) => destruct x
      | |- preserves _ (let (_, _) := ?x in _) => destruct x
      end ].

Ltac frame := repeat frame_step.

(** A call of the renderer writes the cache and nothing else. *)
Definition memo_only : relation State :=
  fun st st' => nodes st' = nodes st /\ processed st' = processed st.

#[local] Instance memo_only_preorder : PreOrder memo_only.
Proof.
  split.
  - intros st. split; reflexivity.
  - intros x y z [? ?] [? ?]. split; congruence.
Qed.

Lemma memo_set_memo_only a t : preserves memo_only (memo_set a t).
Proof. intros st x st' [= _ <-]. split; reflexivity. Qed.

#[local] Hint Resolve memo_set_memo_only : frame.

Section RendererFrame.
Context `{Host}.
Variable options : Options.
Variable gt : addr -> M string.
Hypothesis gt_frame : forall a, preserves memo_only (gt a).

Lemma handleUnionRecursively_frame n ps key ty req :
  preserves memo_only (handleUnionRecursively n ps key ty req).
Proof. unfold handleUnionRecursively. frame. Qed.

Lemma generateMember_frame keys m ty :
  preserves memo_only (generateMember keys m ty).
Proof.
  pose proof handleUnionRecursively_frame.
  unfold generateMember. frame.
Qed.

Lemma generateInterface_frame ps :
  preserves memo_only (generateInterface gt ps).
Proof.
  pose proof generateMember_frame.
  unfold generateInterface. frame.
Qed.

Lemma generateSetOperation_frame b ps :
  preserves memo_only (generateSetOperation gt b ps).
Proof. unfold generateSetOperation. frame. Qed.

Lemma addSpreadParam_frame sp l :
  preserves memo_only (addSpreadParam gt sp l).
Proof. unfold addSpreadParam. frame. Qed.

Lemma unionOfTuples_frame sp l n i c t :
  preserves memo_only (unionOfTuples gt sp l n i c t).
Proof.
  pose proof addSpreadParam_frame.
  revert i c t. induction n as [|n IH]; intros i c t; simpl; frame.
Qed.

Lemma generateTuple_frame ps mn mx sp :
  preserves memo_only (generateTuple options gt ps mn mx sp).
Proof.
  pose proof addSpreadParam_frame. pose proof unionOfTuples_frame.
  unfold generateTuple. frame.
Qed.

Lemma generateTypeUnmemoized_frame n :
  preserves memo_only (generateTypeUnmemoized options gt n).
Proof.
  pose proof generateTuple_frame. pose proof generateSetOperation_frame.
  pose proof generateInterface_frame.
  unfold generateTypeUnmemoized, generateRawType. frame.
Qed.
End RendererFrame.

Lemma memoize_frame func a :
  (forall n, preserves memo_only (func n)) ->
  preserves memo_only (memoize func a).
Proof. intros Hf. unfold memoize. frame. Qed.

Lemma generateType_frame `{Host} fuel options a :
  preserves memo_only (generateType fuel options a).
Proof.
  revert a. induction fuel as [|fuel IH]; intros a; simpl.
  - apply preserves_diverge; typeclasses eauto.
  - apply memoize_frame. intros n.
    apply generateTypeUnmemoized_frame. exact IH.
Qed.

(** ** Concrete inputs *)

(** A host on which the examples below are evaluated: standalone names
    that are valid identifiers already stay as they are, a node has a
    comment when its [comment] is not empty, and a string without special
    characters is written between double quotes. *)
Definition example_host : Host := {|
  toSafeString := fun s => s;
  hasComment := fun n => truthy (comment n);
  JSON_stringify := fun v =>
    match v with
    | JNull => "null"
    | JBool true => "true"
    | JBool false => "false"
    | JNumber n => pretty n
    | JString s => String dquote s +:+ String dquote EmptyString
    end
|}.

Definition example_options (unknown : bool) : Options :=
  mkOptions false unknown false false "/* banner */".

(** A store that holds the constants and then [l]; nothing is cached. *)
Definition store (l : list AST) : State := mkState (constants ++ l) ∅ ∅.

(** [Tuple{params: [String], minItems: 1, maxItems: 3}] at address 4. *)
Definition tuple_1_3 : State :=
  store [bare TString; bare (TTuple [3] 1 (Some 3%Z) None)].

(** ** C3: a tuple with fewer parameters than [maxItems] *)

Lemma generateType_tuple_1_3 `{Host} (o : Options) (fuel : nat) :
  exists st',
    generateType (2 + fuel) o 4 tuple_1_3
    = Ok (if unknownAny o
          then "[string]|[string, unknown]|[string, unknown, unknown]"
          else "[string]|[string, any]|[string, any, any]") st'.
Proof.
  destruct o as [ext [|] [|] enums banner]; eexists; vm_compute; reflexivity.
Qed.

Lemma bind_ok {A B} (m : M A) (k : A -> M B) st a st1 :
  m st = Ok a st1 -> bind m k st = k a st1.
Proof. intros E. unfold bind. rewrite E. reflexivity. Qed.

Lemma mapM_length {A B} (f : A -> M B) (l : list A) :
  forall st ys st', mapM f l st = Ok ys st' -> length ys = length l.
Proof.
  induction l as [|x l IH]; intros st ys st' E; simpl in E.
  - injection E as <- _. reflexivity.
  - unfold bind in E. destruct (f x st) as [y st1| |]; try discriminate E.
    destruct (mapM f l st1) as [ys' st2| |] eqn:E'; try discriminate E.
    injection E as <- _. simpl. f_equal. eapply IH, E'.
Qed.

(** The shapes of the lengths [k+1], ..., [k+n], each the first so many of
    the texts. *)
Definition shapes (texts : list string) (k n : nat) : list string :=
  map (fun j => paramsToString (take j texts)) (seq (S k) n).

(** The loop of the tuple case when there is no spread parameter: after
    [k] parameters, each turn adds one parameter and one shape. *)
Lemma unionOfTuples_no_spread gt (texts : list string) (n : nat) :
  forall k typesToUnion st,
    k + n <= length texts ->
    unionOfTuples gt None texts n (Z.of_nat k) (take k texts) typesToUnion st
    = Ok (typesToUnion ++ shapes texts k n) st.
Proof.
  unfold shapes. induction n as [|n IH]; intros k acc st L; simpl.
  - rewrite app_nil_r. reflexivity.
  - destruct (lookup_lt_is_Some_2 texts k) as [t T]; [lia|].
    assert (item texts (Z.of_nat k) = t) as ->.
    { unfold item. destruct (Z.of_nat k <? 0)%Z eqn:E; [lia|].
      rewrite Nat2Z.id, T. reflexivity. }
    assert (take k texts ++ [t] = take (S k) texts) as ->
        by (symmetry; apply take_S_r, T).
    unfold bind at 1.
    destruct (Z.of_nat k =? Z.of_nat (length texts) - 1)%Z; simpl;
      (replace (Z.of_nat k + 1)%Z with (Z.of_nat (S k)) by lia);
      rewrite IH by lia; rewrite <- app_assoc; reflexivity.
Qed.

(** A tuple with no spread parameter and more places than parameters
    ([maxItems] above their number): the parameters are padded up to
    [maxItems], and the text is the union of one shape per length from
    [minItems] to [maxItems], each with one text more than the one
    before. *)
Lemma generateTuple_union_of_lengths o gt (params : list addr)
    (minItems : nat) (maxItems : Z) (texts : list string) st st' :
  (Z.of_nat (length params) < maxItems)%Z ->
  mapM gt
    (params
     ++ replicate (Z.to_nat (maxItems - Z.of_nat (length params)))
          (if unknownAny o then T_UNKNOWN else T_ANY)) st
  = Ok texts st' ->
  minItems < length texts ->
  generateTuple o gt params (Z.of_nat minItems) (Some maxItems) None st
  = Ok (join "|"
          (paramsToString (take minItems texts)
           :: shapes texts minItems (length texts - minItems))) st'.
Proof.
  intros Lp E Lm. unfold generateTuple.
  assert ((maxItems =? 0)%Z = false) as -> by lia.
  assert ((Z.of_nat (length params) <? maxItems)%Z = true) as -> by lia.
  assert ((maxItems <? 0)%Z = false) as -> by lia.
  rewrite !andb_false_r. simpl andb. cbv iota.
  rewrite (bind_ok _ _ _ _ _ E).
  assert ((Z.of_nat minItems <? Z.of_nat (length texts))%Z = true) as ->
      by lia.
  assert (slice0 texts (Z.of_nat minItems) = take minItems texts) as ->.
  { unfold slice0. destruct (Z.of_nat minItems <? 0)%Z eqn:E0; [lia|].
    rewrite Nat2Z.id. reflexivity. }
  assert ((if (0 <? length (take minItems texts))%nat
           then [paramsToString (take minItems texts)]
           else [paramsToString []])
          = [paramsToString (take minItems texts)]) as ->.
  { destruct (take minItems texts) eqn:T; reflexivity. }
  replace (Z.to_nat (Z.of_nat (length texts) - Z.of_nat minItems))
    with (length texts - minItems) by lia.
  rewrite (bind_ok _ _ _ _ _
             (unionOfTuples_no_spread gt texts (length texts - minItems)
                minItems _ st' ltac:(lia))).
  reflexivity.
Qed.

(** C3, as amended: rendering the tuple with [minItems = 1], [maxItems = 3],
    one String parameter and no spread parameter gives the union of the
    three shapes of lengths 1, 2 and 3,
    [[string]|[string, unknown]|[string, unknown, unknown]] (with [any] for
    [unknown] when [unknownAny] is off).  In general, a tuple with no spread
    parameter and fewer parameters than [maxItems] has its parameters
    padded up to [maxItems], and is rendered as the union of one shape per
    length from [minItems] up to [maxItems], each shape with one parameter
    more than the one before. *)
Theorem C3_tuple_union_of_lengths :
  forall (H : Host) (o : Options),
    (forall fuel,
        exists st',
          generateType (2 + fuel) o 4 tuple_1_3
          = Ok (if unknownAny o
                then "[string]|[string, unknown]|[string, unknown, unknown]"
                else "[string]|[string, any]|[string, any, any]") st')
    /\ (forall gt (params : list addr) (minItems : nat) (maxItems : Z)
           (texts : list string) st st',
          (Z.of_nat (length params) < maxItems)%Z ->
          mapM gt
            (params
             ++ replicate (Z.to_nat (maxItems - Z.of_nat (length params)))
                  (if unknownAny o then T_UNKNOWN else T_ANY)) st
          = Ok texts st' ->
          minItems < length texts ->
          length texts = Z.to_nat maxItems
          /\ generateTuple o gt params (Z.of_nat minItems) (Some maxItems)
               None st
             = Ok (join "|"
                     (paramsToString (take minItems texts)
                      :: shapes texts minItems (length texts - minItems)))
                 st').
Proof.
  intros H o. split; [intros fuel; apply generateType_tuple_1_3|].
  intros gt params minItems maxItems texts st st' Lp E Lm. split.
  - rewrite (mapM_length _ _ _ _ _ E), length_app, length_replicate. lia.
  - apply generateTuple_union_of_lengths; assumption.
Qed.

Lemma C3_witness :
  generateTuple (example_options true)
    (@generateType example_host 1 (example_options true)) [3] 1
    (Some 3%Z) None tuple_1_3
  = Ok "[string]|[string, unknown]|[string, unknown, unknown]"
      (mkState (nodes tuple_1_3)
         (<[T_UNKNOWN := "unknown"]> (<[3 := "string"]> ∅)) ∅).
Proof.
  refine (proj2 (proj2 (C3_tuple_union_of_lengths example_host
                          (example_options true))
                   (@generateType example_host 1 (example_options true))
                   [3] 1 3%Z ["string"; "unknown"; "unknown"] tuple_1_3
                   (mkState (nodes tuple_1_3)
                      (<[T_UNKNOWN := "unknown"]> (<[3 := "string"]> ∅)) ∅)
                   _ _ _)).
  - simpl. lia.
  - vm_compute. reflexivity.
  - simpl. lia.
Defined.

(** C3 as the specification words it fails: whatever the host and the
    recursion budget, the text is never [[string]|[string, unknown]]. *)
Lemma C3_not_two_shapes :
  ~ exists (H : Host) (fuel : nat) (st' : State),
      generateType fuel (example_options true) 4 tuple_1_3
      = Ok "[string]|[string, unknown]" st'.
Proof.
  intros (H & fuel & st' & E).
  destruct fuel as [|[|fuel]]; [discriminate E | discriminate E |].
  destruct (generateType_tuple_1_3 (example_options true) fuel) as [st'' E'].
  pose proof (eq_trans (eq_sym E') E) as X. cbn in X. discriminate X.
Qed.

(** ** The cache of [generateType] *)

Lemma memoize_hit func a st text :
  memo st !! a = Some text -> memoize func a st = Ok text st.
Proof. intros E. unfold memoize, bind, memo_get. rewrite E. reflexivity. Qed.

Lemma memoize_miss func a st n :
  memo st !! a = None ->
  nodes st !! a = Some n ->
  memoize func a st
  = (let* text := func n in memo_set a text ;; ret text) st.
Proof.
  intros E N. unfold memoize, bind at 1, memo_get. rewrite E.
  unfold bind at 1, get_node. rewrite N. reflexivity.
Qed.

(** ** C10: [maxItems = 0] *)

(** What a call answers, the state left aside. *)
Inductive answer (A : Type) : Type :=
| Returns (a : A)
| Diverges
| GetsStuck.
Arguments Returns {A} a.
Arguments Diverges {A}.
Arguments GetsStuck {A}.

Definition answer_of {A} (r : result A) : answer A :=
  match r with
  | Ok a _ => Returns a
  | OutOfFuel => Diverges
  | Stuck => GetsStuck
  end.

Lemma generateTuple_maxItems_0 `{Host} o gt ps mn sp :
  generateTuple o gt ps mn (Some 0%Z) sp
  = generateTuple o gt ps mn (Some (-1)%Z) sp.
Proof. reflexivity. Qed.

Lemma answer_of_bind_memo_set {A} (m : M A) (k1 k2 : A -> M A) st :
  (forall x st1, answer_of (k1 x st1) = Returns x) ->
  (forall x st1, answer_of (k2 x st1) = Returns x) ->
  answer_of (bind m k1 st) = answer_of (bind m k2 st).
Proof.
  intros H1 H2. unfold bind. destruct (m st); simpl; auto.
  rewrite H1, H2. reflexivity.
Qed.

(** C10: a tuple whose [maxItems] is 0 is rendered as the same tuple with
    [maxItems = -1] is: [ast.maxItems || -1] turns the 0 into -1 before the
    padding and the union of lengths are built.  Two nodes that differ in
    nothing else, neither of them cached yet, get the same text from
    [generateType] (or neither gets one). *)
Theorem C10_maxItems_zero_is_unbounded :
  forall (H : Host) (fuel : nat) (o : Options) (st : State) (a0 a1 : addr)
    ps mn sp nm c d k,
    nodes st !! a0 = Some (mkAST (TTuple ps mn (Some 0%Z) sp) nm c d k) ->
    nodes st !! a1 = Some (mkAST (TTuple ps mn (Some (-1)%Z) sp) nm c d k) ->
    memo st !! a0 = None ->
    memo st !! a1 = None ->
    answer_of (generateType fuel o a0 st)
    = answer_of (generateType fuel o a1 st).
Proof.
  intros H fuel o st a0 a1 ps mn sp nm c d k N0 N1 M0 M1.
  destruct fuel as [|fuel]; [reflexivity|]. simpl.
  rewrite (memoize_miss _ _ _ _ M0 N0), (memoize_miss _ _ _ _ M1 N1).
  unfold generateTypeUnmemoized, generateRawType. simpl.
  destruct nm as [name|].
  - unfold bind, ret, memo_set; simpl.
    destruct (strictIndexSignatures o && _); reflexivity.
  - rewrite generateTuple_maxItems_0.
    apply answer_of_bind_memo_set; intros; reflexivity.
Qed.

(** The tuple of C3 with [maxItems = 0] at address 4, and with
    [maxItems = -1] at address 5. *)
Definition tuples_0_and_unbounded : State :=
  store [bare TString; bare (TTuple [3] 0 (Some 0%Z) None);
         bare (TTuple [3] 0 (Some (-1)%Z) None)].

Lemma C10_witness :
  answer_of (generateType (H := example_host) 3 (example_options true) 4
               tuples_0_and_unbounded)
  = answer_of (generateType (H := example_host) 3 (example_options true) 5
                 tuples_0_and_unbounded).
Proof.
  apply (C10_maxItems_zero_is_unbounded example_host 3 (example_options true)
           tuples_0_and_unbounded 4 5 [3] 0%Z None None None false None);
    reflexivity.
Defined.

(** With [maxItems = 0] the tuple is not bounded by zero items: the shape
    with one item is there. *)
Example maxItems_zero_renders :
  answer_of (generateType (H := example_host) 3 (example_options true) 4
               tuples_0_and_unbounded)
  = Returns "[]|[string]".
Proof. reflexivity. Qed.

(** ** C8: the cache is keyed by the node alone *)

(** C8, as amended: [generateType] is memoized by the identity of the node
    alone, in one cache that no call ever clears.  A call on a node that has
    no entry returns what [generateTypeUnmemoized] returns for it (its inner
    calls going through the cache) and stores that text; a call on a node
    that has an entry returns the stored text and changes nothing, whatever
    the options of the call and whatever the node holds by now. *)
Theorem C8_memo_keyed_by_node_only :
  forall (H : Host) (fuel : nat) (o : Options) (a : addr) (st : State),
    (forall text,
        memo st !! a = Some text ->
        generateType (S fuel) o a st = Ok text st)
    /\ (forall n text st',
          memo st !! a = None ->
          nodes st !! a = Some n ->
          generateTypeUnmemoized o (generateType fuel o) n st = Ok text st' ->
          generateType (S fuel) o a st
          = Ok text
              (mkState (nodes st') (<[a := text]> (memo st'))
                 (processed st'))).
Proof.
  intros H fuel o a st. split.
  - intros text E. simpl. apply memoize_hit. exact E.
  - intros n text st' E N U. simpl.
    rewrite (memoize_miss _ _ _ _ E N). unfold bind at 1. rewrite U.
    reflexivity.
Qed.

(** The state after the tuple of C3 was rendered with [unknownAny] on. *)
Definition tuple_1_3_rendered : State :=
  mkState (nodes tuple_1_3)
    (<[4 := "[string]|[string, unknown]|[string, unknown, unknown]"]>
       (<[T_UNKNOWN := "unknown"]> (<[3 := "string"]> ∅)))
    ∅.

Lemma C8_witness :
  generateType (H := example_host) 3 (example_options true) 4 tuple_1_3
  = Ok "[string]|[string, unknown]|[string, unknown, unknown]"
      tuple_1_3_rendered
  /\ generateType (H := example_host) 3 (example_options false) 4
       tuple_1_3_rendered
     = Ok "[string]|[string, unknown]|[string, unknown, unknown]"
         tuple_1_3_rendered.
Proof.
  split.
  - pose proof
      (proj2 (C8_memo_keyed_by_node_only example_host 2
                (example_options true) 4 tuple_1_3)
         (bare (TTuple [3] 1 (Some 3%Z) None))
         "[string]|[string, unknown]|[string, unknown, unknown]"
         (mkState (nodes tuple_1_3)
            (<[T_UNKNOWN := "unknown"]> (<[3 := "string"]> ∅)) ∅)) as X.
    assert (memo tuple_1_3 !! 4 = None) as E by (vm_compute; reflexivity).
    specialize (X E eq_refl).
    assert (generateTypeUnmemoized (H := example_host) (example_options true)
              (generateType (H := example_host) 2 (example_options true))
              (bare (TTuple [3] 1 (Some 3%Z) None)) tuple_1_3
            = Ok "[string]|[string, unknown]|[string, unknown, unknown]"
                (mkState (nodes tuple_1_3)
                   (<[T_UNKNOWN := "unknown"]> (<[3 := "string"]> ∅)) ∅))
      as U by (vm_compute; reflexivity).
    exact (X U).
  - apply (proj1 (C8_memo_keyed_by_node_only example_host 2
                    (example_options false) 4 tuple_1_3_rendered)).
    vm_compute; reflexivity.
Defined.

(** C8 as the specification words it fails: the tuple of C3 is rendered
    with [unknownAny] on, then again with [unknownAny] off.  The second call
    returns the text of the first, and [generateTypeUnmemoized] returns
    another one for these options. *)
Lemma C8_stale_text_for_other_options :
  exists st1 st2 st3 t1 t2,
    generateType (H := example_host) 3 (example_options true) 4 tuple_1_3
    = Ok t1 st1
    /\ generateType (H := example_host) 3 (example_options false) 4 st1
       = Ok t1 st2
    /\ (let* n := get_node 4 in
        generateTypeUnmemoized (H := example_host) (example_options false)
          (generateType (H := example_host) 2 (example_options false)) n) st1
       = Ok t2 st3
    /\ t1 <> t2.
Proof.
  do 5 eexists. split; [vm_compute; reflexivity|].
  split; [vm_compute; reflexivity|].
  split; [vm_compute; reflexivity|]. discriminate.
Qed.

(** ** What no call ever undoes *)

(** The fields of a node that no assignment of the optimizer touches. *)
Definition same_fields (n n' : AST) : Prop :=
  type n' = type n
  /\ standaloneName n' = standaloneName n
  /\ comment n' = comment n
  /\ deprecated n' = deprecated n
  /\ keyName n' = keyName n.

(** From [st] to [st']: the set [processed] has grown, every object is
    still there, and kept its type, its names and its comment. *)
Definition extends : relation State :=
  fun st st' =>
    processed st ⊆ processed st'
    /\ forall i n, nodes st !! i = Some n ->
         exists n', nodes st' !! i = Some n' /\ same_fields n n'.

Lemma same_fields_refl n : same_fields n n.
Proof. repeat split. Qed.

Lemma same_fields_trans n1 n2 n3 :
  same_fields n1 n2 -> same_fields n2 n3 -> same_fields n1 n3.
Proof.
  intros (? & ? & ? & ? & ?) (? & ? & ? & ? & ?). repeat split; congruence.
Qed.

#[local] Instance extends_preorder : PreOrder extends.
Proof.
  split.
  - intros st. split; [reflexivity|]. intros i n E. exists n.
    split; [exact E | apply same_fields_refl].
  - intros x y z [P1 N1] [P2 N2]. split; [set_solver|].
    intros i n E. destruct (N1 i n E) as (n' & E' & F').
    destruct (N2 i n' E') as (n'' & E'' & F''). exists n''.
    split; [exact E'' | eapply same_fields_trans; eauto].
Qed.

Lemma memo_only_extends st st' : memo_only st st' -> extends st st'.
Proof.
  intros [N P]. split; [rewrite P; reflexivity|].
  intros i n E. exists n. rewrite N. split; [exact E|apply same_fields_refl].
Qed.

Lemma preserves_weaken {A} (R R' : relation State) (m : M A) :
  (forall st st', R st st' -> R' st st') -> preserves R m -> preserves R' m.
Proof. intros HR Hm st a st' E. apply HR. eapply Hm. exact E. Qed.

Lemma alloc_extends n : preserves extends (alloc n).
Proof.
  intros st a st' [= _ <-]. split; [reflexivity|]. simpl.
  intros i x E. exists x. split; [|apply same_fields_refl].
  apply lookup_app_l_Some. exact E.
Qed.

Lemma assign_shape_extends a s st u st' :
  assign_shape a s st = Ok u st' ->
  (forall n, nodes st !! a = Some n -> type (with_shape n s) = type n) ->
  extends st st'.
Proof.
  unfold assign_shape. destruct (nodes st !! a) as [n|] eqn:E; [|discriminate].
  intros [= _ <-] T. split; [reflexivity|]. simpl. intros i x Ei.
  destruct (decide (i = a)) as [->|Hne].
  - exists (with_shape n s). rewrite list_lookup_insert_eq.
    + split; [reflexivity|]. rewrite E in Ei. injection Ei as <-.
      repeat split. apply T. reflexivity.
    + eapply lookup_lt_Some. exact E.
  - exists x. rewrite list_lookup_insert_ne by congruence.
    split; [exact Ei | apply same_fields_refl].
Qed.

Lemma get_node_inv a st n st' :
  get_node a st = Ok n st' -> st' = st /\ nodes st !! a = Some n.
Proof.
  unfold get_node. destruct (nodes st !! a); [|discriminate].
  intros [= <- <-]. split; reflexivity.
Qed.

Lemma bind_inv {A B} (m : M A) (k : A -> M B) st b st' :
  bind m k st = Ok b st' ->
  exists a st1, m st = Ok a st1 /\ k a st1 = Ok b st'.
Proof.
  unfold bind. destruct (m st) as [a st1| |]; try discriminate.
  intros E. exists a, st1. split; [reflexivity | exact E].
Qed.

Lemma assign_params_extends a ps : preserves extends (assign_params a ps).
Proof.
  intros st u st' E. unfold assign_params in E.
  apply bind_inv in E as (n & st1 & G & E).
  apply get_node_inv in G as [-> N].
  eapply assign_shape_extends; [exact E|].
  intros n' N'. rewrite N in N'. injection N' as <-.
  unfold type. destruct (shape n); reflexivity.
Qed.

Lemma assign_element_extends a e : preserves extends (assign_element a e).
Proof.
  intros st u st' E. unfold assign_element in E.
  apply bind_inv in E as (n & st1 & G & E).
  apply get_node_inv in G as [-> N].
  destruct (shape n) eqn:S; try discriminate E.
  eapply assign_shape_extends; [exact E|].
  intros n' N'. rewrite N in N'. injection N' as <-.
  unfold type. rewrite S. reflexivity.
Qed.

Lemma assign_member_extends a i r : preserves extends (assign_member a i r).
Proof.
  intros st u st' E. unfold assign_member in E.
  apply bind_inv in E as (n & st1 & G & E).
  apply get_node_inv in G as [-> N].
  destruct (shape n) eqn:S; try discriminate E.
  destruct (params !! i); try discriminate E.
  eapply assign_shape_extends; [exact E|].
  intros n' N'. rewrite N in N'. injection N' as <-.
  unfold type. rewrite S. reflexivity.
Qed.

Lemma processed_add_extends a : preserves extends (processed_add a).
Proof.
  intros st u st' [= _ <-]. split; [simpl; set_solver|].
  intros i n E. exists n. split; [exact E | apply same_fields_refl].
Qed.

Lemma generateType_extends `{Host} fuel o a :
  preserves extends (generateType fuel o a).
Proof.
  eapply preserves_weaken; [apply memo_only_extends|].
  apply generateType_frame.
Qed.

#[local] Hint Resolve alloc_extends assign_params_extends
  assign_element_extends assign_member_extends processed_add_extends
  generateType_extends : frame.

Section OptimizerFrame.
Context `{Host}.
Variable options : Options.
Variable opt : addr -> M addr.
Variable gt : addr -> M string.
Hypothesis opt_extends : forall a, preserves extends (opt a).
Hypothesis gt_extends : forall a, preserves extends (gt a).

Lemma stringWithComment_extends c : preserves extends (stringWithComment c).
Proof. unfold stringWithComment. frame. Qed.

Lemma omitStandaloneName_extends a :
  preserves extends (omitStandaloneName a).
Proof. unfold omitStandaloneName. frame. Qed.

Lemma flattenNamedString_extends e store :
  (forall s, preserves extends (store s)) ->
  preserves extends (flattenNamedString e store).
Proof.
  intros Hs. pose proof stringWithComment_extends.
  unfold flattenNamedString. frame.
Qed.

Lemma keepNamed_extends ps : preserves extends (keepNamed gt ps).
Proof.
  pose proof omitStandaloneName_extends.
  unfold keepNamed, sameTextAsFirst. frame.
Qed.

Lemma dropDuplicates_extends ps : preserves extends (dropDuplicates gt ps).
Proof. unfold dropDuplicates. frame. Qed.

Lemma optimizeSetOperation_extends a n ps :
  preserves extends (optimizeSetOperation opt gt a n ps).
Proof.
  pose proof stringWithComment_extends. pose proof keepNamed_extends.
  pose proof dropDuplicates_extends.
  unfold optimizeSetOperation. frame.
Qed.

Lemma optimize_body_extends a :
  preserves extends (optimize_body opt gt a).
Proof.
  pose proof stringWithComment_extends.
  pose proof optimizeSetOperation_extends.
  pose proof flattenNamedString_extends.
  unfold optimize_body, optimize_switch. frame.
Qed.
End OptimizerFrame.

Lemma optimize_extends `{Host} fuel o a :
  preserves extends (optimize fuel o a).
Proof.
  revert a. induction fuel as [|fuel IH]; intros a; simpl.
  - apply preserves_diverge; typeclasses eauto.
  - apply optimize_body_extends; [exact IH|].
    intros b. apply generateType_extends.
Qed.

Lemma preserves_apply {A} (R : relation State) (m : M A) st a st' :
  preserves R m -> m st = Ok a st' -> R st st'.
Proof. intros F E. eapply F, E. Qed.

(** Derives [R st st'] from a hypothesis [E : m st = Ok a st']. *)
Ltac by_frame E := eapply preserves_apply; [|exact E]; frame.

(** ** C9: a node that is in [processed] already *)

Lemma bind_ext_on {A B} (m : M A) (k1 k2 : A -> M B) st :
  (forall a st1, m st = Ok a st1 -> k1 a st1 = k2 a st1) ->
  bind m k1 st = bind m k2 st.
Proof.
  intros E. unfold bind. destruct (m st) as [a st1| |] eqn:Em; auto.
Qed.

Lemma optimize_processed `{Host} fuel o a st :
  a ∈ processed st -> optimize (S fuel) o a st = Ok a st.
Proof.
  intros P. simpl. unfold optimize_body, bind at 1, processed_has.
  rewrite bool_decide_eq_true_2 by exact P. reflexivity.
Qed.

(** The interface case of [optimize] when the node is new: the body of
    [optimize_body], its last call left open as [last]. *)
Definition optimizeInterface `{Host} (fuel : nat) (o : Options) (a : addr)
    (params : list TInterfaceParam) (last : M addr) : M addr :=
  processed_add a ;;
  forEach
    (fun i m =>
       let* r := optimize fuel o (p_ast m) in assign_member a i r)
    0 params ;;
  let* n' := get_node a in
  forEach (fun i m => flattenNamedString (p_ast m) (assign_member a i))
    0 (membersOf n') ;;
  last.

Lemma optimize_interface_unfold `{Host} fuel o a st n ps sup :
  a ∉ processed st ->
  nodes st !! a = Some n ->
  shape n = TInterface ps sup ->
  optimize (S fuel) o a st
  = optimizeInterface fuel o a ps (optimize fuel o a) st.
Proof.
  intros P N Sh. simpl.
  unfold optimize_body, optimize_switch, optimizeInterface.
  unfold bind at 1, processed_has.
  rewrite bool_decide_eq_false_2 by exact P.
  unfold bind at 1 5, processed_add. unfold bind at 1, get_node. simpl.
  rewrite N, Sh. reflexivity.
Qed.

(** C9: [optimize] called on a node that is in the set [processed] returns
    that very node and changes nothing, at any depth of the recursion.
    Hence the call [optimize(ast, options, processed)] that ends the
    interface case, on the interface that was put into [processed] when the
    case began, does nothing: the case is what it is with [ast] returned
    in the place of that call. *)
Theorem C9_processed_node_is_returned :
  forall (H : Host) (fuel : nat) (o : Options) (a : addr) (st : State),
    (a ∈ processed st -> optimize (S fuel) o a st = Ok a st)
    /\ (forall n ps sup,
          a ∉ processed st ->
          nodes st !! a = Some n ->
          shape n = TInterface ps sup ->
          optimize (S (S fuel)) o a st
          = optimizeInterface (S fuel) o a ps (ret a) st).
Proof.
  intros H fuel o a st. split; [apply optimize_processed|].
  intros n ps sup P N Sh.
  rewrite (optimize_interface_unfold _ _ _ _ _ _ _ P N Sh).
  unfold optimizeInterface.
  apply bind_ext_on. intros [] st1 E1.
  assert (a ∈ processed st1) as P1.
  { injection E1 as <-. simpl. set_solver. }
  apply bind_ext_on. intros [] st2 E2.
  assert (extends st1 st2) as X2.
  { revert E2. apply preserves_forEach; [exact _|]. intros j x.
    pose proof (optimize_extends (S fuel) o). frame. }
  apply bind_ext_on. intros n' st3 E3.
  apply get_node_inv in E3 as [-> _].
  apply bind_ext_on. intros [] st4 E4.
  assert (extends st2 st4) as X4.
  { revert E4. apply preserves_forEach; [exact _|]. intros j x.
    apply flattenNamedString_extends. intros s. frame. }
  apply optimize_processed. apply X4, X2, P1.
Qed.

(** An interface with one member, in [processed] already. *)
Definition interface_processed : State :=
  mkState (constants
           ++ [bare (TInterface [mkParam 4 "a" true false false] []);
               bare (TLiteral (JString "x"))])
    ∅ {[3]}.

Lemma C9_witness :
  optimize (H := example_host) 1 (example_options true) 3 interface_processed
  = Ok 3 interface_processed.
Proof.
  apply (proj1 (C9_processed_node_is_returned example_host 0
                  (example_options true) 3 interface_processed)).
  vm_compute. reflexivity.
Defined.

(** ** C5: the first rules of a union or an intersection *)

Lemma bind_assoc {A B C} (m : M A) (k : A -> M B) (k' : B -> M C) st :
  bind (bind m k) k' st = bind m (fun a => bind (k a) k') st.
Proof. unfold bind. destruct (m st); reflexivity. Qed.

Lemma alloc_ok n st :
  alloc n st
  = Ok (length (nodes st))
      (mkState (nodes st ++ [n]) (memo st) (processed st)).
Proof. reflexivity. Qed.

Lemma assign_shape_ok a s st n :
  nodes st !! a = Some n ->
  assign_shape a s st
  = Ok tt (mkState (<[a := with_shape n s]> (nodes st)) (memo st)
             (processed st)).
Proof. intros N. unfold assign_shape. rewrite N. reflexivity. Qed.

Lemma assign_params_ok a ps st n :
  nodes st !! a = Some n ->
  assign_params a ps st
  = Ok tt (mkState (<[a := with_shape n (withParams (shape n) ps)]> (nodes st))
             (memo st) (processed st)).
Proof.
  intros N. unfold assign_params, bind, get_node. rewrite N.
  apply assign_shape_ok. exact N.
Qed.

Lemma assign_params_inv a ps st u st' :
  assign_params a ps st = Ok u st' ->
  exists n, nodes st !! a = Some n
    /\ nodes st' !! a = Some (with_shape n (withParams (shape n) ps)).
Proof.
  intros E. destruct (nodes st !! a) as [n|] eqn:N.
  - exists n. split; [reflexivity|].
    rewrite (assign_params_ok _ _ _ _ N) in E. injection E as <- <-. simpl.
    apply list_lookup_insert_eq. eapply lookup_lt_Some. exact N.
  - unfold assign_params, bind, get_node in E. rewrite N in E. discriminate.
Qed.

Lemma mapM_get_node_inv ps st ns st' :
  mapM get_node ps st = Ok ns st' -> st' = st.
Proof.
  revert ns st st'. induction ps as [|p ps IH]; intros ns st st' E; simpl in E.
  - injection E as _ <-. reflexivity.
  - apply bind_inv in E as (n & st1 & G & E).
    apply get_node_inv in G as [-> _].
    apply bind_inv in E as (ns' & st2 & E & R).
    apply IH in E as ->. injection R as _ <-. reflexivity.
Qed.

Lemma filter_not_null params :
  (if existsb (hasType NULL) params
   then List.filter (fun p => negb (hasType NULL p)) params
   else params)
  = List.filter (fun p => negb (hasType NULL p)) params.
Proof.
  destruct (existsb (hasType NULL) params) eqn:E; [reflexivity|].
  induction params as [|p l IH]; [reflexivity|]. simpl in *.
  apply orb_false_iff in E as [-> E]. simpl. f_equal. apply IH, E.
Qed.

Lemma optimize_set_unfold `{Host} fuel o a st n ps :
  a ∉ processed st ->
  nodes st !! a = Some n ->
  shape n = TUnion ps \/ shape n = TIntersection ps ->
  optimize (S fuel) o a st
  = (processed_add a ;;
     optimizeSetOperation (optimize fuel o) (generateType fuel o) a n ps) st.
Proof.
  intros P N Sh. simpl. unfold optimize_body, optimize_switch.
  unfold bind at 1, processed_has.
  rewrite bool_decide_eq_false_2 by exact P.
  unfold bind at 1 3, processed_add. unfold bind at 1, get_node. simpl.
  rewrite N. destruct Sh as [-> | ->]; reflexivity.
Qed.

(** What [optimizeSetOperation] does once the NULL parameters are dropped:
    [kept] are the parameters that are left, each with its object. *)
Definition afterNullDrop `{Host} (fuel : nat) (o : Options) (a : addr)
    (n : AST) (kept : list (addr * AST)) : M addr :=
  assign_params a (map fst kept) ;;
  if existsb (hasType ANY) kept then ret T_ANY
  else if existsb (hasType UNKNOWN) kept then ret T_UNKNOWN
  else if forallb isStringLike kept then stringWithComment (comment n)
  else
    let* params := keepNamed (generateType fuel o) kept in
    assign_params a (map fst params) ;;
    let* params := dropDuplicates (generateType fuel o) params in
    assign_params a (map fst params) ;;
    if (1 <? length params)%nat && forallb (hasType INTERFACE) params then
      let acc :=
        fold_left (fun acc p => addMembers acc (membersOf (snd p)))
          params [] in
      let* merged := alloc (T_INTERFACE acc (comment n)) in
      assign_params a [merged] ;; ret a
    else
      let* again := mapM (optimize fuel o) (map fst params) in
      assign_params a again ;; ret a.

Lemma optimize_set_after_null_drop `{Host} fuel o a st n ps ps1 st1 ns st2 :
  a ∉ processed st ->
  nodes st !! a = Some n ->
  shape n = TUnion ps \/ shape n = TIntersection ps ->
  (processed_add a ;; mapM (optimize fuel o) ps) st = Ok ps1 st1 ->
  (assign_params a ps1 ;; mapM get_node ps1) st1 = Ok ns st2 ->
  optimize (S fuel) o a st
  = afterNullDrop fuel o a n
      (List.filter (fun p => negb (hasType NULL p)) (zip ps1 ns)) st2.
Proof.
  intros P N Sh Hopt Hread.
  rewrite (optimize_set_unfold _ _ _ _ _ _ P N Sh).
  unfold optimizeSetOperation. rewrite <- bind_assoc.
  rewrite (bind_ok _ _ _ _ _ Hopt). rewrite <- bind_assoc.
  rewrite (bind_ok _ _ _ _ _ Hread). cbv zeta.
  rewrite filter_not_null. reflexivity.
Qed.

(** A STRING node that carries the comment [c] when [c] is truthy, the
    constant [T_STRING] otherwise. *)
Definition is_string_for (c : option string) (r : addr) (st : State) : Prop :=
  if truthy c then nodes st !! r = Some (mkAST TString None c false None)
  else r = T_STRING.

Lemma stringWithComment_ok c st :
  exists r st', stringWithComment c st = Ok r st' /\ is_string_for c r st'.
Proof.
  unfold stringWithComment, is_string_for. destruct (truthy c).
  - eexists _, _. split; [reflexivity|]. simpl.
    rewrite lookup_app_r by reflexivity. rewrite Nat.sub_diag. reflexivity.
  - eexists _, _. split; reflexivity.
Qed.

(** The three unions of the examples. *)
Definition union_string_null : State :=
  store [bare (TUnion [4; 5]); bare TString; bare TNull].
Definition union_string_any : State :=
  store [bare (TUnion [4; 5]); bare TString; bare TAny].
Definition union_literals : State :=
  store [bare (TUnion [4; 5]); bare (TLiteral (JString "a"));
         bare (TLiteral (JString "b"))].



(** ** C4: a union of interfaces *)

(** The members of the interface that the optimizer builds from the
    parameters [params] of a union. *)
Definition mergedMembers (params : list (addr * AST))
    : list TInterfaceParam :=
  fold_left (fun acc p => addMembers acc (membersOf (snd p))) params [].

(** All the members of all the parameters, in their order. *)
Definition allMembers (params : list (addr * AST)) : list TInterfaceParam :=
  concat (map (fun p => membersOf (snd p)) params).

(** The words of the specification: of a list of members, the first
    occurrence of every key name; [seen] are the key names met so far. *)
Fixpoint firstOccurrences (seen : list string) (l : list TInterfaceParam)
    : list TInterfaceParam :=
  match l with
  | [] => []
  | m :: l' =>
      if existsb (String.eqb (p_keyName m)) seen
      then firstOccurrences seen l'
      else m :: firstOccurrences (seen ++ [p_keyName m]) l'
  end.

Lemma existsb_key (acc : list TInterfaceParam) (k : string) :
  existsb (fun a => String.eqb (p_keyName a) k) acc
  = existsb (String.eqb k) (map p_keyName acc).
Proof.
  induction acc as [|x acc IH]; [reflexivity|]. simpl.
  rewrite IH, (String.eqb_sym k). reflexivity.
Qed.

Lemma addMembers_firstOccurrences acc ps :
  addMembers acc ps = acc ++ firstOccurrences (map p_keyName acc) ps.
Proof.
  unfold addMembers. revert acc.
  induction ps as [|p ps IH]; intros acc; simpl.
  - rewrite app_nil_r. reflexivity.
  - rewrite existsb_key.
    destruct (existsb (String.eqb (p_keyName p)) (map p_keyName acc)).
    + apply IH.
    + rewrite IH, map_app, <- app_assoc. reflexivity.
Qed.

Lemma firstOccurrences_app seen l1 l2 :
  firstOccurrences seen (l1 ++ l2)
  = firstOccurrences seen l1
    ++ firstOccurrences
         (seen ++ map p_keyName (firstOccurrences seen l1)) l2.
Proof.
  revert seen. induction l1 as [|m l1 IH]; intros seen; simpl.
  - rewrite app_nil_r. reflexivity.
  - destruct (existsb (String.eqb (p_keyName m)) seen).
    + apply IH.
    + simpl. rewrite IH, <- app_assoc. reflexivity.
Qed.

Lemma mergedMembers_firstOccurrences params :
  mergedMembers params = firstOccurrences [] (allMembers params).
Proof.
  unfold mergedMembers, allMembers.
  enough (forall acc,
             fold_left (fun acc p => addMembers acc (membersOf (snd p)))
               params acc
             = acc
               ++ firstOccurrences (map p_keyName acc)
                    (concat (map (fun p => membersOf (snd p)) params)))
    as E by apply (E []).
  induction params as [|p params IH]; intros acc; simpl.
  - rewrite app_nil_r. reflexivity.
  - rewrite IH, addMembers_firstOccurrences, firstOccurrences_app.
    rewrite map_app, <- app_assoc. reflexivity.
Qed.

Lemma existsb_eqb_true k (seen : list string) :
  existsb (String.eqb k) seen = true <-> k ∈ seen.
Proof.
  rewrite existsb_exists. split.
  - intros (x & Hx & E). apply String.eqb_eq in E as ->.
    apply list_elem_of_In. exact Hx.
  - intros Hk. exists k. split; [apply list_elem_of_In, Hk|].
    apply String.eqb_refl.
Qed.

Lemma existsb_eqb_false k (seen : list string) :
  existsb (String.eqb k) seen = false <-> k ∉ seen.
Proof.
  rewrite <- existsb_eqb_true. destruct (existsb _ seen); split; congruence.
Qed.

Lemma firstOccurrences_keys_new seen l m :
  m ∈ firstOccurrences seen l -> m ∈ l /\ p_keyName m ∉ seen.
Proof.
  revert seen. induction l as [|x l IH]; intros seen; simpl.
  - intros Hm. inversion Hm.
  - destruct (existsb (String.eqb (p_keyName x)) seen) eqn:E.
    + intros Hm. apply IH in Hm as [? ?]. split; [right|]; assumption.
    + intros Hm. apply elem_of_cons in Hm as [-> | Hm].
      * split; [left|]. apply existsb_eqb_false, E.
      * apply IH in Hm as [? Hn]. split; [right; assumption|].
        intros Hs. apply Hn. apply elem_of_app. left. exact Hs.
Qed.

Lemma firstOccurrences_NoDup seen l :
  NoDup (map p_keyName (firstOccurrences seen l)).
Proof.
  revert seen. induction l as [|x l IH]; intros seen; simpl.
  - constructor.
  - destruct (existsb (String.eqb (p_keyName x)) seen); [apply IH|].
    simpl. constructor; [|apply IH].
    intros Hk. apply list_elem_of_fmap in Hk as (m & Ek & Hm).
    apply firstOccurrences_keys_new in Hm as [_ Hn]. apply Hn.
    apply elem_of_app. right. rewrite Ek. apply list_elem_of_singleton.
    reflexivity.
Qed.

Lemma firstOccurrences_covers seen l m :
  m ∈ l ->
  p_keyName m ∈ seen
  \/ p_keyName m ∈ map p_keyName (firstOccurrences seen l).
Proof.
  revert seen. induction l as [|x l IH]; intros seen Hm.
  - inversion Hm.
  - simpl. destruct (existsb (String.eqb (p_keyName x)) seen) eqn:E.
    + apply elem_of_cons in Hm as [-> | Hm].
      * left. apply existsb_eqb_true, E.
      * apply IH, Hm.
    + simpl. apply elem_of_cons in Hm as [-> | Hm].
      * right. left.
      * destruct (IH (seen ++ [p_keyName x]) Hm) as [Hs | Hs].
        -- apply elem_of_app in Hs as [Hs | Hs]; [left; exact Hs|].
           apply list_elem_of_singleton in Hs. right. rewrite Hs. left.
        -- right. right. exact Hs.
Qed.

Lemma firstOccurrences_find seen l m :
  m ∈ firstOccurrences seen l ->
  find (fun x => String.eqb (p_keyName x) (p_keyName m)) l = Some m.
Proof.
  revert seen. induction l as [|x l IH]; intros seen; simpl.
  - intros Hm. inversion Hm.
  - destruct (existsb (String.eqb (p_keyName x)) seen) eqn:E.
    + intros Hm. destruct (String.eqb (p_keyName x) (p_keyName m)) eqn:K.
      * apply String.eqb_eq in K.
        apply firstOccurrences_keys_new in Hm as [_ Hn].
        apply existsb_eqb_true in E. rewrite K in E. contradiction.
      * eapply IH, Hm.
    + intros Hm. apply elem_of_cons in Hm as [-> | Hm].
      * rewrite String.eqb_refl. reflexivity.
      * destruct (String.eqb (p_keyName x) (p_keyName m)) eqn:K.
        -- apply String.eqb_eq in K.
           apply firstOccurrences_keys_new in Hm as [_ Hn]. exfalso.
           apply Hn. apply elem_of_app. right. rewrite K.
           apply list_elem_of_singleton. reflexivity.
        -- eapply IH, Hm.
Qed.

Lemma withParams_same_type n n' ps l :
  type n' = type n ->
  shape n = TUnion ps \/ shape n = TIntersection ps ->
  withParams (shape n') l = withParams (shape n) l.
Proof.
  unfold type. intros T [S | S]; rewrite S in *;
    destruct (shape n'); try discriminate T; reflexivity.
Qed.

Lemma mapM_optimize_extends `{Host} fuel o ps :
  preserves extends (mapM (optimize fuel o) ps).
Proof. pose proof (optimize_extends fuel o). frame. Qed.

(** [Union[Interface{a: String}, Interface{b: Number}]] at address 3. *)
Definition union_interfaces : State :=
  store [bare (TUnion [4; 5]);
         bare (TInterface [mkParam 6 "a" true false false] []);
         bare (TInterface [mkParam 7 "b" true false false] []);
         bare TString; bare TNumber].

Lemma union_interfaces_optimized (fuel : nat) (o : Options) :
  exists st',
    runOptimize (H := example_host) (3 + fuel) o 3 union_interfaces = Ok 3 st'
    /\ nodes st' !! 3 = Some (bare (TUnion [12]))
    /\ nodes st' !! 12
       = Some (T_INTERFACE
                 [mkParam 6 "a" true false false;
                  mkParam 7 "b" true false false] None).
Proof.
  destruct o as [ext [|] [|] enums banner];
    eexists; (split; [vm_compute; reflexivity|]); split; reflexivity.
Qed.

(** C4, as amended: [optimize(Union[Interface{a: String}, Interface{b:
    Number}])] returns the union itself, whose parameter list is now one new
    anonymous Interface node with the members [a: String, b: Number].  In
    general, when more than one parameter is left after the rules (a) to (f)
    and all of them are interfaces, the call returns the union (or the
    intersection) node, its parameter list replaced by a single new
    interface that carries the comment of the union and whose member list
    is the union of the members of all parameters in their order, the first
    occurrence of every key name being the one that is kept. *)
Theorem C4_union_of_interfaces_wraps_merged_interface :
  forall (H : Host) (fuel : nat) (o : Options),
    (forall a st n ps ps1 st1 ns st2 qs st3,
        a ∉ processed st ->
        nodes st !! a = Some n ->
        shape n = TUnion ps \/ shape n = TIntersection ps ->
        (processed_add a ;; mapM (optimize fuel o) ps) st = Ok ps1 st1 ->
        (assign_params a ps1 ;; mapM get_node ps1) st1 = Ok ns st2 ->
        let kept :=
          List.filter (fun p => negb (hasType NULL p)) (zip ps1 ns) in
        existsb (hasType ANY) kept = false ->
        existsb (hasType UNKNOWN) kept = false ->
        forallb isStringLike kept = false ->
        (assign_params a (map fst kept) ;;
         let* params := keepNamed (generateType fuel o) kept in
         assign_params a (map fst params) ;;
         dropDuplicates (generateType fuel o) params) st2 = Ok qs st3 ->
        (1 < length qs)%nat ->
        forallb (hasType INTERFACE) qs = true ->
        let merged := length (nodes st3) in
        exists st' na,
          optimize (S fuel) o a st = Ok a st'
          /\ nodes st' !! a = Some na
          /\ shape na = withParams (shape n) [merged]
          /\ nodes st' !! merged
             = Some (T_INTERFACE (mergedMembers qs) (comment n))
          /\ mergedMembers qs = firstOccurrences [] (allMembers qs)
          /\ NoDup (map p_keyName (mergedMembers qs))
          /\ (forall m, m ∈ mergedMembers qs ->
                find (fun x => String.eqb (p_keyName x) (p_keyName m))
                  (allMembers qs) = Some m)
          /\ (forall m, m ∈ allMembers qs ->
                p_keyName m ∈ map p_keyName (mergedMembers qs)))
    /\ (exists st',
          runOptimize (H := example_host) (3 + fuel) o 3 union_interfaces
          = Ok 3 st'
          /\ nodes st' !! 3 = Some (bare (TUnion [12]))
          /\ nodes st' !! 12
             = Some (T_INTERFACE
                       [mkParam 6 "a" true false false;
                        mkParam 7 "b" true false false] None)).
Proof.
  intros H fuel o. split; [|apply union_interfaces_optimized].
  intros a st n ps ps1 st1 ns st2 qs st3 P N Sh Hopt Hread kept
    Hany Hunk Hstr Hdedup Hlen Hifc merged.
  rewrite (optimize_set_after_null_drop _ _ _ _ _ _ _ _ _ _ P N Sh Hopt Hread).
  fold kept. unfold afterNullDrop. rewrite Hany, Hunk, Hstr.
  assert (extends st st3) as X.
  { pose proof (mapM_optimize_extends fuel o).
    pose proof (keepNamed_extends (generateType fuel o)).
    pose proof (dropDuplicates_extends (generateType fuel o)).
    pose proof (generateType_extends fuel o).
    transitivity st1; [by_frame Hopt|].
    transitivity st2; [by_frame Hread | by_frame Hdedup]. }
  destruct (proj2 X a n N) as (n3 & N3 & F3).
  apply bind_inv in Hdedup as (u1 & s1 & E1 & Hdedup).
  rewrite (bind_ok _ _ _ _ _ E1).
  apply bind_inv in Hdedup as (kn & s2 & E2 & Hdedup).
  rewrite (bind_ok _ _ _ _ _ E2).
  apply bind_inv in Hdedup as (u3 & s3 & E3 & E4).
  rewrite (bind_ok _ _ _ _ _ E3), (bind_ok _ _ _ _ _ E4).
  rewrite (bind_ok _ _ _ _ _ (assign_params_ok _ _ _ _ N3)).
  apply Nat.ltb_lt in Hlen. rewrite Hlen, Hifc.
  change (true && true) with true. cbv iota zeta.
  rewrite (bind_ok _ _ _ _ _ (alloc_ok _ _)). simpl nodes.
  rewrite length_insert.
  set (n4 := with_shape n3 (withParams (shape n3) (map fst qs))).
  assert (a < length (nodes st3))%nat as La
      by (eapply lookup_lt_Some; exact N3).
  match goal with
  | |- context [bind (assign_params a ?l) _ ?s] =>
      assert (nodes s !! a = Some n4) as N4
  end.
  { simpl. rewrite lookup_app_l by (rewrite length_insert; exact La).
    apply list_lookup_insert_eq. exact La. }
  rewrite (bind_ok _ _ _ _ _ (assign_params_ok _ _ _ _ N4)).
  eexists _, _. split; [reflexivity|]. simpl nodes.
  split; [apply list_lookup_insert_eq; rewrite length_app, length_insert; lia|].
  split.
  { simpl. subst n4. simpl.
    assert (type n3 = type n) as T3 by apply F3.
    clear -T3 Sh. unfold type in T3.
    destruct Sh as [S | S]; rewrite S in *;
      destruct (shape n3); try discriminate T3; reflexivity. }
  split.
  { rewrite list_lookup_insert_ne by (unfold merged; lia).
    rewrite lookup_app_r by (rewrite length_insert; unfold merged; lia).
    rewrite length_insert. unfold merged. rewrite Nat.sub_diag.
    reflexivity. }
  split; [apply mergedMembers_firstOccurrences|].
  rewrite mergedMembers_firstOccurrences.
  split; [apply firstOccurrences_NoDup|].
  split; [intros m; apply firstOccurrences_find|].
  intros m Hm. destruct (firstOccurrences_covers [] _ _ Hm) as [Hs | Hs].
  - inversion Hs.
  - exact Hs.
Qed.

Lemma C4_witness :
  exists st' na,
    optimize (H := example_host) 3 (example_options true) 3 union_interfaces
    = Ok 3 st'
    /\ nodes st' !! 3 = Some na
    /\ shape na = TUnion [12]
    /\ nodes st' !! 12
       = Some (T_INTERFACE
                 [mkParam 6 "a" true false false;
                  mkParam 7 "b" true false false] None).
Proof.
  edestruct (proj1 (C4_union_of_interfaces_wraps_merged_interface
                      example_host 2 (example_options true))
               3 union_interfaces (bare (TUnion [4; 5])) [4; 5])
    as (st' & na & E & Na & Sna & Nm & _).
  - vm_compute. intros E. discriminate E.
  - reflexivity.
  - left. reflexivity.
  - vm_compute. reflexivity.
  - vm_compute. reflexivity.
  - vm_compute. reflexivity.
  - vm_compute. reflexivity.
  - vm_compute. reflexivity.
  - vm_compute. reflexivity.
  - vm_compute. lia.
  - vm_compute. reflexivity.
  - exists st', na. split; [exact E|]. split; [exact Na|].
    split; [exact Sna | exact Nm].
Defined.

(** C4 as the specification words it fails: what [optimize] returns for
    [Union[Interface{a: String}, Interface{b: Number}]] is not an Interface
    node; it is the union, of type UNION. *)
Lemma C4_result_is_the_union_node :
  exists st' n,
    runOptimize (H := example_host) 3 (example_options true) 3
      union_interfaces = Ok 3 st'
    /\ nodes st' !! 3 = Some n
    /\ type n = UNION
    /\ type n <> INTERFACE.
Proof.
  eexists _, _. split; [vm_compute; reflexivity|].
  split; [reflexivity|]. split; [reflexivity | discriminate].
Qed.

(** ** C6: parameters with the same text *)

(** Each element with its key a second time, so that [uniqBy] gives the
    elements that stay together with their keys. *)
Definition keyed {A} (l : list (A * string)) : list ((A * string) * string) :=
  map (fun e => (e, snd e)) l.

Lemma uniqBy_keyed {A} seen (l : list (A * string)) :
  uniqBy seen l = map fst (uniqBy seen (keyed l)).
Proof.
  revert seen. induction l as [|[x k] l IH]; intros seen; simpl.
  - reflexivity.
  - destruct (existsb (String.eqb k) seen); simpl; rewrite IH; reflexivity.
Qed.

Lemma uniqBy_new {A} seen (l : list (A * string)) e :
  e ∈ uniqBy seen (keyed l) -> e ∈ l /\ snd e ∉ seen.
Proof.
  revert seen. induction l as [|[x k] l IH]; intros seen; simpl.
  - intros He. inversion He.
  - destruct (existsb (String.eqb k) seen) eqn:E.
    + intros He. apply IH in He as [? ?]. split; [right|]; assumption.
    + intros He. apply elem_of_cons in He as [-> | He].
      * split; [left|]. apply existsb_eqb_false, E.
      * apply IH in He as [? Hn]. split; [right; assumption|].
        intros Hs. apply Hn. right. exact Hs.
Qed.

Lemma uniqBy_NoDup {A} seen (l : list (A * string)) :
  NoDup (map snd (uniqBy seen (keyed l))).
Proof.
  revert seen. induction l as [|[x k] l IH]; intros seen; simpl.
  - constructor.
  - destruct (existsb (String.eqb k) seen); [apply IH|].
    simpl. constructor; [|apply IH].
    intros Hk. apply list_elem_of_fmap in Hk as (e & Ek & He).
    apply uniqBy_new in He as [_ Hn]. apply Hn. rewrite <- Ek. left.
Qed.

Lemma uniqBy_covers {A} seen (l : list (A * string)) e :
  e ∈ l -> snd e ∈ seen \/ snd e ∈ map snd (uniqBy seen (keyed l)).
Proof.
  revert seen. induction l as [|[x k] l IH]; intros seen He.
  - inversion He.
  - simpl. destruct (existsb (String.eqb k) seen) eqn:E.
    + apply elem_of_cons in He as [-> | He].
      * left. apply existsb_eqb_true, E.
      * apply IH, He.
    + simpl. apply elem_of_cons in He as [-> | He].
      * right. left.
      * destruct (IH (k :: seen) He) as [Hs | Hs].
        -- apply elem_of_cons in Hs as [-> | Hs]; [right; left | left; exact Hs].
        -- right. right. exact Hs.
Qed.

Lemma uniqBy_first {A} seen (l : list (A * string)) e :
  e ∈ uniqBy seen (keyed l) ->
  find (fun x => String.eqb (snd x) (snd e)) l = Some e.
Proof.
  revert seen. induction l as [|[x k] l IH]; intros seen; simpl.
  - intros He. inversion He.
  - destruct (existsb (String.eqb k) seen) eqn:E.
    + intros He. destruct (String.eqb k (snd e)) eqn:K.
      * apply String.eqb_eq in K. apply uniqBy_new in He as [_ Hn].
        apply existsb_eqb_true in E. rewrite K in E. contradiction.
      * eapply IH, He.
    + intros He. apply elem_of_cons in He as [-> | He].
      * simpl. rewrite String.eqb_refl. reflexivity.
      * destruct (String.eqb k (snd e)) eqn:K.
        -- apply String.eqb_eq in K. apply uniqBy_new in He as [_ Hn].
           exfalso. apply Hn. rewrite K. left.
        -- eapply IH, He.
Qed.

Lemma filter_named_elem (params : list (addr * AST)) p :
  p ∈ params -> isNamed p = true -> p ∈ List.filter isNamed params.
Proof.
  intros Hp Hn. apply list_elem_of_In. apply filter_In.
  split; [apply list_elem_of_In, Hp | exact Hn].
Qed.

(** [Union[Number named Foo, Number]] and
    [Union[Reference Foo, Number named Foo]], each at address 3. *)
Definition union_named_and_anonymous : State :=
  store [bare (TUnion [4; 5]); mkAST TNumber (Some "Foo") None false None;
         bare TNumber].
Definition union_reference_and_named : State :=
  store [bare (TUnion [4; 5]); bare (TReference "Foo");
         mkAST TNumber (Some "Foo") None false None].




(** ** C7: the output of [generate] *)

Lemma startsWith_app (p s : string) : startsWith p (p +:+ s) = true.
Proof.
  unfold startsWith. induction p as [|c p IH]; simpl.
  - destruct s; reflexivity.
  - destruct (ascii_dec c c); [exact IH | contradiction].
Qed.

Lemma endsWith_app_char (s : string) (c : ascii) :
  endsWith (s +:+ String c EmptyString) c = true.
Proof.
  induction s as [|x s IH]; simpl.
  - apply Ascii.eqb_refl.
  - destruct (s +:+ String c EmptyString) eqn:E; [|exact IH].
    destruct s; discriminate E.
Qed.

Lemma append_cons (x : ascii) (a b : string) :
  String x a +:+ b = String x (a +:+ b).
Proof. reflexivity. Qed.

Lemma append_assoc (a b c : string) : (a +:+ b) +:+ c = a +:+ (b +:+ c).
Proof.
  induction a as [|x a IH]; [reflexivity|].
  rewrite !append_cons. f_equal. exact IH.
Qed.

(** A tree in which every section of the output is present: the interface
    [Root] at address 3, with an enum [E] and a named array [T] of strings
    as its members. *)
Definition root_with_all_sections : State :=
  store [mkAST (TInterface [mkParam 4 "e" true false false;
                            mkParam 5 "t" false false false] [])
           (Some "Root") None false None;
         mkAST (TEnum [mkEnumParam 7 "A"]) (Some "E") None false None;
         mkAST (TArray 6) (Some "T") None false None;
         bare TString; bare (TLiteral (JString "a"))].

Definition options_declaring_all : Options :=
  mkOptions true true false false "/* banner */".

(** C7, as amended: [generate] returns one text: the runtime prefix, then at
    once (nothing between them) those of the banner comment, the named
    type declarations, the named interface declarations and the enum
    declarations that are not empty, in this order and joined by a blank
    line, then a line break.  Each of the three walks starts with a new set
    [processed].  So the text starts with the prefix and ends with a line
    break. *)
Theorem C7_generate_layout :
  forall (H : Host) (fuel : nat) (o : Options) (a : addr) (st : State)
    (text : string) (st' : State),
    generate fuel o a st = Ok text st' ->
    exists n types interfaces enums st1 st2,
      nodes st !! a = Some n
      /\ (new_processed ;; declareNamedTypes fuel o (standaloneName n) a) st
         = Ok types st1
      /\ (new_processed ;;
          declareNamedInterfaces fuel o (standaloneName n) a) st1
         = Ok interfaces st2
      /\ (new_processed ;; declareEnums fuel o a) st2 = Ok enums st'
      /\ text
         = prefix
           +:+ join (nl +:+ nl)
                 (nonEmpty [bannerComment o; types; interfaces; enums])
           +:+ nl
      /\ startsWith prefix text = true
      /\ endsWith text "010"%char = true.
Proof.
  intros H fuel o a st text st' E. unfold generate in E.
  apply bind_inv in E as (n & st0 & G & E).
  apply get_node_inv in G as [-> N].
  apply bind_inv in E as (types & st1 & E1 & E).
  apply bind_inv in E as (interfaces & st2 & E2 & E).
  apply bind_inv in E as (enums & st3 & E3 & E).
  injection E as <- <-.
  exists n, types, interfaces, enums, st1, st2.
  repeat (split; [assumption || reflexivity|]). unfold sections. split.
  - apply startsWith_app.
  - rewrite <- append_assoc. apply endsWith_app_char.
Qed.

Lemma C7_witness :
  exists text st',
    generate (H := example_host) 6 options_declaring_all 3
      root_with_all_sections = Ok text st'
    /\ startsWith prefix text = true
    /\ endsWith text "010"%char = true.
Proof.
  eexists _, _. split; [vm_compute; reflexivity|].
  edestruct (C7_generate_layout example_host 6 options_declaring_all 3
               root_with_all_sections)
    as (n & types & interfaces & enums & st1 & st2 & _ & _ & _ & _ & _ & S);
    [vm_compute; reflexivity | exact S].
Defined.

(** C7 as the specification words it fails: all four sections are present
    in the output for this tree, and the banner follows the prefix at once:
    no line break, let alone a blank line, stands between them. *)
Lemma C7_no_blank_line_after_prefix :
  exists text st',
    generate (H := example_host) 6 options_declaring_all 3
      root_with_all_sections = Ok text st'
    /\ startsWith
         (prefix +:+ "/* banner */" +:+ nl +:+ nl +:+ "export type T = ")
         text = true
    /\ startsWith (prefix +:+ nl) text = false.
Proof.
  eexists _, _. split; [vm_compute; reflexivity|].
  split; vm_compute; reflexivity.
Qed.

(** ** C2: cycles *)

(** An array whose element is the array itself, at address 3. *)
Definition self_array : State := store [bare (TArray 3)].

(** The same array with a standalone name. *)
Definition named_self_array : State :=
  store [mkAST (TArray 3) (Some "Loop") None false None].

Lemma bind_diverges {A B} (m : M A) (k : A -> M B) st :
  m st = OutOfFuel -> bind m k st = OutOfFuel.
Proof. intros E. unfold bind. rewrite E. reflexivity. Qed.

(** An anonymous array that is its own element, with no text in the cache:
    the renderer does not return on it, nor on an anonymous array of it. *)
Lemma generateType_cycle `{Host} fuel o st a c :
  nodes st !! a = Some (bare (TArray a)) ->
  memo st !! a = None ->
  nodes st !! c = Some (bare (TArray a)) ->
  memo st !! c = None ->
  generateType fuel o c st = OutOfFuel.
Proof.
  intros Na Ma. revert c. induction fuel as [|fuel IH]; intros c Nc Mc;
    [reflexivity|].
  simpl. rewrite (memoize_miss _ _ _ _ Mc Nc).
  unfold generateTypeUnmemoized, generateRawType. simpl.
  do 3 apply bind_diverges. apply IH; assumption.
Qed.

Lemma generateType_self_array `{Host} fuel o st :
  nodes st = nodes self_array ->
  memo st !! 3 = None ->
  generateType fuel o 3 st = OutOfFuel.
Proof.
  intros N E.
  assert (nodes st !! 3 = Some (bare (TArray 3))) as N3
      by (rewrite N; reflexivity).
  eapply generateType_cycle; eassumption.
Qed.


(** *** Graphs without unions and intersections *)

(** The nodes that [optimize] goes to from a node of shape [s]. *)
Definition links (s : Shape) : list addr :=
  match s with
  | TArray e => [e]
  | TTuple params _ _ _ => params
  | TUnion params | TIntersection params => params
  | TInterface params _ => map p_ast params
  | _ => []
  end.

(** The types of the nodes that have such links. *)
Definition compound_type (t : ASTType) : bool :=
  match t with
  | ARRAY | TUPLE | INTERFACE | UNION | INTERSECTION => true
  | _ => false
  end.

Definition compound (n : AST) : bool := compound_type (type n).

Definition set_operation (n : AST) : bool :=
  match type n with
  | UNION | INTERSECTION => true
  | _ => false
  end.

(** A store in which [optimize] can run without meeting a union or an
    intersection: the constant [T_STRING] is there, the links of every node
    lead to nodes of the store, and no node is a union or an
    intersection. *)
Record plain_graph (st : State) : Prop := {
  plain_constants :
    exists n, nodes st !! T_STRING = Some n
      /\ type n = STRING /\ standaloneName n = None;
  plain_closed :
    forall i n c,
      nodes st !! i = Some n -> c ∈ links (shape n) ->
      c < length (nodes st);
  plain_no_set_operation :
    forall i n, nodes st !! i = Some n -> set_operation n = false
}.

(** The compound nodes that are not in [processed] yet. *)
Definition is_compound (st : State) (i : addr) : Prop :=
  exists n, nodes st !! i = Some n /\ compound n = true.

#[local] Instance is_compound_dec st i : Decision (is_compound st i).
Proof.
  unfold is_compound. destruct (nodes st !! i) as [n|].
  - destruct (compound n) eqn:E.
    + left. exists n. split; [reflexivity | exact E].
    + right. intros (n' & [= <-] & E'). congruence.
  - right. intros (n' & [=] & _).
Defined.

Definition todo (st : State) : gset nat :=
  filter (is_compound st) (set_seq 0 (length (nodes st)) : gset nat)
  ∖ processed st.

Lemma elem_of_todo st i :
  i ∈ todo st <-> is_compound st i /\ i ∉ processed st.
Proof.
  unfold todo. rewrite elem_of_difference, elem_of_filter, elem_of_set_seq.
  split.
  - intros [[C _] P]. split; assumption.
  - intros [C P]. split; [|exact P]. split; [exact C|].
    destruct C as (n & N & _). apply lookup_lt_Some in N. lia.
Qed.

(** From [st] to [st']: what [extends] says, and every node that is new is
    a STRING. *)
Definition grows : relation State :=
  fun st st' =>
    extends st st'
    /\ length (nodes st) <= length (nodes st')
    /\ forall i n, length (nodes st) <= i -> nodes st' !! i = Some n ->
         type n = STRING.

Lemma same_fields_compound n n' : same_fields n n' -> compound n' = compound n.
Proof. intros (T & _). unfold compound. rewrite T. reflexivity. Qed.

#[local] Instance grows_preorder : PreOrder grows.
Proof.
  split.
  - intros st. split; [reflexivity|]. split; [reflexivity|].
    intros i n L N. apply lookup_lt_Some in N. lia.
  - intros x y z (X1 & L1 & C1) (X2 & L2 & C2).
    split; [etransitivity; eassumption|]. split; [lia|].
    intros i n L N. destruct (decide (length (nodes y) <= i)) as [Ly|Ly].
    + eapply C2; eassumption.
    + destruct (lookup_lt_is_Some_2 (nodes y) i) as [ny Ny]; [lia|].
      destruct (proj2 X2 i ny Ny) as (n' & N' & F). rewrite N in N'.
      injection N' as <-. rewrite (proj1 F).
      eapply C1; eassumption.
Qed.

Lemma grows_todo st st' : grows st st' -> todo st' ⊆ todo st.
Proof.
  intros (X & L & C) i. rewrite !elem_of_todo.
  intros [(n' & N' & C') P']. split.
  - destruct (decide (length (nodes st) <= i)) as [Li|Li].
    + unfold compound in C'. rewrite (C i n' Li N') in C'.
      discriminate C'.
    + destruct (lookup_lt_is_Some_2 (nodes st) i) as [n N]; [lia|].
      exists n. split; [exact N|].
      destruct (proj2 X i n N) as (n2 & N2 & F). rewrite N' in N2.
      injection N2 as <-. rewrite <- (same_fields_compound _ _ F). exact C'.
  - intros P. apply P'. apply (proj1 X). exact P.
Qed.

Lemma todo_size_bound st : size (todo st) <= length (nodes st).
Proof.
  transitivity (size (set_seq 0 (length (nodes st)) : gset nat)).
  - apply subseteq_size. unfold todo. intros i.
    rewrite elem_of_difference, elem_of_filter. tauto.
  - rewrite size_set_seq. reflexivity.
Qed.

(** The nodes of [S] are in [st'] what they were in [st]. *)
Definition unchanged (S : gset nat) (st st' : State) : Prop :=
  forall i n, i ∈ S -> nodes st !! i = Some n -> nodes st' !! i = Some n.

Lemma unchanged_refl S st : unchanged S st st.
Proof. intros i n _ N. exact N. Qed.

Lemma unchanged_trans S st1 st2 st3 :
  unchanged S st1 st2 -> unchanged S st2 st3 -> unchanged S st1 st3.
Proof. intros U1 U2 i n Hi N. apply U2, U1; assumption. Qed.

Lemma unchanged_subseteq S S' st st' :
  S ⊆ S' -> unchanged S' st st' -> unchanged S st st'.
Proof. intros Sub U i n Hi N. apply U; [apply Sub, Hi | exact N]. Qed.

(** The node at [e] is a STRING with a standalone name: what the array and
    the interface cases of [optimize] replace. *)
Definition named_string (st : State) (e : addr) : Prop :=
  exists ne, nodes st !! e = Some ne
    /\ truthy (standaloneName ne) && bool_decide (type ne = STRING) = true.

(** A node on which these cases find nothing to replace. *)
Definition settled (st : State) (n : AST) : Prop :=
  match shape n with
  | TArray _ | TInterface _ _ =>
      forall c, c ∈ links (shape n) -> ~ named_string st c
  | _ => True
  end.

(** A node whose case is over: it is settled, and each of its links goes to
    a node of [processed] or to a node that is not compound. *)
Definition finished (st : State) (i : addr) : Prop :=
  exists n, nodes st !! i = Some n
    /\ settled st n
    /\ forall c, c ∈ links (shape n) ->
         c ∈ processed st \/ ~ is_compound st c.

(** What a call [optimize(a)] that started in [st] has achieved when it
    returns [r] in [st']. *)
Record optimized (st : State) (a r : addr) (st' : State) : Prop := {
  opt_plain : plain_graph st';
  opt_grows : grows st st';
  opt_unchanged : unchanged (processed st) st st';
  opt_valid : r < length (nodes st');
  opt_result : r ∈ processed st' \/ ~ is_compound st' r;
  opt_processed : a ∈ processed st';
  opt_same : r = a \/ exists n, nodes st !! a = Some n /\ type n = LITERAL;
  opt_finished :
    forall i, i ∈ processed st' -> i ∉ processed st -> finished st' i
}.

(** The call [m] returns from [st], with a value and a state that [Q]
    holds of. *)
Definition total {A} (m : M A) (st : State) (Q : A -> State -> Prop) : Prop :=
  exists a st', m st = Ok a st' /\ Q a st'.

Lemma total_ret {A} (a : A) st (Q : A -> State -> Prop) :
  Q a st -> total (ret a) st Q.
Proof. intros H. exists a, st. split; [reflexivity | exact H]. Qed.

Lemma total_bind {A B} (m : M A) (k : A -> M B) st (Q : B -> State -> Prop) :
  total m st (fun a st1 => total (k a) st1 Q) -> total (bind m k) st Q.
Proof.
  intros (a & st1 & E & b & st2 & E2 & H). exists b, st2.
  split; [|exact H]. rewrite (bind_ok _ _ _ _ _ E). exact E2.
Qed.

Lemma total_mono {A} (m : M A) st (Q Q' : A -> State -> Prop) :
  total m st Q -> (forall a st', Q a st' -> Q' a st') -> total m st Q'.
Proof. intros (a & st' & E & H) I. exists a, st'. split; auto. Qed.

Lemma total_get_node a st n (Q : AST -> State -> Prop) :
  nodes st !! a = Some n -> Q n st -> total (get_node a) st Q.
Proof.
  intros N H. exists n, st. split; [|exact H]. unfold get_node.
  rewrite N. reflexivity.
Qed.

Lemma extends_named_string st st' c :
  extends st st' -> c < length (nodes st) ->
  named_string st' c -> named_string st c.
Proof.
  intros X L (nc' & N' & T).
  destruct (lookup_lt_is_Some_2 (nodes st) c L) as [nc N].
  destruct (proj2 X c nc N) as (n2 & N2 & F). rewrite N' in N2.
  injection N2 as <-. exists nc. split; [exact N|].
  destruct F as (Ft & Fs & _). rewrite <- Ft, <- Fs. exact T.
Qed.

Lemma extends_is_compound st st' c :
  extends st st' -> c < length (nodes st) ->
  is_compound st' c -> is_compound st c.
Proof.
  intros X L (nc' & N' & T).
  destruct (lookup_lt_is_Some_2 (nodes st) c L) as [nc N].
  destruct (proj2 X c nc N) as (n2 & N2 & F). rewrite N' in N2.
  injection N2 as <-. exists nc. split; [exact N|].
  rewrite <- (same_fields_compound _ _ F). exact T.
Qed.

Lemma finished_stable st st' i n :
  plain_graph st ->
  extends st st' ->
  nodes st !! i = Some n ->
  nodes st' !! i = Some n ->
  finished st i -> finished st' i.
Proof.
  intros G X N N' (n0 & N0 & S & L). rewrite N in N0. injection N0 as <-.
  exists n. split; [exact N'|]. split.
  - assert (forall c, c ∈ links (shape n) ->
              ~ named_string st c -> ~ named_string st' c) as K.
    { intros c Hc Hs Hn. apply Hs.
      eapply extends_named_string; [exact X| |exact Hn].
      eapply plain_closed; eassumption. }
    unfold settled in *. destruct (shape n); auto.
  - intros c Hc. destruct (L c Hc) as [P | C].
    + left. apply (proj1 X), P.
    + right. intros C'. apply C.
      eapply extends_is_compound; [exact X| |exact C'].
      eapply plain_closed; eassumption.
Qed.

(** Inside the call [optimize(a)] that started in [st0]: the state [st]
    reached so far. *)
Record inside (st0 : State) (a : addr) (st : State) : Prop := {
  in_plain : plain_graph st;
  in_grows : grows st0 st;
  in_unchanged : unchanged (processed st0) st0 st;
  in_processed : a ∈ processed st;
  in_finished :
    forall i, i ∈ processed st -> i ∉ processed st0 -> i <> a ->
      finished st i
}.

Lemma inside_start st0 a :
  plain_graph st0 ->
  inside st0 a
    (mkState (nodes st0) (memo st0) ({[a]} ∪ processed st0)).
Proof.
  intros G. split; simpl.
  - destruct G as [C K P]. split; assumption.
  - split; [|split; [simpl; lia|]].
    + split; [simpl; set_solver|]. intros i n N. exists n.
      split; [exact N | apply same_fields_refl].
    + intros i n L N. simpl in N. apply lookup_lt_Some in N. lia.
  - intros i n _ N. exact N.
  - set_solver.
  - intros i Hi Hn Ha. simpl in Hi.
    apply elem_of_union in Hi as [Hi | Hi]; [|contradiction].
    apply elem_of_singleton in Hi. contradiction.
Qed.

Lemma inside_todo st0 a st :
  inside st0 a st -> a ∈ todo st0 -> size (todo st) < size (todo st0).
Proof.
  intros I A. apply subset_size. split.
  - apply grows_todo, (in_grows _ _ _ I).
  - intros Sub. specialize (Sub a A). apply elem_of_todo in Sub as [_ P].
    apply P, (in_processed _ _ _ I).
Qed.

Lemma inside_child st0 a st c r st' :
  inside st0 a st ->
  optimized st c r st' ->
  inside st0 a st'.
Proof.
  intros I O. split.
  - apply (opt_plain _ _ _ _ O).
  - etransitivity; [apply (in_grows _ _ _ I) | apply (opt_grows _ _ _ _ O)].
  - eapply unchanged_trans; [apply (in_unchanged _ _ _ I)|].
    eapply unchanged_subseteq; [|apply (opt_unchanged _ _ _ _ O)].
    apply (proj1 (proj1 (in_grows _ _ _ I))).
  - apply (proj1 (proj1 (opt_grows _ _ _ _ O))), (in_processed _ _ _ I).
  - intros i Hi H0 Ha. destruct (decide (i ∈ processed st)) as [Hp | Hp].
    + destruct (in_finished _ _ _ I i Hp H0 Ha) as (n & N & F).
      eapply finished_stable.
      * apply (in_plain _ _ _ I).
      * apply (proj1 (opt_grows _ _ _ _ O)).
      * exact N.
      * apply (opt_unchanged _ _ _ _ O); assumption.
      * exists n. split; [exact N | exact F].
    + apply (opt_finished _ _ _ _ O); assumption.
Qed.

(** The state [st] with the node at [a] replaced by [n']. *)
Definition put (a : addr) (n' : AST) (st : State) : State :=
  mkState (<[a := n']> (nodes st)) (memo st) (processed st).

Lemma same_fields_set_operation n n' :
  same_fields n n' -> set_operation n' = set_operation n.
Proof. intros (T & _). unfold set_operation. rewrite T. reflexivity. Qed.

Lemma put_extends a n n' st :
  nodes st !! a = Some n -> same_fields n n' -> extends st (put a n' st).
Proof.
  intros N F. split; [reflexivity|]. simpl. intros i x Ni.
  destruct (decide (i = a)) as [-> | Hne].
  - exists n'. rewrite list_lookup_insert_eq
      by (eapply lookup_lt_Some; exact N).
    split; [reflexivity|]. rewrite N in Ni. injection Ni as <-. exact F.
  - exists x. rewrite list_lookup_insert_ne by congruence.
    split; [exact Ni | apply same_fields_refl].
Qed.

Lemma put_grows a n n' st :
  nodes st !! a = Some n -> same_fields n n' -> grows st (put a n' st).
Proof.
  intros N F. split; [eapply put_extends; eassumption|]. simpl.
  rewrite length_insert. split; [reflexivity|].
  intros i x L Ni. apply lookup_lt_Some in Ni. rewrite length_insert in Ni.
  lia.
Qed.

Lemma put_plain a n n' st :
  plain_graph st ->
  nodes st !! a = Some n ->
  same_fields n n' ->
  (forall c, c ∈ links (shape n') -> c < length (nodes st)) ->
  plain_graph (put a n' st).
Proof.
  intros [C K P] N F V. pose proof (lookup_lt_Some _ _ _ N) as La.
  split; simpl.
  - destruct C as (ns & Ns & Ts & Ss).
    destruct (decide (T_STRING = a)) as [E | E].
    + exists n'. rewrite E, list_lookup_insert_eq by exact La.
      split; [reflexivity|]. rewrite E, N in Ns. injection Ns as <-.
      destruct F as (-> & -> & _). split; assumption.
    + exists ns. rewrite list_lookup_insert_ne by congruence.
      split; [exact Ns|]. split; assumption.
  - intros i x c Ni Hc. rewrite length_insert.
    destruct (decide (i = a)) as [-> | Hne].
    + rewrite list_lookup_insert_eq in Ni by exact La.
      injection Ni as <-. apply V, Hc.
    + rewrite list_lookup_insert_ne in Ni by congruence.
      eapply K; eassumption.
  - intros i x Ni. destruct (decide (i = a)) as [-> | Hne].
    + rewrite list_lookup_insert_eq in Ni by exact La.
      injection Ni as <-. rewrite (same_fields_set_operation _ _ F).
      eapply P; exact N.
    + rewrite list_lookup_insert_ne in Ni by congruence.
      eapply P; exact Ni.
Qed.

Lemma put_unchanged S a n' st : a ∉ S -> unchanged S st (put a n' st).
Proof.
  intros Ha i n Hi N. simpl. rewrite list_lookup_insert_ne; [exact N|].
  intros ->. contradiction.
Qed.

Lemma inside_put st0 a st n n' :
  inside st0 a st ->
  a ∉ processed st0 ->
  nodes st !! a = Some n ->
  same_fields n n' ->
  (forall c, c ∈ links (shape n') -> c < length (nodes st)) ->
  inside st0 a (put a n' st).
Proof.
  intros I A N F V. split.
  - eapply put_plain; [apply (in_plain _ _ _ I) | eassumption..].
  - etransitivity; [apply (in_grows _ _ _ I) | eapply put_grows; eassumption].
  - eapply unchanged_trans; [apply (in_unchanged _ _ _ I)|].
    apply put_unchanged, A.
  - apply (in_processed _ _ _ I).
  - intros i Hi H0 Ha.
    destruct (in_finished _ _ _ I i Hi H0 Ha) as (x & Nx & Fx).
    eapply finished_stable.
    + apply (in_plain _ _ _ I).
    + eapply put_extends; eassumption.
    + exact Nx.
    + simpl. rewrite list_lookup_insert_ne by congruence. exact Nx.
    + exists x. split; [exact Nx | exact Fx].
Qed.

(** The state [st] with the new node [n0] after its nodes. *)
Definition push (n0 : AST) (st : State) : State :=
  mkState (nodes st ++ [n0]) (memo st) (processed st).

Lemma push_extends n0 st : extends st (push n0 st).
Proof.
  split; [reflexivity|]. simpl. intros i x Ni. exists x.
  split; [apply lookup_app_l_Some, Ni | apply same_fields_refl].
Qed.

Lemma push_grows n0 st : type n0 = STRING -> grows st (push n0 st).
Proof.
  intros C. split; [apply push_extends|]. simpl. rewrite length_app. simpl.
  split; [lia|]. intros i x L Ni.
  destruct (decide (i = length (nodes st))) as [-> | Hne].
  - rewrite lookup_app_r in Ni by reflexivity.
    rewrite Nat.sub_diag in Ni. injection Ni as <-. exact C.
  - apply lookup_lt_Some in Ni. rewrite length_app in Ni. simpl in Ni. lia.
Qed.

Lemma push_plain n0 st :
  plain_graph st ->
  links (shape n0) = [] ->
  set_operation n0 = false ->
  plain_graph (push n0 st).
Proof.
  intros [C K P] L S. split; simpl.
  - destruct C as (ns & Ns & Ts). exists ns.
    split; [apply lookup_app_l_Some, Ns | exact Ts].
  - intros i x c Ni Hc. rewrite length_app. simpl.
    destruct (decide (i < length (nodes st))) as [Li | Li].
    + rewrite lookup_app_l in Ni by exact Li.
      pose proof (K i x c Ni Hc). lia.
    + assert (i = length (nodes st)) as ->.
      { apply lookup_lt_Some in Ni. rewrite length_app in Ni. simpl in Ni.
        lia. }
      rewrite lookup_app_r in Ni by reflexivity.
      rewrite Nat.sub_diag in Ni. injection Ni as <-.
      rewrite L in Hc. inversion Hc.
  - intros i x Ni.
    destruct (decide (i < length (nodes st))) as [Li | Li].
    + rewrite lookup_app_l in Ni by exact Li. eapply P; exact Ni.
    + assert (i = length (nodes st)) as ->.
      { apply lookup_lt_Some in Ni. rewrite length_app in Ni. simpl in Ni.
        lia. }
      rewrite lookup_app_r in Ni by reflexivity.
      rewrite Nat.sub_diag in Ni. injection Ni as <-. exact S.
Qed.

Lemma push_unchanged S n0 st : unchanged S st (push n0 st).
Proof. intros i n Hi N. simpl. apply lookup_app_l_Some, N. Qed.

Lemma inside_push st0 a st n0 :
  inside st0 a st ->
  type n0 = STRING ->
  links (shape n0) = [] ->
  set_operation n0 = false ->
  inside st0 a (push n0 st).
Proof.
  intros I C L S. split.
  - apply push_plain; [apply (in_plain _ _ _ I) | assumption..].
  - etransitivity; [apply (in_grows _ _ _ I) | apply push_grows, C].
  - eapply unchanged_trans; [apply (in_unchanged _ _ _ I)|].
    apply push_unchanged.
  - apply (in_processed _ _ _ I).
  - intros i Hi H0 Ha.
    destruct (in_finished _ _ _ I i Hi H0 Ha) as (x & Nx & Fx).
    eapply finished_stable.
    + apply (in_plain _ _ _ I).
    + apply push_extends.
    + exact Nx.
    + simpl. apply lookup_app_l_Some, Nx.
    + exists x. split; [exact Nx | exact Fx].
Qed.

Lemma optimize_new `{Host} fuel o a st n :
  a ∉ processed st ->
  nodes st !! a = Some n ->
  optimize (S fuel) o a st
  = optimize_switch (optimize fuel o) (generateType fuel o) a n
      (mkState (nodes st) (memo st) ({[a]} ∪ processed st)).
Proof.
  intros P N. simpl. unfold optimize_body.
  unfold bind at 1, processed_has.
  rewrite bool_decide_eq_false_2 by exact P.
  unfold bind at 1, processed_add. unfold bind at 1, get_node. simpl.
  rewrite N. reflexivity.
Qed.

Lemma assign_element_put a e st n e0 :
  nodes st !! a = Some n ->
  shape n = TArray e0 ->
  assign_element a e st = Ok tt (put a (with_shape n (TArray e)) st).
Proof.
  intros N Sh. unfold assign_element, bind, get_node. rewrite N, Sh.
  apply assign_shape_ok, N.
Qed.

Lemma assign_params_put a ps st n :
  nodes st !! a = Some n ->
  assign_params a ps st
  = Ok tt (put a (with_shape n (withParams (shape n) ps)) st).
Proof. apply assign_params_ok. Qed.

Lemma assign_member_put a i r st n ms sup m :
  nodes st !! a = Some n ->
  shape n = TInterface ms sup ->
  ms !! i = Some m ->
  assign_member a i r st
  = Ok tt
      (put a
         (with_shape n
            (TInterface
               (<[i := mkParam r (p_keyName m) (isRequired m)
                         (isPatternProperty m) (isUnreachableDefinition m)]>
                  ms) sup)) st).
Proof.
  intros N Sh Mi. unfold assign_member, bind, get_node. rewrite N, Sh, Mi.
  apply assign_shape_ok, N.
Qed.

Lemma same_fields_with_shape n s :
  type (with_shape n s) = type n -> same_fields n (with_shape n s).
Proof. intros T. repeat split. exact T. Qed.

Lemma inside_finish st0 a st r :
  inside st0 a st ->
  finished st a ->
  r < length (nodes st) ->
  r ∈ processed st \/ ~ is_compound st r ->
  r = a \/ (exists n, nodes st0 !! a = Some n /\ type n = LITERAL) ->
  optimized st0 a r st.
Proof.
  intros I F V R Sa. split.
  - apply (in_plain _ _ _ I).
  - apply (in_grows _ _ _ I).
  - apply (in_unchanged _ _ _ I).
  - exact V.
  - exact R.
  - apply (in_processed _ _ _ I).
  - exact Sa.
  - intros i Hi H0. destruct (decide (i = a)) as [-> | Ha]; [exact F|].
    apply (in_finished _ _ _ I); assumption.
Qed.

Lemma finished_without_links st a n :
  nodes st !! a = Some n -> links (shape n) = [] -> finished st a.
Proof.
  intros N L. exists n. split; [exact N|]. unfold settled. rewrite L.
  split; [destruct (shape n); auto; intros c Hc; inversion Hc|].
  intros c Hc; inversion Hc.
Qed.

Lemma not_compound_string st s n :
  nodes st !! s = Some n -> type n = STRING -> ~ is_compound st s.
Proof.
  intros N T (n' & N' & C). rewrite N in N'. injection N' as <-.
  unfold compound in C. rewrite T in C. discriminate C.
Qed.

(** What [stringWithComment] gives inside a call: an anonymous STRING. *)
Lemma stringWithComment_inside st0 a st c :
  inside st0 a st ->
  total (stringWithComment c) st
    (fun s st' =>
       inside st0 a st'
       /\ extends st st'
       /\ length (nodes st) <= length (nodes st')
       /\ unchanged (processed st ∪ {[a]}) st st'
       /\ processed st' = processed st
       /\ exists ns, nodes st' !! s = Some ns
            /\ type ns = STRING /\ standaloneName ns = None).
Proof.
  intros I. unfold stringWithComment. destruct (truthy c).
  - exists (length (nodes st)), (push (mkAST TString None c false None) st).
    split; [reflexivity|].
    split; [apply inside_push; [exact I | reflexivity..]|].
    split; [apply push_extends|].
    split; [simpl; rewrite length_app; simpl; lia|].
    split; [apply push_unchanged|]. split; [reflexivity|].
    exists (mkAST TString None c false None).
    split; [|split; reflexivity]. simpl.
    rewrite lookup_app_r by reflexivity. rewrite Nat.sub_diag. reflexivity.
  - apply total_ret. split; [exact I|]. split; [reflexivity|].
    split; [reflexivity|]. split; [apply unchanged_refl|].
    split; [reflexivity|]. apply (plain_constants _ (in_plain _ _ _ I)).
Qed.

(** The node at [r] is one that a call has returned: it is in the store,
    and it is in [processed] or is not compound. *)
Definition reached (st : State) (r : addr) : Prop :=
  r < length (nodes st) /\ (r ∈ processed st \/ ~ is_compound st r).

Lemma reached_stable st st' r :
  extends st st' -> reached st r -> reached st' r.
Proof.
  intros X [V R].
  destruct (lookup_lt_is_Some_2 (nodes st) r V) as [n N].
  destruct (proj2 X r n N) as (n' & N' & _). split.
  - eapply lookup_lt_Some. exact N'.
  - destruct R as [P | C]; [left; apply (proj1 X), P|].
    right. intros C'. apply C. eapply extends_is_compound; eassumption.
Qed.

Lemma anonymous_stable st st' r :
  extends st st' -> r < length (nodes st) ->
  ~ named_string st r -> ~ named_string st' r.
Proof.
  intros X V A A'. apply A. eapply extends_named_string; eassumption.
Qed.

Lemma optimized_reached st a r st' : optimized st a r st' -> reached st' r.
Proof.
  intros O. split; [apply (opt_valid _ _ _ _ O) | apply (opt_result _ _ _ _ O)].
Qed.

Lemma inside_extends st0 a st : inside st0 a st -> extends st0 st.
Proof. intros I. apply (proj1 (in_grows _ _ _ I)). Qed.

Lemma anonymous_string st s ns :
  nodes st !! s = Some ns -> standaloneName ns = None ->
  ~ named_string st s.
Proof.
  intros N S (n' & N' & T). rewrite N in N'. injection N' as <-.
  rewrite S in T. discriminate T.
Qed.

Lemma put_lookup a n' st n :
  nodes st !! a = Some n -> nodes (put a n' st) !! a = Some n'.
Proof.
  intros N. simpl. apply list_lookup_insert_eq. eapply lookup_lt_Some, N.
Qed.

Lemma put_lookup_ne a n' st i : i <> a -> nodes (put a n' st) !! i = nodes st !! i.
Proof. intros Hne. simpl. apply list_lookup_insert_ne. congruence. Qed.

Lemma put_length a n' st : length (nodes (put a n' st)) = length (nodes st).
Proof. simpl. apply length_insert. Qed.

Section Termination.
Context `{Host}.
Variable o : Options.
Variable fuel : nat.

(** The induction hypothesis: with the budget [fuel], [optimize] returns
    from every plain graph that has fewer than [fuel] nodes left to do. *)
Hypothesis IH :
  forall st a,
    plain_graph st -> a < length (nodes st) -> size (todo st) < fuel ->
    total (optimize fuel o a) st (optimized st a).

Lemma child_call st0 a st c :
  inside st0 a st ->
  c < length (nodes st) ->
  size (todo st) < fuel ->
  total (optimize fuel o c) st
    (fun r st' =>
       inside st0 a st' /\ reached st' r /\ extends st st'
       /\ size (todo st') < fuel
       /\ unchanged (processed st) st st').
Proof.
  intros I V Sz.
  eapply total_mono; [apply IH; [apply (in_plain _ _ _ I) | exact V | exact Sz]|].
  intros r st' O. split; [eapply inside_child; eassumption|].
  split; [eapply optimized_reached; exact O|].
  split; [apply (proj1 (opt_grows _ _ _ _ O))|].
  split; [|apply (opt_unchanged _ _ _ _ O)].
  eapply Nat.le_lt_trans; [|exact Sz].
  apply subseteq_size, grows_todo, (opt_grows _ _ _ _ O).
Qed.

Lemma flatten_array st0 a st n e :
  inside st0 a st ->
  a ∉ processed st0 ->
  nodes st !! a = Some n ->
  shape n = TArray e ->
  reached st e ->
  total (flattenNamedString e (assign_element a)) st
    (fun _ st' => inside st0 a st' /\ finished st' a).
Proof.
  intros I A N Sh [V R]. unfold flattenNamedString.
  destruct (lookup_lt_is_Some_2 (nodes st) e V) as [ne Ne].
  apply total_bind. eapply total_get_node; [exact Ne|].
  destruct (truthy (standaloneName ne) && bool_decide (type ne = STRING))
    eqn:C.
  - apply total_bind.
    eapply total_mono; [apply (stringWithComment_inside _ _ _ _ I)|].
    intros s st1 (I1 & X1 & L1 & U1 & P1 & ns & Ns & Ts & Ss).
    assert (nodes st1 !! a = Some n) as N1
        by (apply U1; [clear; set_solver | exact N]).
    assert (type (with_shape n (TArray s)) = type n) as T
        by (unfold type; simpl; rewrite Sh; reflexivity).
    assert (s <> a) as Hsa.
    { intros ->. rewrite N1 in Ns. injection Ns as <-. unfold type in Ts.
      rewrite Sh in Ts. discriminate Ts. }
    exists tt, (put a (with_shape n (TArray s)) st1).
    split; [eapply assign_element_put; eassumption|]. split.
    + eapply inside_put; [exact I1 | exact A | exact N1 | |].
      * apply same_fields_with_shape, T.
      * intros c Hc. simpl in Hc. apply list_elem_of_singleton in Hc as ->.
        eapply lookup_lt_Some, Ns.
    + exists (with_shape n (TArray s)).
      split; [eapply put_lookup, N1|].
      assert (nodes (put a (with_shape n (TArray s)) st1) !! s = Some ns)
        as Ns2 by (rewrite put_lookup_ne by exact Hsa; exact Ns).
      split.
      * unfold settled. simpl. intros c Hc.
        apply list_elem_of_singleton in Hc as ->.
        eapply anonymous_string; eassumption.
      * simpl. intros c Hc. apply list_elem_of_singleton in Hc as ->.
        right. eapply not_compound_string; eassumption.
  - apply total_ret. split; [exact I|]. exists n. split; [exact N|].
    rewrite Sh. split.
    + unfold settled. rewrite Sh. simpl. intros c Hc.
      apply list_elem_of_singleton in Hc as ->.
      intros (n' & N' & T'). rewrite Ne in N'. injection N' as <-.
      rewrite C in T'. discriminate T'.
    + simpl. intros c Hc. apply list_elem_of_singleton in Hc as ->. exact R.
Qed.

Lemma array_case st0 a n e :
  plain_graph st0 ->
  a ∉ processed st0 ->
  nodes st0 !! a = Some n ->
  shape n = TArray e ->
  size (todo st0) <= fuel ->
  total
    (optimize_switch (optimize fuel o) (generateType fuel o) a n)
    (mkState (nodes st0) (memo st0) ({[a]} ∪ processed st0))
    (optimized st0 a).
Proof.
  intros G A N Sh Sz. unfold optimize_switch. rewrite Sh.
  pose proof (inside_start st0 a G) as I1.
  set (st1 := mkState (nodes st0) (memo st0) ({[a]} ∪ processed st0)) in *.
  assert (a ∈ todo st0) as At.
  { apply elem_of_todo. split; [|exact A]. exists n. split; [exact N|].
    unfold compound, type. rewrite Sh. reflexivity. }
  assert (size (todo st1) < fuel) as Sz1.
  { eapply Nat.lt_le_trans; [eapply inside_todo; eassumption | exact Sz]. }
  assert (e < length (nodes st1)) as Ve.
  { eapply (plain_closed _ G); [exact N|]. rewrite Sh. simpl.
    apply list_elem_of_singleton. reflexivity. }
  apply total_bind.
  eapply total_mono; [apply (child_call _ _ _ _ I1 Ve Sz1)|].
  intros e' st2 (I2 & R2 & X2 & Sz2 & U2).
  assert (nodes st2 !! a = Some n) as N2.
  { apply U2; [simpl; clear; set_solver | exact N]. }
  assert (type (with_shape n (TArray e')) = type n) as T
      by (unfold type; simpl; rewrite Sh; reflexivity).
  apply total_bind.
  exists tt, (put a (with_shape n (TArray e')) st2).
  split; [eapply assign_element_put; eassumption|].
  assert (inside st0 a (put a (with_shape n (TArray e')) st2)) as I3.
  { eapply inside_put; [exact I2 | exact A | exact N2 | |].
    - apply same_fields_with_shape, T.
    - intros c Hc. simpl in Hc. apply list_elem_of_singleton in Hc as ->.
      apply R2. }
  apply total_bind.
  eapply total_mono.
  { eapply (flatten_array _ _ _ _ e' I3 A).
    - eapply put_lookup, N2.
    - reflexivity.
    - eapply reached_stable; [|exact R2].
      eapply put_extends; [exact N2 | apply same_fields_with_shape, T]. }
  intros [] st4 [I4 F4]. apply total_ret.
  apply inside_finish; [exact I4 | exact F4 | | | left; reflexivity].
  - destruct F4 as (n4 & N4 & _). eapply lookup_lt_Some, N4.
  - left. apply (in_processed _ _ _ I4).
Qed.
Lemma valid_stable st st' c :
  extends st st' -> c < length (nodes st) -> c < length (nodes st').
Proof.
  intros X V. destruct (lookup_lt_is_Some_2 (nodes st) c V) as [n N].
  destruct (proj2 X c n N) as (n' & N' & _). eapply lookup_lt_Some, N'.
Qed.

Lemma children_calls st0 a ps :
  forall st,
    inside st0 a st ->
    Forall (fun c => c < length (nodes st)) ps ->
    size (todo st) < fuel ->
    total (mapM (optimize fuel o) ps) st
      (fun rs st' =>
         inside st0 a st' /\ Forall (reached st') rs /\ extends st st'
         /\ unchanged (processed st) st st' /\ size (todo st') < fuel).
Proof.
  induction ps as [|c ps IHps]; intros st I V Sz; simpl.
  - apply total_ret. split; [exact I|]. split; [constructor|].
    split; [reflexivity|]. split; [apply unchanged_refl | exact Sz].
  - apply Forall_cons in V as [Vc V]. apply total_bind.
    eapply total_mono; [apply (child_call _ _ _ _ I Vc Sz)|].
    intros r st1 (I1 & R1 & X1 & Sz1 & U1). apply total_bind.
    eapply total_mono.
    { apply (IHps st1 I1); [|exact Sz1].
      eapply Forall_impl; [exact V|]. intros x. apply valid_stable, X1. }
    intros rs st2 (I2 & R2 & X2 & U2 & Sz2). apply total_ret.
    split; [exact I2|]. split.
    { constructor; [eapply reached_stable; eassumption | exact R2]. }
    split; [etransitivity; eassumption|]. split; [|exact Sz2].
    eapply unchanged_trans; [exact U1|].
    eapply unchanged_subseteq; [|exact U2]. apply (proj1 X1).
Qed.

Lemma tuple_case st0 a n ps mn mx sp :
  plain_graph st0 ->
  a ∉ processed st0 ->
  nodes st0 !! a = Some n ->
  shape n = TTuple ps mn mx sp ->
  size (todo st0) <= fuel ->
  total
    (optimize_switch (optimize fuel o) (generateType fuel o) a n)
    (mkState (nodes st0) (memo st0) ({[a]} ∪ processed st0))
    (optimized st0 a).
Proof.
  intros G A N Sh Sz. unfold optimize_switch. rewrite Sh.
  pose proof (inside_start st0 a G) as I1.
  set (st1 := mkState (nodes st0) (memo st0) ({[a]} ∪ processed st0)) in *.
  assert (a ∈ todo st0) as At.
  { apply elem_of_todo. split; [|exact A]. exists n. split; [exact N|].
    unfold compound, type. rewrite Sh. reflexivity. }
  assert (size (todo st1) < fuel) as Sz1.
  { eapply Nat.lt_le_trans; [eapply inside_todo; eassumption | exact Sz]. }
  assert (Forall (fun c => c < length (nodes st1)) ps) as Vps.
  { apply Forall_forall. intros c Hc.
    eapply (plain_closed _ G); [exact N|]. rewrite Sh. exact Hc. }
  apply total_bind.
  eapply total_mono; [apply (children_calls _ _ _ _ I1 Vps Sz1)|].
  intros rs st2 (I2 & R2 & X2 & U2 & Sz2).
  assert (nodes st2 !! a = Some n) as N2.
  { apply U2; [simpl; clear; set_solver | exact N]. }
  set (n' := with_shape n (withParams (shape n) rs)).
  assert (shape n' = TTuple rs mn mx sp) as Sh'
      by (unfold n'; simpl; rewrite Sh; reflexivity).
  assert (same_fields n n') as F.
  { apply same_fields_with_shape. unfold type. fold n'. rewrite Sh', Sh.
    reflexivity. }
  apply total_bind. exists tt, (put a n' st2).
  split; [apply assign_params_put, N2|]. apply total_ret.
  assert (inside st0 a (put a n' st2)) as I3.
  { eapply inside_put; [exact I2 | exact A | exact N2 | exact F |].
    intros c Hc. rewrite Sh' in Hc. simpl in Hc.
    rewrite Forall_forall in R2. apply (R2 c Hc). }
  apply inside_finish; [exact I3 | | | | left; reflexivity].
  - exists n'. split; [eapply put_lookup, N2|]. split.
    + unfold settled. rewrite Sh'. exact I.
    + intros c Hc. rewrite Sh' in Hc. simpl in Hc.
      rewrite Forall_forall in R2.
      apply (reached_stable st2); [|apply (R2 c Hc)].
      eapply put_extends; eassumption.
  - rewrite put_length. eapply lookup_lt_Some, N2.
  - left. apply (in_processed _ _ _ I3).
Qed.
(** The member [m] with [r] as its node. *)
Definition with_ast (m : TInterfaceParam) (r : addr) : TInterfaceParam :=
  mkParam r (p_keyName m) (isRequired m) (isPatternProperty m)
    (isUnreachableDefinition m).

Lemma assign_member_middle a r st n pre m rest sup :
  nodes st !! a = Some n ->
  shape n = TInterface (pre ++ m :: rest) sup ->
  assign_member a (length pre) r st
  = Ok tt
      (put a
         (with_shape n (TInterface ((pre ++ [with_ast m r]) ++ rest) sup))
         st).
Proof.
  intros N Sh.
  rewrite (assign_member_put _ _ _ _ _ _ _ m N Sh)
    by (apply list_lookup_middle; reflexivity).
  rewrite insert_app_r_alt by reflexivity. rewrite Nat.sub_diag. simpl.
  rewrite <- app_assoc. reflexivity.
Qed.

Lemma inside_put_members st0 a st n ms sup ms' :
  inside st0 a st ->
  a ∉ processed st0 ->
  nodes st !! a = Some n ->
  shape n = TInterface ms sup ->
  Forall (fun m => p_ast m < length (nodes st)) ms' ->
  inside st0 a (put a (with_shape n (TInterface ms' sup)) st)
  /\ extends st (put a (with_shape n (TInterface ms' sup)) st).
Proof.
  intros I A N Sh V.
  assert (same_fields n (with_shape n (TInterface ms' sup))) as F.
  { apply same_fields_with_shape. unfold type. simpl. rewrite Sh.
    reflexivity. }
  split; [|eapply put_extends; eassumption].
  eapply inside_put; [exact I | exact A | exact N | exact F |].
  intros c Hc. simpl in Hc. apply list_elem_of_fmap in Hc as (m & -> & Hm).
  rewrite Forall_forall in V. apply V, Hm.
Qed.

Lemma members_calls st0 a sup rest :
  forall pre st n,
    inside st0 a st ->
    a ∉ processed st0 ->
    nodes st !! a = Some n ->
    shape n = TInterface (pre ++ rest) sup ->
    Forall (fun m => reached st (p_ast m)) pre ->
    Forall (fun m => p_ast m < length (nodes st)) rest ->
    size (todo st) < fuel ->
    total
      (forEach
         (fun i m =>
            let* r := optimize fuel o (p_ast m) in assign_member a i r)
         (length pre) rest) st
      (fun _ st' =>
         inside st0 a st'
         /\ exists n' ms',
              nodes st' !! a = Some n'
              /\ shape n' = TInterface ms' sup
              /\ Forall (fun m => reached st' (p_ast m)) ms').
Proof.
  induction rest as [|m rest IHrest]; intros pre st n I A N Sh Rp Vr Sz; simpl.
  - apply total_ret. split; [exact I|]. exists n, pre.
    rewrite app_nil_r in Sh. split; [exact N|]. split; [exact Sh | exact Rp].
  - apply Forall_cons in Vr as [Vm Vr]. apply total_bind. apply total_bind.
    eapply total_mono; [apply (child_call _ _ _ _ I Vm Sz)|].
    intros r st1 (I1 & R1 & X1 & Sz1 & U1).
    assert (nodes st1 !! a = Some n) as N1
        by (apply U1; [apply (in_processed _ _ _ I) | exact N]).
    set (n1 := with_shape n
                 (TInterface ((pre ++ [with_ast m r]) ++ rest) sup)).
    exists tt, (put a n1 st1).
    split; [eapply assign_member_middle; eassumption|].
    assert (Forall (fun m => reached st1 (p_ast m)) (pre ++ [with_ast m r]))
      as Rp1.
    { apply Forall_app. split.
      - eapply Forall_impl; [exact Rp|]. intros x. apply reached_stable, X1.
      - constructor; [exact R1 | constructor]. }
    assert (Forall (fun m => p_ast m < length (nodes st1)) rest) as Vr1.
    { eapply Forall_impl; [exact Vr|]. intros x. apply valid_stable, X1. }
    destruct (inside_put_members st0 a st1 n _ sup
                ((pre ++ [with_ast m r]) ++ rest) I1 A N1 Sh) as [I2 X2].
    { apply Forall_app. split; [|exact Vr1].
      eapply Forall_impl; [exact Rp1|]. intros x [Vx _]. exact Vx. }
    fold n1 in I2, X2.
    replace (S (length pre)) with (length (pre ++ [with_ast m r]))
      by (rewrite length_app; simpl; lia).
    apply (IHrest _ _ n1 I2 A).
    + eapply put_lookup, N1.
    + reflexivity.
    + eapply Forall_impl; [exact Rp1|]. intros x. apply reached_stable, X2.
    + eapply Forall_impl; [exact Vr1|]. intros x. apply valid_stable, X2.
    + eapply Nat.le_lt_trans; [|exact Sz1].
      apply subseteq_size, grows_todo, (put_grows a n n1 st1 N1).
      apply same_fields_with_shape. unfold type. simpl. rewrite Sh.
      reflexivity.
Qed.

(** A member whose node has been reached and is not a named STRING. *)
Definition member_ok (st : State) (m : TInterfaceParam) : Prop :=
  reached st (p_ast m) /\ ~ named_string st (p_ast m).

Lemma member_ok_stable st st' m :
  extends st st' -> member_ok st m -> member_ok st' m.
Proof.
  intros X [R A]. split; [eapply reached_stable; eassumption|].
  eapply anonymous_stable; [exact X | apply R | exact A].
Qed.

Lemma members_flatten st0 a sup rest :
  forall pre st n,
    inside st0 a st ->
    a ∉ processed st0 ->
    nodes st !! a = Some n ->
    shape n = TInterface (pre ++ rest) sup ->
    Forall (member_ok st) pre ->
    Forall (fun m => reached st (p_ast m)) rest ->
    total
      (forEach
         (fun i m => flattenNamedString (p_ast m) (assign_member a i))
         (length pre) rest) st
      (fun _ st' => inside st0 a st' /\ finished st' a).
Proof.
  induction rest as [|m rest IHrest]; intros pre st n I A N Sh Op Rr; simpl.
  - apply total_ret. split; [exact I|]. exists n. split; [exact N|].
    rewrite app_nil_r in Sh. rewrite Forall_forall in Op. split.
    + unfold settled. rewrite Sh. simpl. intros c Hc.
      apply list_elem_of_fmap in Hc as (x & -> & Hx). apply (Op x Hx).
    + rewrite Sh. simpl. intros c Hc.
      apply list_elem_of_fmap in Hc as (x & -> & Hx). apply (Op x Hx).
  - apply Forall_cons in Rr as [Rm Rr]. apply total_bind.
    unfold flattenNamedString at 1.
    destruct (lookup_lt_is_Some_2 (nodes st) (p_ast m) (proj1 Rm))
      as [ne Ne].
    apply total_bind. eapply total_get_node; [exact Ne|].
    destruct (truthy (standaloneName ne) && bool_decide (type ne = STRING))
      eqn:C.
    + apply total_bind.
      eapply total_mono; [apply (stringWithComment_inside _ _ _ _ I)|].
      intros s st1 (I1 & X1 & L1 & U1 & P1 & ns & Ns & Ts & Ss).
      assert (nodes st1 !! a = Some n) as N1
          by (apply U1; [clear; set_solver | exact N]).
      assert (s <> a) as Hsa.
      { intros ->. rewrite N1 in Ns. injection Ns as <-. unfold type in Ts.
        rewrite Sh in Ts. discriminate Ts. }
      set (n1 := with_shape n
                   (TInterface ((pre ++ [with_ast m s]) ++ rest) sup)).
      exists tt, (put a n1 st1).
      split; [eapply assign_member_middle; eassumption|].
      assert (Forall (fun m => reached st1 (p_ast m)) rest) as Rr1.
      { eapply Forall_impl; [exact Rr|]. intros x. apply reached_stable, X1. }
      assert (Forall (member_ok st1) pre) as Op1.
      { eapply Forall_impl; [exact Op|]. intros x. apply member_ok_stable, X1. }
      destruct (inside_put_members st0 a st1 n _ sup
                  ((pre ++ [with_ast m s]) ++ rest) I1 A N1 Sh) as [I2 X2].
      { apply Forall_app. split; [apply Forall_app; split|].
        - eapply Forall_impl; [exact Op1|]. intros x [[Vx _] _]. exact Vx.
        - constructor; [|constructor]. simpl. eapply lookup_lt_Some, Ns.
        - eapply Forall_impl; [exact Rr1|]. intros x [Vx _]. exact Vx. }
      fold n1 in I2, X2.
      replace (S (length pre)) with (length (pre ++ [with_ast m s]))
        by (rewrite length_app; simpl; lia).
      apply (IHrest _ _ n1 I2 A).
      * eapply put_lookup, N1.
      * reflexivity.
      * apply Forall_app. split.
        -- eapply Forall_impl; [exact Op1|]. intros x.
           apply member_ok_stable, X2.
        -- constructor; [|constructor].
           assert (nodes (put a n1 st1) !! s = Some ns) as Ns2
               by (rewrite put_lookup_ne by exact Hsa; exact Ns).
           split; [split|]; simpl.
           ++ eapply lookup_lt_Some, Ns2.
           ++ right. eapply not_compound_string; eassumption.
           ++ eapply anonymous_string; eassumption.
      * eapply Forall_impl; [exact Rr1|]. intros x. apply reached_stable, X2.
    + apply total_ret.
      replace (S (length pre)) with (length (pre ++ [m]))
        by (rewrite length_app; simpl; lia).
      apply (IHrest _ _ n I A N).
      * rewrite <- app_assoc. exact Sh.
      * apply Forall_app. split; [exact Op|]. constructor; [|constructor].
        split; [exact Rm|]. intros (n' & N' & T'). rewrite Ne in N'.
        injection N' as <-. rewrite C in T'. discriminate T'.
      * exact Rr.
Qed.
Lemma interface_case st0 a n ms sup :
  plain_graph st0 ->
  a ∉ processed st0 ->
  nodes st0 !! a = Some n ->
  shape n = TInterface ms sup ->
  size (todo st0) <= fuel ->
  total
    (optimize_switch (optimize fuel o) (generateType fuel o) a n)
    (mkState (nodes st0) (memo st0) ({[a]} ∪ processed st0))
    (optimized st0 a).
Proof.
  intros G A N Sh Sz. unfold optimize_switch. rewrite Sh.
  pose proof (inside_start st0 a G) as I1.
  set (st1 := mkState (nodes st0) (memo st0) ({[a]} ∪ processed st0)) in *.
  assert (a ∈ todo st0) as At.
  { apply elem_of_todo. split; [|exact A]. exists n. split; [exact N|].
    unfold compound, type. rewrite Sh. reflexivity. }
  assert (size (todo st1) < fuel) as Sz1.
  { eapply Nat.lt_le_trans; [eapply inside_todo; eassumption | exact Sz]. }
  assert (Forall (fun m => p_ast m < length (nodes st1)) ms) as Vms.
  { apply Forall_forall. intros m Hm.
    eapply (plain_closed _ G); [exact N|]. rewrite Sh. simpl.
    apply list_elem_of_fmap. exists m. split; [reflexivity | exact Hm]. }
  apply total_bind.
  eapply total_mono.
  { apply (members_calls st0 a sup ms [] st1 n I1 A N Sh);
      [constructor | exact Vms | exact Sz1]. }
  intros [] st2 (I2 & n2 & ms2 & N2 & Sh2 & R2).
  apply total_bind. eapply total_get_node; [exact N2|].
  apply total_bind.
  eapply total_mono.
  { unfold membersOf. rewrite Sh2.
    apply (members_flatten st0 a sup ms2 [] st2 n2 I2 A N2 Sh2);
      [constructor | exact R2]. }
  intros [] st3 [I3 F3].
  destruct fuel as [|fuel'] eqn:Ef; [lia|].
  exists a, st3. split.
  - apply optimize_processed, (in_processed _ _ _ I3).
  - apply inside_finish; [exact I3 | exact F3 | | | left; reflexivity].
    + destruct F3 as (n3 & N3 & _). eapply lookup_lt_Some, N3.
    + left. apply (in_processed _ _ _ I3).
Qed.

Lemma literal_case st0 a n v :
  plain_graph st0 ->
  a ∉ processed st0 ->
  nodes st0 !! a = Some n ->
  shape n = TLiteral v ->
  total
    (optimize_switch (optimize fuel o) (generateType fuel o) a n)
    (mkState (nodes st0) (memo st0) ({[a]} ∪ processed st0))
    (optimized st0 a).
Proof.
  intros G A N Sh. unfold optimize_switch. rewrite Sh.
  pose proof (inside_start st0 a G) as I1.
  eapply total_mono; [apply (stringWithComment_inside _ _ _ _ I1)|].
  intros s st2 (I2 & X2 & L2 & U2 & P2 & ns & Ns & Ts & Ss).
  apply inside_finish; [exact I2 | | | |].
  - eapply (finished_without_links _ _ n).
    + apply U2; [simpl; clear; set_solver | exact N].
    + rewrite Sh. reflexivity.
  - eapply lookup_lt_Some, Ns.
  - right. eapply not_compound_string; eassumption.
  - right. exists n. split; [exact N|]. unfold type. rewrite Sh. reflexivity.
Qed.

Lemma leaf_case st0 a n :
  plain_graph st0 ->
  a ∉ processed st0 ->
  nodes st0 !! a = Some n ->
  links (shape n) = [] ->
  optimized st0 a a
    (mkState (nodes st0) (memo st0) ({[a]} ∪ processed st0)).
Proof.
  intros G A N L. pose proof (inside_start st0 a G) as I1.
  apply inside_finish; [exact I1 | | | | left; reflexivity].
  - eapply finished_without_links; [exact N | exact L].
  - simpl. eapply lookup_lt_Some, N.
  - left. apply (in_processed _ _ _ I1).
Qed.
End Termination.

Ltac fold_total :=
  match goal with
  | |- exists a st', ?m ?st = Ok a st' /\ @?Q a st' =>
      change (total m st Q)
  end.

Lemma optimized_refl st a :
  plain_graph st -> a < length (nodes st) -> a ∈ processed st ->
  optimized st a a st.
Proof.
  intros G V P. split; [exact G | reflexivity | apply unchanged_refl | exact V
                       | left; exact P | exact P | left; reflexivity |].
  intros i Hi Hn. contradiction.
Qed.

(** With a recursion budget above the number of compound nodes that are not
    in [processed], [optimize] returns from a plain graph. *)
Lemma optimize_total `{Host} (o : Options) (fuel : nat) :
  forall st a,
    plain_graph st -> a < length (nodes st) -> size (todo st) < fuel ->
    total (optimize fuel o a) st (optimized st a).
Proof.
  induction fuel as [|fuel IH]; intros st a G V Sz; [lia|].
  destruct (decide (a ∈ processed st)) as [P | P].
  { exists a, st. split; [apply optimize_processed, P|].
    apply optimized_refl; assumption. }
  destruct (lookup_lt_is_Some_2 (nodes st) a V) as [n N].
  unfold total. rewrite (optimize_new _ _ _ _ _ P N). fold_total.
  assert (size (todo st) <= fuel) as Sz' by lia.
  pose proof (plain_no_set_operation _ G a n N) as NS.
  unfold set_operation, type in NS.
  destruct (shape n) eqn:Sh; try discriminate NS;
    try (unfold optimize_switch; rewrite Sh; apply total_ret;
         eapply leaf_case; [exact G | exact P | exact N
                           | rewrite Sh; reflexivity]).
  - eapply literal_case; eassumption.
  - eapply array_case; eassumption.
  - eapply tuple_case; eassumption.
  - eapply interface_case; eassumption.
Qed.

Lemma generateType_named `{Host} fuel o a st n name :
  nodes st !! a = Some n ->
  standaloneName n = Some name ->
  exists text st', generateType (S fuel) o a st = Ok text st'.
Proof.
  intros N S. simpl. destruct (memo st !! a) as [text|] eqn:E.
  - exists text, st. apply memoize_hit, E.
  - rewrite (memoize_miss _ _ _ _ E N).
    unfold generateTypeUnmemoized, generateRawType. rewrite S.
    unfold bind, ret, memo_set.
    destruct (strictIndexSignatures o && _); eexists _, _; reflexivity.
Qed.

(** Decides the three conditions of [plain_graph] on a store that is
    given in full. *)
Ltac plain_graph_by_cases :=
  split;
  [ eexists; split; [reflexivity | split; reflexivity]
  | intros i n c Ni Hc;
    repeat (destruct i as [|i]; [injection Ni as <-; simpl in Hc |]);
    [ .. | discriminate Ni ];
    repeat (apply elem_of_cons in Hc as [-> | Hc]; [simpl; lia|]);
    inversion Hc
  | intros i n Ni;
    repeat (destruct i as [|i]; [injection Ni as <-; reflexivity |]);
    discriminate Ni ].

Lemma self_array_plain : plain_graph self_array.
Proof. plain_graph_by_cases. Qed.



(** The state with a new, empty set [processed]. *)
Definition reset (st : State) : State := mkState (nodes st) (memo st) ∅.

Lemma runOptimize_reset `{Host} fuel o a st :
  runOptimize fuel o a st = optimize fuel o a (reset st).
Proof. reflexivity. Qed.

(** [Union[A]] at address 3, where [A], at address 4, is the array that is
    its own element. *)
Definition union_of_self_array : State :=
  store [bare (TUnion [4]); bare (TArray 4)].

(** [optimize] renders the parameters of a union to compare their texts:
    on a union of that array it does not return either, whatever the
    recursion budget. *)
Lemma optimize_never_returns_on_union_of_cycle `{Host} fuel o :
  runOptimize fuel o 3 union_of_self_array = OutOfFuel.
Proof.
  destruct fuel as [|[|[|fuel]]]; [reflexivity..|].
  rewrite runOptimize_reset.
  rewrite (optimize_set_after_null_drop (S (S fuel)) o 3
             (reset union_of_self_array) (bare (TUnion [4])) [4] [4]
             (mkState (nodes union_of_self_array) ∅ {[4; 3]})
             [bare (TArray 4)]
             (mkState (nodes union_of_self_array) ∅ {[4; 3]}));
    [ | vm_compute; intros E; discriminate E | reflexivity
      | left; reflexivity | vm_compute; reflexivity
      | vm_compute; reflexivity ].
  unfold afterNullDrop.
  rewrite (bind_ok _ _ _ tt
             (mkState (nodes union_of_self_array) ∅ {[4; 3]}))
    by (vm_compute; reflexivity).
  change (existsb (hasType ANY) _) with false.
  change (existsb (hasType UNKNOWN) _) with false.
  change (forallb isStringLike _) with false. cbv iota.
  change (List.filter _ (zip [4] [bare (TArray 4)]))
    with [(4, bare (TArray 4))].
  apply bind_diverges. unfold keepNamed. apply bind_diverges.
  cbn [everyM]. apply bind_diverges. unfold sameTextAsFirst.
  rewrite (bind_ok _ _ _ 5
             (mkState (nodes union_of_self_array ++ [bare (TArray 4)]) ∅
                {[4; 3]})) by (vm_compute; reflexivity).
  apply bind_diverges.
  apply (generateType_cycle _ _ _ 4 5); vm_compute; reflexivity.
Qed.

(** ** C1: a second run *)

Definition no_literal (st : State) : Prop :=
  forall i n, nodes st !! i = Some n -> type n <> LITERAL.

Lemma with_shape_same n : with_shape n (shape n) = n.
Proof. destruct n. reflexivity. Qed.

Lemma with_ast_same m : with_ast m (p_ast m) = m.
Proof. destruct m. reflexivity. Qed.

Lemma put_same a n st : nodes st !! a = Some n -> put a n st = st.
Proof.
  intros N. destruct st as [nds mm pp]. unfold put. simpl in *.
  rewrite list_insert_id by exact N. reflexivity.
Qed.

Lemma flatten_nothing st e store :
  e < length (nodes st) ->
  ~ named_string st e ->
  flattenNamedString e store st = Ok tt st.
Proof.
  intros V A. destruct (lookup_lt_is_Some_2 (nodes st) e V) as [ne Ne].
  unfold flattenNamedString. unfold bind at 1, get_node. rewrite Ne.
  destruct (truthy (standaloneName ne) && bool_decide (type ne = STRING))
    eqn:C; [|reflexivity].
  exfalso. apply A. exists ne. split; [exact Ne | exact C].
Qed.

Lemma named_string_nodes st st' e :
  nodes st = nodes st' -> named_string st e -> named_string st' e.
Proof. intros E (n & N & T). exists n. rewrite <- E. split; assumption. Qed.

Section SecondRun.
Context `{Host}.
Variable o : Options.

(** The state [st1] that a first run has left: every node of its set
    [processed] is finished. *)
Variable st1 : State.
Hypothesis plain1 : plain_graph st1.
Hypothesis no_literal1 : no_literal st1.
Hypothesis finished1 : forall i, i ∈ processed st1 -> finished st1 i.

(** The nodes of a finished compound node, with its links. *)
Lemma reached_compound a n :
  reached st1 a ->
  nodes st1 !! a = Some n ->
  compound n = true ->
  settled st1 n /\ Forall (reached st1) (links (shape n)).
Proof.
  intros [V R] N C. destruct R as [P | NC].
  - destruct (finished1 a P) as (n' & N' & S & L). rewrite N in N'.
    injection N' as <-. split; [exact S|]. apply Forall_forall.
    intros c Hc. split; [|apply L, Hc].
    eapply (plain_closed _ plain1); eassumption.
  - exfalso. apply NC. exists n. split; assumption.
Qed.

Section Step.
Variable fuel : nat.
Hypothesis IH :
  forall st a r st',
    nodes st = nodes st1 -> reached st1 a ->
    optimize fuel o a st = Ok r st' ->
    r = a /\ nodes st' = nodes st1.

Lemma children_again ps :
  forall st rs st',
    nodes st = nodes st1 ->
    Forall (reached st1) ps ->
    mapM (optimize fuel o) ps st = Ok rs st' ->
    rs = ps /\ nodes st' = nodes st1.
Proof.
  induction ps as [|c ps IHps]; intros st rs st' E R M; simpl in M.
  - injection M as <- <-. split; [reflexivity | exact E].
  - apply Forall_cons in R as [Rc R].
    apply bind_inv in M as (r & st2 & E1 & M).
    destruct (IH _ _ _ _ E Rc E1) as [-> E2].
    apply bind_inv in M as (rs' & st3 & E3 & M).
    destruct (IHps _ _ _ E2 R E3) as [-> E4].
    injection M as <- <-. split; [reflexivity | exact E4].
Qed.

Lemma members_again a n sup rest :
  forall pre st u st',
    nodes st = nodes st1 ->
    nodes st1 !! a = Some n ->
    shape n = TInterface (pre ++ rest) sup ->
    Forall (fun m => reached st1 (p_ast m)) rest ->
    forEach
      (fun i m => let* r := optimize fuel o (p_ast m) in assign_member a i r)
      (length pre) rest st = Ok u st' ->
    nodes st' = nodes st1.
Proof.
  induction rest as [|m rest IHrest]; intros pre st u st' E N Sh R F;
    simpl in F.
  - injection F as _ <-. exact E.
  - apply Forall_cons in R as [Rm R].
    apply bind_inv in F as (u1 & st2 & F1 & F).
    apply bind_inv in F1 as (r & st3 & E1 & A1).
    destruct (IH _ _ _ _ E Rm E1) as [-> E3].
    assert (nodes st3 !! a = Some n) as N3 by (rewrite E3; exact N).
    rewrite (assign_member_middle _ _ _ _ _ _ _ _ N3 Sh) in A1.
    rewrite with_ast_same, <- app_assoc in A1. simpl in A1.
    rewrite <- Sh, with_shape_same, (put_same _ _ _ N3) in A1.
    injection A1 as _ <-.
    replace (S (length pre)) with (length (pre ++ [m])) in F
      by (rewrite length_app; simpl; lia).
    eapply (IHrest (pre ++ [m])); [exact E3 | exact N | | exact R | exact F].
    rewrite <- app_assoc. exact Sh.
Qed.

Lemma members_settled a (ms : list TInterfaceParam) :
  forall i st u st',
    nodes st = nodes st1 ->
    Forall (fun m => p_ast m < length (nodes st1)
                     /\ ~ named_string st1 (p_ast m)) ms ->
    forEach (fun i m => flattenNamedString (p_ast m) (assign_member a i))
      i ms st = Ok u st' ->
    st' = st.
Proof.
  induction ms as [|m ms IHms]; intros i st u st' E A F; simpl in F.
  - injection F as _ <-. reflexivity.
  - apply Forall_cons in A as [[Vm Am] A].
    apply bind_inv in F as (u1 & st2 & F1 & F).
    rewrite flatten_nothing in F1.
    + injection F1 as _ <-. eapply IHms; eassumption.
    + rewrite E. exact Vm.
    + intros Hn. apply Am. eapply named_string_nodes; eassumption.
Qed.
End Step.

Lemma second_run fuel :
  forall st a r st',
    nodes st = nodes st1 -> reached st1 a ->
    optimize fuel o a st = Ok r st' ->
    r = a /\ nodes st' = nodes st1.
Proof.
  induction fuel as [|fuel IH]; intros st a r st' E R O; [discriminate O|].
  destruct (decide (a ∈ processed st)) as [P | P].
  { rewrite (optimize_processed _ _ _ _ P) in O. injection O as <- <-.
    split; [reflexivity | exact E]. }
  destruct (lookup_lt_is_Some_2 (nodes st1) a (proj1 R)) as [n N].
  assert (nodes st !! a = Some n) as Na by (rewrite E; exact N).
  rewrite (optimize_new _ _ _ _ _ P Na) in O.
  set (sta := mkState (nodes st) (memo st) ({[a]} ∪ processed st)) in *.
  assert (nodes sta = nodes st1) as Ea by exact E.
  pose proof (plain_no_set_operation _ plain1 a n N) as NS.
  pose proof (no_literal1 a n N) as NL.
  pose proof (reached_compound a n R N) as RC.
  unfold set_operation, compound, type in NS, NL, RC.
  unfold optimize_switch in O.
  destruct (shape n) eqn:Sh; try discriminate NS; try contradiction;
    try (injection O as <- <-; split; [reflexivity | exact E]).
  - (* an array *)
    destruct (RC eq_refl) as [S L]. simpl in L.
    apply Forall_cons in L as [Re _].
    apply bind_inv in O as (e' & st2 & E1 & O).
    destruct (IH _ _ _ _ Ea Re E1) as [-> E2].
    assert (nodes st2 !! a = Some n) as N2 by (rewrite E2; exact N).
    apply bind_inv in O as (u & st3 & A3 & O).
    rewrite (assign_element_put _ _ _ _ _ N2 Sh) in A3.
    rewrite <- Sh, with_shape_same, (put_same _ _ _ N2) in A3.
    injection A3 as _ <-.
    apply bind_inv in O as (u' & st4 & F4 & O).
    rewrite flatten_nothing in F4.
    + injection F4 as _ <-. injection O as <- <-.
      split; [reflexivity | exact E2].
    + rewrite E2. apply Re.
    + intros Hn. unfold settled in S. rewrite Sh in S.
      apply (S params); [simpl; left|].
      eapply named_string_nodes; eassumption.
  - (* a tuple *)
    destruct (RC eq_refl) as [_ L]. simpl in L.
    apply bind_inv in O as (rs & st2 & E1 & O).
    destruct (children_again fuel IH _ _ _ _ Ea L E1) as [-> E2].
    assert (nodes st2 !! a = Some n) as N2 by (rewrite E2; exact N).
    apply bind_inv in O as (u & st3 & A3 & O).
    rewrite (assign_params_put _ _ _ _ N2) in A3.
    assert (withParams (shape n) params = shape n) as W
        by (rewrite Sh; reflexivity).
    rewrite W, with_shape_same, (put_same _ _ _ N2) in A3.
    injection A3 as _ <-. injection O as <- <-.
    split; [reflexivity | exact E2].
  - (* an interface *)
    destruct (RC eq_refl) as [S L]. simpl in L.
    apply bind_inv in O as (u & st2 & F1 & O).
    assert (Forall (fun m => reached st1 (p_ast m)) params) as Lm.
    { apply Forall_forall. intros m Hm. rewrite Forall_forall in L.
      apply L, list_elem_of_fmap. exists m.
      split; [reflexivity | exact Hm]. }
    assert (nodes st2 = nodes st1) as E2.
    { eapply (members_again fuel IH a n superTypes params []);
        [exact Ea | exact N | exact Sh | exact Lm | exact F1]. }
    assert (extends sta st2) as X2.
    { pose proof (optimize_extends fuel o). by_frame F1. }
    apply bind_inv in O as (n' & st3 & G & O).
    apply get_node_inv in G as [-> N'].
    rewrite E2, N in N'. injection N' as <-.
    apply bind_inv in O as (u' & st4 & F2 & O).
    assert (st4 = st2) as ->.
    { eapply (members_settled a (membersOf n)); [exact E2 | | exact F2].
      unfold membersOf. rewrite Sh. apply Forall_forall. intros m Hm. split.
      - rewrite Forall_forall in Lm. apply (Lm m Hm).
      - unfold settled in S. rewrite Sh in S. apply S. simpl.
        apply list_elem_of_fmap. exists m. split; [reflexivity | exact Hm]. }
    destruct fuel as [|fuel']; [discriminate O|].
    rewrite optimize_processed in O.
    + injection O as <- <-. split; [reflexivity | exact E2].
    + apply (proj1 X2). simpl. clear. set_solver.
Qed.
End SecondRun.

Lemma plain_graph_reset st : plain_graph st -> plain_graph (reset st).
Proof. intros [C K P]. split; assumption. Qed.

Lemma grows_reset st0 st1 :
  processed st0 = ∅ -> grows st0 st1 -> grows st0 (reset st1).
Proof.
  intros P0 ((P & X) & L & C). split; [split|split]; simpl.
  - rewrite P0. reflexivity.
  - exact X.
  - exact L.
  - exact C.
Qed.

Lemma grows_no_literal st st' :
  grows st st' -> no_literal st -> no_literal st'.
Proof.
  intros (X & L & C) NL i n' N'.
  destruct (decide (length (nodes st) <= i)) as [Li | Li].
  - rewrite (C i n' Li N'). discriminate.
  - destruct (lookup_lt_is_Some_2 (nodes st) i) as [n N]; [lia|].
    destruct (proj2 X i n N) as (n2 & N2 & F). rewrite N' in N2.
    injection N2 as <-. rewrite (proj1 F). eapply NL, N.
Qed.

(** [Union[String named S, Reference S]] at address 3: a tree, no node of
    which is shared. *)
Definition union_named_string_and_reference : State :=
  store [bare (TUnion [4; 5]); mkAST TString (Some "S") None false None;
         bare (TReference "S")].

(** [Tuple[L, L]] at address 3, both parameters being the one Literal node
    at address 4. *)
Definition tuple_shared_literal : State :=
  store [bare (TTuple [4; 4] 0 None None); bare (TLiteral (JString "a"))].

(** [Array(String named Name)] at address 3. *)
Definition array_of_named_string : State :=
  store [bare (TArray 4); mkAST TString (Some "Name") None false None].


Lemma array_of_named_string_plain : plain_graph array_of_named_string.
Proof. plain_graph_by_cases. Qed.

Lemma array_of_named_string_no_literal : no_literal array_of_named_string.
Proof.
  intros i n Ni.
  repeat (destruct i as [|i]; [injection Ni as <-; discriminate |]).
  discriminate Ni.
Qed.



(** The same with a Literal node that two parameters share: the first run
    rewrites the first occurrence and returns the Literal unchanged at the
    second, where it is in [processed]; the second run rewrites that one
    too. *)
Lemma second_run_differs_on_shared_literal :
  exists st1 st2,
    runOptimize (H := example_host) 3 (example_options true) 3
      tuple_shared_literal = Ok 3 st1
    /\ runOptimize (H := example_host) 3 (example_options true) 3 st1
       = Ok 3 st2
    /\ nodes st1 !! 3 = Some (bare (TTuple [T_STRING; 4] 0 None None))
    /\ nodes st2 !! 3 = Some (bare (TTuple [T_STRING; T_STRING] 0 None None))
    /\ nodes st2 !! 4 = Some (bare (TLiteral (JString "a"))).
Proof.
  eexists _, _. split; [vm_compute; reflexivity|].
  split; [vm_compute; reflexivity|]. repeat split; reflexivity.
Qed.

(** * Further properties *)

(** ** The renderer and its cache *)

Section RendererPreserves.
Context `{Host}.
Context (R : relation State) `{!PreOrder R}.
Variable options : Options.
Variable gt : addr -> M string.
Hypothesis gt_R : forall a, preserves R (gt a).

Lemma generateInterface_preserves ps : preserves R (generateInterface gt ps).
Proof.
  assert (forall n ps key ty req,
             preserves R (handleUnionRecursively n ps key ty req))
    by (intros; unfold handleUnionRecursively; frame).
  assert (forall keys m ty, preserves R (generateMember keys m ty))
    by (intros; unfold generateMember; frame).
  unfold generateInterface. frame.
Qed.

Lemma addSpreadParam_preserves sp l : preserves R (addSpreadParam gt sp l).
Proof. unfold addSpreadParam. frame. Qed.

Lemma unionOfTuples_preserves sp l n i c t :
  preserves R (unionOfTuples gt sp l n i c t).
Proof.
  pose proof addSpreadParam_preserves.
  revert i c t. induction n as [|n IH]; intros i c t; simpl; frame.
Qed.

Lemma generateTypeUnmemoized_preserves n :
  preserves R (generateTypeUnmemoized options gt n).
Proof.
  pose proof generateInterface_preserves.
  pose proof addSpreadParam_preserves. pose proof unionOfTuples_preserves.
  assert (forall ps mn mx sp,
             preserves R (generateTuple options gt ps mn mx sp))
    by (intros; unfold generateTuple; frame).
  assert (forall b ps, preserves R (generateSetOperation gt b ps))
    by (intros; unfold generateSetOperation; frame).
  unfold generateTypeUnmemoized, generateRawType. frame.
Qed.
End RendererPreserves.

(** From [st] to [st']: the tree and the set [processed] are what they
    were, and every text of the cache is still there. *)
Definition cache_grows : relation State :=
  fun st st' =>
    nodes st' = nodes st /\ processed st' = processed st
    /\ memo st ⊆ memo st'.

#[local] Instance cache_grows_preorder : PreOrder cache_grows.
Proof.
  split.
  - intros st. repeat split; reflexivity.
  - intros x y z (? & ? & ?) (? & ? & ?).
    repeat split; [congruence..|]. etrans; eassumption.
Qed.

Lemma memoize_cache_grows func a :
  (forall n, preserves cache_grows (func n)) ->
  preserves cache_grows (memoize func a).
Proof.
  intros Hf st text st' E. unfold memoize in E.
  unfold bind at 1, memo_get in E.
  destruct (memo st !! a) as [t|] eqn:Ea.
  - injection E as _ <-. reflexivity.
  - apply bind_inv in E as (n & st1 & E1 & E).
    apply get_node_inv in E1 as [-> _].
    apply bind_inv in E as (t & st2 & E2 & E).
    apply Hf in E2 as (N & P & Mm).
    injection E as _ <-. repeat split; simpl; [exact N | exact P |].
    apply map_subseteq_spec. intros i x Ei.
    rewrite lookup_insert_ne by congruence.
    eapply lookup_weaken; eassumption.
Qed.

Lemma generateType_cache_grows `{Host} fuel o a :
  preserves cache_grows (generateType fuel o a).
Proof.
  revert a. induction fuel as [|fuel IH]; intros a; simpl.
  - apply preserves_diverge; typeclasses eauto.
  - apply memoize_cache_grows. intros n.
    apply generateTypeUnmemoized_preserves; [exact _ | exact IH].
Qed.

Lemma memoize_stores func a st text st' :
  memoize func a st = Ok text st' -> memo st' !! a = Some text.
Proof.
  unfold memoize. unfold bind at 1, memo_get.
  destruct (memo st !! a) as [t|] eqn:Ea.
  - intros [= <- <-]. exact Ea.
  - intros E. apply bind_inv in E as (n & st1 & _ & E).
    apply bind_inv in E as (t & st2 & _ & E).
    injection E as <- <-. simpl. apply lookup_insert_eq.
Qed.

(** X1: a call of [generateType] that returns has left the tree and the set
    [processed] as they were, has kept every text that the cache held, and
    has the text it returns in the cache, under the node it was called
    on. *)
Theorem X1_generateType_only_adds_to_the_cache :
  forall (H : Host) (fuel : nat) (o : Options) (a : addr)
    (st : State) (text : string) (st' : State),
    generateType fuel o a st = Ok text st' ->
    nodes st' = nodes st
    /\ processed st' = processed st
    /\ memo st ⊆ memo st'
    /\ memo st' !! a = Some text.
Proof.
  intros H fuel o a st text st' E.
  destruct (generateType_cache_grows fuel o a st text st' E) as (N & P & Mm).
  repeat split; try assumption.
  destruct fuel as [|fuel]; [discriminate E|].
  simpl in E. eapply memoize_stores, E.
Qed.

Lemma X1_witness :
  nodes tuple_1_3_rendered = nodes tuple_1_3
  /\ processed tuple_1_3_rendered = processed tuple_1_3
  /\ memo tuple_1_3 ⊆ memo tuple_1_3_rendered
  /\ memo tuple_1_3_rendered !! 4
     = Some "[string]|[string, unknown]|[string, unknown, unknown]".
Proof.
  apply (X1_generateType_only_adds_to_the_cache example_host 2
           (example_options true) 4 tuple_1_3).
  vm_compute. reflexivity.
Defined.

(** ** Tuples with a spread parameter, and tuples left open *)

Definition spread (t : string) : string := "...(" +:+ t +:+ ")[]".

(** The loop of the tuple case when there is a spread parameter [sp],
    rendered as [t]: the shape that the last turn adds ends with it. *)
Lemma unionOfTuples_spread gt sp (texts : list string) t st st' :
  gt sp st = Ok t st' ->
  forall n k typesToUnion,
    k + S n = length texts ->
    unionOfTuples gt (Some sp) texts (S n) (Z.of_nat k) (take k texts)
      typesToUnion st
    = Ok (typesToUnion ++ shapes texts k n
          ++ [paramsToString (texts ++ [spread t])]) st'.
Proof.
  intros G. induction n as [|n IH]; intros k acc L.
  - destruct (lookup_lt_is_Some_2 texts k) as [x X]; [lia|].
    assert (item texts (Z.of_nat k) = x) as I.
    { unfold item. destruct (Z.of_nat k <? 0)%Z eqn:E0; [lia|].
      rewrite Nat2Z.id, X. reflexivity. }
    cbn [unionOfTuples]. rewrite I.
    rewrite <- (take_S_r _ _ _ X), (take_ge texts (S k)) by lia.
    assert ((Z.of_nat k =? Z.of_nat (length texts) - 1)%Z = true) as ->
        by lia.
    unfold addSpreadParam. rewrite bind_assoc.
    rewrite (bind_ok _ _ _ _ _ G). reflexivity.
  - destruct (lookup_lt_is_Some_2 texts k) as [x X]; [lia|].
    assert (item texts (Z.of_nat k) = x) as I.
    { unfold item. destruct (Z.of_nat k <? 0)%Z eqn:E0; [lia|].
      rewrite Nat2Z.id, X. reflexivity. }
    remember (S n) as m eqn:Em. cbn [unionOfTuples]. rewrite I.
    rewrite <- (take_S_r _ _ _ X).
    assert ((Z.of_nat k =? Z.of_nat (length texts) - 1)%Z = false) as ->
        by lia.
    unfold bind at 1, ret.
    replace (Z.of_nat k + 1)%Z with (Z.of_nat (S k)) by lia.
    subst m. rewrite IH by lia. unfold shapes. cbn [seq map].
    rewrite <- !app_assoc. reflexivity.
Qed.

(** X2: a tuple that has a spread parameter and more parameters than
    [minItems]: the text is the union of one shape for each length from
    [minItems] to the number of parameters, and the spread parameter stands
    at the end of the longest shape and of no other. *)
Theorem X2_tuple_spread_on_longest_shape_only :
  forall (o : Options) (gt : addr -> M string) (params : list addr)
    (minItems : nat) (maxItems : option Z) (sp : addr)
    (texts : list string) (t : string) (st st1 st2 : State),
    mapM gt params st = Ok texts st1 ->
    gt sp st1 = Ok t st2 ->
    minItems < length params ->
    generateTuple o gt params (Z.of_nat minItems) maxItems (Some sp) st
    = Ok (join "|"
            (map (fun k => paramsToString (take k texts))
               (seq minItems (length params - minItems))
             ++ [paramsToString (texts ++ [spread t])])) st2.
Proof.
  intros o gt params minItems maxItems sp texts t st st1 st2 E G L.
  pose proof (mapM_length _ _ _ _ _ E) as Len.
  unfold generateTuple.
  rewrite (bool_decide_eq_false_2 (Some sp = None)) by discriminate.
  rewrite !andb_false_r. cbv iota.
  rewrite (bind_ok _ _ _ _ _ E).
  assert ((Z.of_nat minItems <? Z.of_nat (length texts))%Z = true) as ->
      by lia.
  assert (slice0 texts (Z.of_nat minItems) = take minItems texts) as ->.
  { unfold slice0. destruct (Z.of_nat minItems <? 0)%Z eqn:E0; [lia|].
    rewrite Nat2Z.id. reflexivity. }
  assert ((if (0 <? length (take minItems texts))%nat
           then [paramsToString (take minItems texts)]
           else [paramsToString []])
          = [paramsToString (take minItems texts)]) as ->.
  { destruct (take minItems texts) eqn:T; reflexivity. }
  replace (Z.to_nat (Z.of_nat (length texts) - Z.of_nat minItems))
    with (S (length texts - minItems - 1)) by lia.
  rewrite (bind_ok _ _ _ _ _
             (unionOfTuples_spread gt sp texts t st1 st2 G
                (length texts - minItems - 1) minItems _ ltac:(lia))).
  unfold ret. do 2 f_equal.
  replace (length params - minItems)
    with (S (length texts - minItems - 1)) by lia.
  reflexivity.
Qed.

Lemma X2_witness :
  generateTuple (example_options true)
    (generateType (H := example_host) 1 (example_options true)) [3; 4] 1
    None (Some 3) (store [bare TString; bare TNumber])
  = Ok "[string]|[string, number, ...(string)[]]"
      (mkState (nodes (store [bare TString; bare TNumber]))
         (<[4 := "number"]> (<[3 := "string"]> ∅)) ∅).
Proof.
  apply (X2_tuple_spread_on_longest_shape_only (example_options true)
           (generateType (H := example_host) 1 (example_options true))
           [3; 4] 1 None 3 ["string"; "number"] "string"
           (store [bare TString; bare TNumber])
           (mkState (nodes (store [bare TString; bare TNumber]))
              (<[4 := "number"]> (<[3 := "string"]> ∅)) ∅)).
  - vm_compute. reflexivity.
  - vm_compute. reflexivity.
  - simpl. lia.
Defined.

(** X3: a tuple with no spread parameter and no bound ([maxItems] absent, zero
    or negative) that has no more parameters than [minItems]: it is one
    shape.  With exactly [minItems] parameters the shape holds them and
    nothing else; with fewer, the shape is left open: it ends with a spread
    of [unknown] (of [any] when [unknownAny] is off). *)
Theorem X3_tuple_short_of_minItems_is_left_open :
  forall (o : Options) (gt : addr -> M string) (params : list addr)
    (minItems : nat) (maxItems : option Z) (texts : list string)
    (st st1 : State),
    mapM gt params st = Ok texts st1 ->
    (forall m, maxItems = Some m -> (m <= 0)%Z) ->
    length params <= minItems ->
    (length params = minItems ->
     generateTuple o gt params (Z.of_nat minItems) maxItems None st
     = Ok (paramsToString texts) st1)
    /\ (forall t st2,
          length params < minItems ->
          gt (if unknownAny o then T_UNKNOWN else T_ANY) st1 = Ok t st2 ->
          generateTuple o gt params (Z.of_nat minItems) maxItems None st
          = Ok (paramsToString (texts ++ [spread t])) st2).
Proof.
  intros o gt params minItems maxItems texts st st1 E B L.
  pose proof (mapM_length _ _ _ _ _ E) as Len.
  assert (forall P : Z -> Prop,
             P (-1)%Z ->
             (forall m, (m < 0)%Z -> P m) ->
             P match maxItems with
               | Some m => if (m =? 0)%Z then (-1)%Z else m
               | None => (-1)%Z
               end) as Unbounded.
  { intros P P1 Pm. destruct maxItems as [m|]; [|exact P1].
    specialize (B m eq_refl). destruct (m =? 0)%Z eqn:E0; [exact P1|].
    apply Pm. lia. }
  split.
  - intros Eq. unfold generateTuple.
    assert ((Z.of_nat (length params) <? Z.of_nat minItems)%Z = false) as ->
        by lia.
    rewrite andb_false_r. cbn [andb].
    apply Unbounded.
    + cbn [Z.ltb Z.compare Z.of_nat]. 
      assert ((Z.of_nat (length params) <? -1)%Z = false) as -> by lia.
      cbn [andb]. rewrite (bind_ok _ _ _ _ _ E).
      assert ((Z.of_nat minItems <? Z.of_nat (length texts))%Z = false)
        as -> by lia.
      reflexivity.
    + intros m Hm.
      assert ((Z.of_nat (length params) <? m)%Z = false) as -> by lia.
      cbn [andb]. rewrite (bind_ok _ _ _ _ _ E).
      assert ((Z.of_nat minItems <? Z.of_nat (length texts))%Z = false)
        as -> by lia.
      reflexivity.
  - intros t st2 Lt G. unfold generateTuple.
    assert ((0 <? Z.of_nat minItems)%Z = true) as -> by lia.
    assert ((Z.of_nat (length params) <? Z.of_nat minItems)%Z = true) as ->
        by lia.
    rewrite bool_decide_eq_true_2 by reflexivity. cbn [andb].
    apply Unbounded.
    + assert ((Z.of_nat (length params) <? -1)%Z = false) as -> by lia.
      cbn [andb Z.ltb Z.compare]. rewrite (bind_ok _ _ _ _ _ E).
      assert ((Z.of_nat minItems <? Z.of_nat (length texts))%Z = false)
        as -> by lia.
      unfold addSpreadParam. rewrite bind_assoc.
      rewrite (bind_ok _ _ _ _ _ G). reflexivity.
    + intros m Hm.
      assert ((Z.of_nat (length params) <? m)%Z = false) as -> by lia.
      assert ((m <? 0)%Z = true) as -> by lia.
      cbn [andb]. rewrite (bind_ok _ _ _ _ _ E).
      assert ((Z.of_nat minItems <? Z.of_nat (length texts))%Z = false)
        as -> by lia.
      unfold addSpreadParam. rewrite bind_assoc.
      rewrite (bind_ok _ _ _ _ _ G). reflexivity.
Qed.

Lemma X3_witness :
  generateTuple (example_options true)
    (generateType (H := example_host) 1 (example_options true)) [3] 2
    None None (store [bare TString])
  = Ok "[string, ...(unknown)[]]"
      (mkState (nodes (store [bare TString]))
         (<[T_UNKNOWN := "unknown"]> (<[3 := "string"]> ∅)) ∅).
Proof.
  refine (proj2 (X3_tuple_short_of_minItems_is_left_open
                   (example_options true)
                   (generateType (H := example_host) 1 (example_options true))
                   [3] 2 None ["string"] (store [bare TString])
                   (mkState (nodes (store [bare TString]))
                      (<[3 := "string"]> ∅) ∅) _ _ _)
            "unknown" _ _ _).
  - vm_compute. reflexivity.
  - discriminate.
  - simpl. lia.
  - simpl. lia.
  - vm_compute. reflexivity.
Defined.

(** ** The members of an interface *)

Lemma escapeKeyName_index_signature `{Host} :
  escapeKeyName index_signature = index_signature.
Proof. reflexivity. Qed.

(** A node that a member is rendered as a map for: an interface with no
    standalone name whose one member is [[k: string]]. *)
Definition isMapLike `{Host} (n : AST) : bool :=
  match shape n with
  | TInterface [m0] _ =>
      negb (truthy (standaloneName n))
      && String.eqb (escapeKeyName (p_keyName m0)) index_signature
  | _ => false
  end.

(** X4: the member [[k: string]] of an interface, when its node is not one
    that is rendered as a map.  In an interface that has a key with a name,
    nothing is written for it: its text is empty.  In an interface with no
    such key it is written as a field, [[k: string]: T] (with [?] before
    the colon when the member is not required). *)
Theorem X4_index_signature_beside_named_keys :
  forall (H : Host) (allKeys : list string) (m : TInterfaceParam)
    (ty : string) (st : State) (n : AST),
    p_keyName m = index_signature ->
    nodes st !! p_ast m = Some n ->
    isMapLike n = false ->
    (allKeys <> [] -> generateMember allKeys m ty st = Ok "" st)
    /\ (allKeys = [] ->
        generateMember allKeys m ty st
        = Ok ((if hasComment n && negb (truthy (standaloneName n))
               then generateComment (comment n) (deprecated n) +:+ nl
               else "")
              +:+ "[k: string]" +:+ (if isRequired m then "" else "?")
              +:+ ": " +:+ ty) st).
Proof.
  intros H allKeys m ty st n K N Mp.
  assert (forall b, b = (0 <? length allKeys)%nat ->
            generateMember allKeys m ty st
            = Ok (if b then ""
                  else (if hasComment n && negb (truthy (standaloneName n))
                        then generateComment (comment n) (deprecated n)
                             +:+ nl
                        else "")
                       +:+ "[k: string]"
                       +:+ (if isRequired m then "" else "?")
                       +:+ ": " +:+ ty) st) as E.
  { intros b ->. unfold generateMember. rewrite K.
    rewrite escapeKeyName_index_signature.
    change (String.eqb index_signature index_signature) with true.
    cbn [negb]. unfold bind at 1, get_node. rewrite N.
    rewrite !andb_false_r. unfold field.
    rewrite escapeKeyName_index_signature. unfold isMapLike in Mp.
    destruct (shape n)
      as [ | | | | | | | | v | r | c | e | ps0 mn mx sp | ps0 | ps0
         | ps sup | es ];
      cbn [andb]; try (destruct (0 <? length allKeys)%nat; reflexivity).
    destruct ps as [|m0 [|m1 ps]];
      try (destruct (0 <? length allKeys)%nat; reflexivity).
    rewrite Mp. destruct (0 <? length allKeys)%nat; reflexivity. }
  split.
  - intros Ne. apply (E true). destruct allKeys; [congruence|reflexivity].
  - intros ->. apply (E false). reflexivity.
Qed.

Lemma X4_witness :
  generateMember (H := example_host) ["name"]
    (mkParam 3 index_signature true false false) "string"
    (store [bare TString])
  = Ok "" (store [bare TString]).
Proof.
  refine (proj1 (X4_index_signature_beside_named_keys example_host ["name"]
                   (mkParam 3 index_signature true false false) "string"
                   (store [bare TString]) (bare TString) _ _ _) _).
  - reflexivity.
  - reflexivity.
  - reflexivity.
  - discriminate.
Defined.

(** ** Comments *)

Definition no_newline (s : string) : bool :=
  all_chars (fun c => negb (Ascii.eqb c "010"%char)) s.

Lemma append_nil_r (s : string) : s +:+ "" = s.
Proof.
  induction s as [|c s IH]; [reflexivity|].
  rewrite append_cons, IH. reflexivity.
Qed.

Lemma no_newline_app (a b : string) :
  no_newline a = true -> no_newline b = true -> no_newline (a +:+ b) = true.
Proof.
  intros A B. induction a as [|c a IH]; [exact B|].
  rewrite append_cons. unfold no_newline in *. cbn [all_chars] in *.
  apply andb_true_iff in A as [C A]. rewrite C. exact (IH A).
Qed.

Lemma split_lines_from_app (l rest cur : string) :
  no_newline l = true ->
  split_lines_from cur (l +:+ rest) = split_lines_from (cur +:+ l) rest.
Proof.
  revert cur. induction l as [|c l IH]; intros cur N.
  - rewrite append_nil_r. reflexivity.
  - unfold no_newline in N. cbn [all_chars] in N.
    apply andb_true_iff in N as [C N]. apply negb_true_iff in C.
    rewrite append_cons. cbn [split_lines_from]. rewrite C.
    rewrite IH by exact N. rewrite append_assoc. reflexivity.
Qed.

Lemma split_lines_from_join (ls : list string) :
  forall (l cur : string),
    no_newline l = true ->
    Forall (fun x => no_newline x = true) ls ->
    split_lines_from cur (join nl (l :: ls)) = (cur +:+ l) :: ls.
Proof.
  induction ls as [|l2 ls IH]; intros l cur N F.
  - cbn [join String.concat].
    rewrite <- (append_nil_r l) at 1.
    rewrite split_lines_from_app by exact N. reflexivity.
  - change (join nl (l :: l2 :: ls)) with (l +:+ nl +:+ join nl (l2 :: ls)).
    rewrite split_lines_from_app by exact N.
    unfold nl at 1. rewrite append_cons. cbn [split_lines_from].
    change (Ascii.eqb "010" "010") with true. cbv iota.
    inversion F as [|? ? N2 F2]; subst.
    change ("" +:+ join nl (l2 :: ls)) with (join nl (l2 :: ls)).
    rewrite (IH l2 "" N2 F2). reflexivity.
Qed.

Lemma split_lines_from_no_newline (s : string) :
  forall cur,
    no_newline cur = true ->
    Forall (fun x => no_newline x = true) (split_lines_from cur s).
Proof.
  induction s as [|c s IH]; intros cur N; cbn [split_lines_from].
  - constructor; [exact N | constructor].
  - destruct (Ascii.eqb c "010") eqn:C.
    + constructor; [exact N|]. apply IH. reflexivity.
    + apply IH. apply no_newline_app; [exact N|].
      unfold no_newline. cbn [all_chars]. rewrite C. reflexivity.
Qed.

(** X5: the lines of the comment that [generateComment] writes: the opening
    [/**], a line [@deprecated] when the node is deprecated, one line for
    each line of the comment of the node, each after [ * ], and the closing
    [*/].  So a comment of several lines stays inside the block, line by
    line, and a node with no comment gets the block with nothing in it. *)
Theorem X5_generateComment_lines :
  forall (c : option string) (dep : bool),
    split_lines (generateComment c dep)
    = ["/**"]
      ++ (if dep then [" * @deprecated"] else [])
      ++ match c with
         | Some text => map (fun l => " * " +:+ l) (split_lines text)
         | None => []
         end
      ++ [" */"].
Proof.
  intros c dep. unfold generateComment, split_lines.
  cbn [app]. apply (split_lines_from_join _ "/**" ""); [reflexivity|].
  apply Forall_app. split; [destruct dep; repeat constructor|].
  apply Forall_app. split; [|repeat constructor].
  destruct c as [text|]; [|constructor].
  apply Forall_fmap.
  eapply Forall_impl; [apply (split_lines_from_no_newline text ""); reflexivity|].
  intros l N. cbn. apply (no_newline_app " * " l); [reflexivity | exact N].
Qed.

(** ** What the optimizer keeps *)

(** X6: [optimize] writes the parameters of nodes and nothing else of them.
    When a call returns, every node that was in the store is still there, at
    its address, with the type, the standalone name, the comment, the
    deprecation mark and the key name it had; and every node that was in
    [processed] still is. *)
Theorem X6_optimize_keeps_types_and_names :
  forall (H : Host) (fuel : nat) (o : Options) (a : addr)
    (st : State) (r : addr) (st' : State),
    optimize fuel o a st = Ok r st' ->
    processed st ⊆ processed st'
    /\ forall i n,
         nodes st !! i = Some n ->
         exists n',
           nodes st' !! i = Some n'
           /\ type n' = type n
           /\ standaloneName n' = standaloneName n
           /\ comment n' = comment n
           /\ deprecated n' = deprecated n
           /\ keyName n' = keyName n.
Proof.
  intros H fuel o a st r st' E.
  exact (optimize_extends fuel o a st r st' E).
Qed.

(** The store of [array_of_named_string] after [optimize] has run on the
    array. *)
Definition array_of_named_string_optimized : State :=
  mkState
    (constants
     ++ [bare (TArray T_STRING); mkAST TString (Some "Name") None false None])
    ∅ {[4; 3]}.

Lemma X6_witness :
  processed (reset array_of_named_string)
  ⊆ processed array_of_named_string_optimized
  /\ exists n',
       nodes array_of_named_string_optimized !! 3 = Some n'
       /\ type n' = ARRAY
       /\ standaloneName n' = None
       /\ comment n' = None
       /\ deprecated n' = false
       /\ keyName n' = None.
Proof.
  pose proof (X6_optimize_keeps_types_and_names example_host 3
                (example_options true) 3 (reset array_of_named_string) 3
                array_of_named_string_optimized) as X.
  destruct X as [P N]; [vm_compute; reflexivity|].
  split; [exact P|]. exact (N 3 (bare (TArray 4)) eq_refl).
Defined.

(** A call of [optimize] that returns found its node in [processed], or
    went through the [switch] on the node, which it had put into
    [processed]. *)
Lemma optimize_inv `{Host} fuel o a st r st' :
  optimize (S fuel) o a st = Ok r st' ->
  (a ∈ processed st /\ r = a /\ st' = st)
  \/ ((a ∉ processed st)
      /\ exists n,
           nodes st !! a = Some n
           /\ optimize_switch (optimize fuel o) (generateType fuel o) a n
                (mkState (nodes st) (memo st) ({[a]} ∪ processed st))
              = Ok r st').
Proof.
  intros E. destruct (decide (a ∈ processed st)) as [P | P].
  - left. rewrite (optimize_processed _ _ _ _ P) in E.
    injection E as <- <-. auto.
  - right. split; [exact P|].
    destruct (nodes st !! a) as [n|] eqn:N.
    + exists n. split; [reflexivity|].
      rewrite (optimize_new _ _ _ _ _ P N) in E. exact E.
    + exfalso. simpl in E. unfold optimize_body in E.
      unfold bind at 1, processed_has in E.
      rewrite bool_decide_eq_false_2 in E by exact P.
      unfold bind at 1, processed_add in E.
      unfold bind at 1, get_node in E. simpl in E. rewrite N in E.
      discriminate E.
Qed.

Section OptimizerPreserves.
Context `{Host}.
Context (R : relation State) `{!PreOrder R}.
Variable options : Options.
Variable opt : addr -> M addr.
Variable gt : addr -> M string.
Variable a : addr.
Hypothesis opt_R : forall c, preserves R (opt c).
Hypothesis gt_R : forall c, preserves R (gt c).
Hypothesis alloc_R : forall n, preserves R (alloc n).
Hypothesis assign_R : forall s, preserves R (assign_shape a s).

Lemma assign_params_preserves ps : preserves R (assign_params a ps).
Proof. unfold assign_params. frame. Qed.

Lemma assign_element_preserves e : preserves R (assign_element a e).
Proof. unfold assign_element. frame. Qed.

Lemma assign_member_preserves i r : preserves R (assign_member a i r).
Proof. unfold assign_member. frame. Qed.

Lemma stringWithComment_preserves c : preserves R (stringWithComment c).
Proof. unfold stringWithComment. frame. Qed.

Lemma flattenNamedString_preserves e store :
  (forall s, preserves R (store s)) ->
  preserves R (flattenNamedString e store).
Proof.
  intros Hs. pose proof stringWithComment_preserves.
  unfold flattenNamedString. frame.
Qed.

Lemma optimizeSetOperation_preserves n ps :
  preserves R (optimizeSetOperation opt gt a n ps).
Proof.
  pose proof assign_params_preserves. pose proof stringWithComment_preserves.
  assert (forall c, preserves R (omitStandaloneName c))
    by (intros; unfold omitStandaloneName; frame).
  assert (forall ps, preserves R (keepNamed gt ps))
    by (intros; unfold keepNamed, sameTextAsFirst; frame).
  assert (forall ps, preserves R (dropDuplicates gt ps))
    by (intros; unfold dropDuplicates; frame).
  unfold optimizeSetOperation. frame.
Qed.

Lemma optimize_switch_preserves n :
  preserves R (optimize_switch opt gt a n).
Proof.
  pose proof assign_params_preserves. pose proof assign_element_preserves.
  pose proof assign_member_preserves. pose proof stringWithComment_preserves.
  pose proof flattenNamedString_preserves.
  pose proof optimizeSetOperation_preserves.
  unfold optimize_switch. frame.
Qed.
End OptimizerPreserves.

(** From [st] to [st'], as long as the nodes of [S] are in [processed]:
    they stay there, and they are what they were. *)
Definition keeps (S : gset nat) : relation State :=
  fun st st' =>
    S ⊆ processed st -> S ⊆ processed st' /\ unchanged S st st'.

#[local] Instance keeps_preorder S : PreOrder (keeps S).
Proof.
  split.
  - intros st P. split; [exact P | apply unchanged_refl].
  - intros x y z K1 K2 P. destruct (K1 P) as [P1 U1].
    destruct (K2 P1) as [P2 U2]. split; [exact P2|].
    eapply unchanged_trans; eassumption.
Qed.

Lemma memo_only_keeps S st st' : memo_only st st' -> keeps S st st'.
Proof.
  intros [N P] Sub. rewrite P. split; [exact Sub|].
  intros i n _ E. rewrite N. exact E.
Qed.

Lemma alloc_keeps S n : preserves (keeps S) (alloc n).
Proof.
  intros st x st' [= _ <-] Sub. split; [exact Sub|].
  intros i y _ E. simpl. apply lookup_app_l_Some. exact E.
Qed.

Lemma assign_shape_keeps S a s : a ∉ S -> preserves (keeps S) (assign_shape a s).
Proof.
  intros Ha st x st'. unfold assign_shape.
  destruct (nodes st !! a) as [n|]; [|discriminate].
  intros [= <- <-] Sub. split; [exact Sub|].
  intros i y Hi E. simpl. rewrite list_lookup_insert_ne; [exact E|].
  intros ->. contradiction.
Qed.

Lemma optimize_keeps `{Host} fuel o S :
  forall a, preserves (keeps S) (optimize fuel o a).
Proof.
  induction fuel as [|fuel IH]; intros a.
  - apply preserves_diverge; typeclasses eauto.
  - intros st r st' E Sub.
    apply optimize_inv in E as [(_ & _ & ->) | (P & n & N & E)].
    + split; [exact Sub | apply unchanged_refl].
    + assert (a ∉ S) as Ha by (intros Hin; apply P, Sub, Hin).
      assert (S ⊆ {[a]} ∪ processed st) as Sub' by set_solver.
      eapply (optimize_switch_preserves (keeps S)) in E.
      * destruct (E Sub') as [P' U]. split; [exact P' | exact U].
      * exact IH.
      * intros c. eapply preserves_weaken; [apply memo_only_keeps|].
        apply generateType_frame.
      * apply alloc_keeps.
      * intros s. apply assign_shape_keeps, Ha.
Qed.


(** The array of [array_of_named_string], its element in [processed]. *)
Definition array_element_processed : State :=
  mkState (nodes array_of_named_string) ∅ {[4]}.


(** ** What [optimize] returns *)

Lemma stringWithComment_inv c st r st' :
  stringWithComment c st = Ok r st' -> is_string_for c r st'.
Proof.
  intros E. destruct (stringWithComment_ok c st) as (r0 & st0 & E0 & I).
  rewrite E0 in E. injection E as <- <-. exact I.
Qed.

(** Takes the equation [E : (let* x := m in k) st = Ok r st'] to the one
    of the last call of the sequence, forgetting the calls before it. *)
Ltac last_call E :=
  repeat (apply bind_inv in E as (? & ? & _ & E)).



(** ** Tuples and arrays *)

Lemma with_shape_twice n s s' : with_shape (with_shape n s) s' = with_shape n s'.
Proof. reflexivity. Qed.

(** The node [a], which is in [processed], after the calls of [optimize]
    on a list of nodes. *)
Lemma mapM_optimize_keeps `{Host} fuel o a ps st rs st' n :
  mapM (optimize fuel o) ps st = Ok rs st' ->
  a ∈ processed st ->
  nodes st !! a = Some n ->
  nodes st' !! a = Some n.
Proof.
  intros E P N.
  assert (keeps {[a]} st st') as K.
  { revert E. apply preserves_mapM; [exact _|]. intros c.
    apply optimize_keeps. }
  destruct K as [_ U]; [set_solver|]. apply U; [set_solver | exact N].
Qed.


(** A tuple whose parameter and spread parameter are the same literal. *)
Definition tuple_with_spread : State :=
  store [bare (TLiteral (JString "a")); bare (TTuple [3] 1 None (Some 3))].


(** X10: [optimize] on an array that is not in [processed], in a store that
    has the constant [T_STRING], returns the array, and the element it
    leaves in the array is not a STRING with a standalone name: where
    [optimize] has returned one for the element, the array has got the
    constant [T_STRING], or a new STRING with the comment, in its place. *)
Theorem X10_optimize_array_has_no_named_string_element :
  forall (H : Host) (fuel : nat) (o : Options) (a : addr) (st : State)
    (n : AST) (e : addr) (r : addr) (st' : State),
    nodes st !! a = Some n ->
    shape n = TArray e ->
    a ∉ processed st ->
    nodes st !! T_STRING = Some (bare TString) ->
    optimize (S fuel) o a st = Ok r st' ->
    r = a
    /\ exists e',
         nodes st' !! a = Some (with_shape n (TArray e'))
         /\ ~ named_string st' e'.
Proof.
  intros H fuel o a st n e r st' N Sh P C E.
  assert (a <> T_STRING) as Ne.
  { intros ->. rewrite C in N. injection N as <-. discriminate Sh. }
  apply optimize_inv in E as [(P' & _) | (_ & n' & N' & E)];
    [contradiction|].
  rewrite N in N'. injection N' as <-.
  unfold optimize_switch in E. rewrite Sh in E.
  apply bind_inv in E as (e' & st1 & E1 & E).
  assert (nodes st1 !! a = Some n) as N1.
  { destruct (optimize_keeps fuel o {[a]} e _ _ _ E1) as [_ U];
      [simpl; set_solver|]. apply U; [set_solver | exact N]. }
  destruct (optimize_extends fuel o e _ _ _ E1) as [_ X1].
  destruct (X1 T_STRING _ C) as (s1 & S1 & _ & Name1 & _).
  rewrite (bind_ok _ _ _ _ _ (assign_element_put _ e' _ _ _ N1 Sh)) in E.
  apply bind_inv in E as ([] & st3 & E3 & E).
  injection E as <- <-. split; [reflexivity|].
  unfold flattenNamedString in E3.
  apply bind_inv in E3 as (ne & st2 & G & E3).
  apply get_node_inv in G as [-> G].
  destruct (truthy (standaloneName ne) && bool_decide (type ne = STRING))
    eqn:Named.
  - unfold stringWithComment in E3. destruct (truthy (comment ne)) eqn:Tc.
    + rewrite (bind_ok _ _ _ _ _ (alloc_ok _ _)) in E3.
      pose proof (lookup_lt_Some _ _ _ N1) as La.
      erewrite assign_element_put in E3;
        [ | simpl; rewrite lookup_app_l by (rewrite length_insert; exact La);
            apply list_lookup_insert_eq; exact La | reflexivity ].
      injection E3 as <-.
      exists (length (<[a := with_shape n (TArray e')]> (nodes st1))).
      split.
      * simpl. apply list_lookup_insert_eq.
        rewrite length_app, length_insert. lia.
      * intros (x & X & Nx). simpl in X.
        rewrite list_lookup_insert_ne in X
          by (rewrite length_insert; lia).
        rewrite lookup_app_r in X by reflexivity.
        rewrite Nat.sub_diag in X. injection X as <-. discriminate Nx.
    + unfold bind, ret in E3.
      erewrite assign_element_put in E3;
        [ | apply (put_lookup _ _ _ _ N1) | reflexivity ].
      injection E3 as <-. exists T_STRING. split.
      * simpl. apply list_lookup_insert_eq. rewrite length_insert.
        eapply lookup_lt_Some, N1.
      * intros (x & X & Nx). simpl in X.
        rewrite !list_lookup_insert_ne in X by congruence.
        rewrite S1 in X. injection X as <-. rewrite Name1 in Nx.
        discriminate Nx.
  - injection E3 as <-. exists e'. split.
    + apply (put_lookup _ _ _ _ N1).
    + intros (x & X & Nx). rewrite G in X. injection X as <-.
      rewrite Named in Nx. discriminate Nx.
Qed.

Lemma X10_witness :
  3 = 3
  /\ exists e',
       nodes array_of_named_string_optimized !! 3
       = Some (with_shape (bare (TArray 4)) (TArray e'))
       /\ ~ named_string array_of_named_string_optimized e'.
Proof.
  apply (X10_optimize_array_has_no_named_string_element example_host 2
           (example_options true) 3 (reset array_of_named_string)
           (bare (TArray 4)) 4 3 array_of_named_string_optimized).
  - reflexivity.
  - reflexivity.
  - vm_compute. intros X. discriminate X.
  - reflexivity.
  - vm_compute. reflexivity.
Defined.

(** ** The run of [optimize] on a graph without unions and intersections *)

(** X11: on a graph in which no node is a union or an intersection, cyclic or
    shared as it may be, [optimize] returns, with a recursion budget above
    the number of nodes.  What it leaves is such a graph again (the
    parameters of every node are nodes of the store), what it returns is a
    node of the store, and every node that the run has put into [processed]
    is finished: if it is an array or an interface, none of its elements and
    members is a STRING with a standalone name, and each of its parameters
    that is an array, a tuple or an interface is in [processed] as well. *)
Theorem X11_optimize_finishes_every_node_it_visits :
  forall (H : Host) (o : Options) (st : State) (a : addr) (fuel : nat),
    plain_graph st ->
    a < length (nodes st) ->
    length (nodes st) < fuel ->
    exists r st',
      optimize fuel o a st = Ok r st'
      /\ plain_graph st'
      /\ r < length (nodes st')
      /\ a ∈ processed st'
      /\ forall i, i ∈ processed st' -> i ∉ processed st -> finished st' i.
Proof.
  intros H o st a fuel G V L.
  destruct (optimize_total o fuel st a G V) as (r & st' & E & O).
  { eapply Nat.le_lt_trans; [apply todo_size_bound | exact L]. }
  exists r, st'. split; [exact E|].
  split; [exact (opt_plain _ _ _ _ O)|].
  split; [exact (opt_valid _ _ _ _ O)|].
  split; [exact (opt_processed _ _ _ _ O)|].
  exact (opt_finished _ _ _ _ O).
Qed.

Lemma X11_witness :
  exists r st',
    optimize (H := example_host) 6 (example_options true) 3
      array_of_named_string = Ok r st'
    /\ plain_graph st'
    /\ r < length (nodes st')
    /\ 3 ∈ processed st'
    /\ forall i,
         i ∈ processed st' -> i ∉ processed array_of_named_string ->
         finished st' i.
Proof.
  apply (X11_optimize_finishes_every_node_it_visits example_host
           (example_options true) array_of_named_string 3 6).
  - exact array_of_named_string_plain.
  - simpl. lia.
  - simpl. lia.
Defined.

(** ** The renderer on graphs whose cycles go through named nodes *)

(** Every address that a shape holds. *)
Definition refs (s : Shape) : list addr :=
  match s with
  | TArray e => [e]
  | TTuple params _ _ spreadParam => params ++ option_list spreadParam
  | TUnion params | TIntersection params => params
  | TInterface params superTypes => map p_ast params ++ superTypes
  | TEnum params => map e_ast params
  | _ => []
  end.

(** The nodes that [generateRawType] may call [generateType] on, for a
    node of shape [s] that has no standalone name.  A tuple may be filled up
    with one of the constants [T_ANY] and [T_UNKNOWN]. *)
Definition rendered (s : Shape) : list addr :=
  match s with
  | TArray e => [e]
  | TTuple params _ _ spreadParam =>
      [T_ANY; T_UNKNOWN] ++ params ++ option_list spreadParam
  | TUnion params | TIntersection params => params
  | TInterface params _ => map p_ast params
  | _ => []
  end.

(** A store that the renderer can go through: the addresses that the nodes
    hold are addresses of the store, the constants are there, every enum
    has a standalone name, and [rank] goes down from every node without a
    standalone name to the nodes that are rendered for it.  So a cycle of
    the graph goes through a node that has a standalone name. *)
Record renderable (rank : addr -> nat) (st : State) : Prop := {
  renderable_closed :
    forall i n c,
      nodes st !! i = Some n -> c ∈ refs (shape n) ->
      c < length (nodes st);
  renderable_constants : T_UNKNOWN < length (nodes st);
  renderable_enums :
    forall i n,
      nodes st !! i = Some n -> type n = ENUM -> standaloneName n <> None;
  renderable_rank :
    forall i n c,
      nodes st !! i = Some n -> standaloneName n = None ->
      c ∈ rendered (shape n) -> rank c < rank i
}.

Lemma renderable_memo_only rank st st' :
  memo_only st st' -> renderable rank st -> renderable rank st'.
Proof.
  intros [N _] [C K E R]. split; rewrite ?N; assumption.
Qed.

Lemma total_mapM {A B} (R : relation State) `{!PreOrder R}
    (Q : A -> B -> Prop) (f : A -> M B) (l : list A) :
  forall st,
    (forall x st1, x ∈ l -> R st st1 ->
                   total (f x) st1 (fun y st2 => R st1 st2 /\ Q x y)) ->
    total (mapM f l) st (fun ys st' => R st st' /\ Forall2 Q l ys).
Proof.
  induction l as [|x l IH]; intros st F; simpl.
  - apply total_ret. split; [reflexivity | constructor].
  - apply total_bind.
    eapply total_mono; [apply (F x st); [left | reflexivity]|].
    intros y st1 [R1 Qy]. apply total_bind.
    eapply total_mono.
    + apply (IH st1). intros x' st2 Hx R2.
      apply F; [right; exact Hx | etrans; eassumption].
    + intros ys st2 [R2 Qs]. apply total_ret.
      split; [etrans; eassumption | constructor; assumption].
Qed.

Lemma get_node_ok {B} a (k : AST -> M B) st n :
  nodes st !! a = Some n -> bind (get_node a) k st = k n st.
Proof. intros N. unfold bind, get_node. rewrite N. reflexivity. Qed.

Section RendererTotal.
Context `{Host}.
Variable rank : addr -> nat.
Variable options : Options.
Variable gt : addr -> M string.
Variable k : nat.

(** A node of the store that [gt] returns on. *)
Definition callable (st : State) (c : addr) : Prop :=
  c < length (nodes st) /\ rank c < k.

Hypothesis gt_total :
  forall c st,
    renderable rank st -> callable st c ->
    total (gt c) st (fun _ st' => memo_only st st').

Lemma callable_memo_only st st' c :
  memo_only st st' -> callable st c -> callable st' c.
Proof. intros [N _] [V L]. split; [rewrite N; exact V | exact L]. Qed.

Lemma mapM_gt_total (l : list addr) st :
  renderable rank st ->
  (forall c, c ∈ l -> callable st c) ->
  total (mapM gt l) st (fun _ st' => memo_only st st').
Proof.
  intros G C.
  eapply total_mono;
    [apply (total_mapM memo_only (fun _ _ => True) gt l st)|].
  - intros c st1 Hc M1. eapply total_mono.
    + apply gt_total; [eapply renderable_memo_only; eassumption|].
      eapply callable_memo_only; [exact M1 | apply C, Hc].
    + intros y st2 M2. cbv beta in M2. split; [exact M2 | exact I].
  - intros ys st' [M _]. exact M.
Qed.

Lemma handleUnionRecursively_total n p0 key ty req st :
  renderable rank st ->
  p0 < length (nodes st) ->
  exists text, handleUnionRecursively n [p0] key ty req st = Ok text st.
Proof.
  intros G V. destruct (lookup_lt_is_Some_2 _ _ V) as [n0 N0].
  unfold handleUnionRecursively. rewrite (get_node_ok _ _ _ _ N0).
  destruct (shape n0) as [ | | | | | | | | v | x | x | e | ps mn mx sp | ps
                         | ps | ms sup | es ] eqn:Sh;
    try (eexists; reflexivity).
  - destruct (lookup_lt_is_Some_2 (nodes st) e) as [ne Ne].
    { eapply (renderable_closed _ _ G); [exact N0|]. rewrite Sh. left. }
    rewrite (get_node_ok _ _ _ _ Ne). eexists. reflexivity.
  - destruct ms as [|m0 [|m1 ms]]; try (eexists; reflexivity).
    destruct (_ && _); [|eexists; reflexivity].
    destruct (lookup_lt_is_Some_2 (nodes st) (p_ast m0)) as [nm Nm].
    { eapply (renderable_closed _ _ G); [exact N0|]. rewrite Sh. left. }
    rewrite (get_node_ok _ _ _ _ Nm). eexists. reflexivity.
Qed.

Lemma generateMember_total allKeys m ty st :
  renderable rank st ->
  p_ast m < length (nodes st) ->
  exists text, generateMember allKeys m ty st = Ok text st.
Proof.
  intros G V. destruct (lookup_lt_is_Some_2 _ _ V) as [n N].
  unfold generateMember. rewrite (get_node_ok _ _ _ _ N).
  destruct (isAnnotatedString (type n) && _); [eexists; reflexivity|].
  destruct (bool_decide (type n = BOOLEAN) && _); [eexists; reflexivity|].
  destruct (shape n) as [ | | | | | | | | v | x | x | e | ps mn mx sp | ps
                         | ps | ms sup | es ] eqn:Sh;
    try (destruct (0 <? length allKeys)%nat; eexists; reflexivity).
  - destruct (negb _); [|destruct (0 <? length allKeys)%nat; eexists;
                         reflexivity].
    destruct (lookup_lt_is_Some_2 (nodes st) e) as [ne Ne].
    { eapply (renderable_closed _ _ G); [exact N|]. rewrite Sh. left. }
    rewrite (get_node_ok _ _ _ _ Ne). eexists. reflexivity.
  - destruct (negb _ && bool_decide (length ps = 1)) eqn:C;
      [|destruct (0 <? length allKeys)%nat; eexists; reflexivity].
    apply andb_true_iff in C as [_ C]. apply bool_decide_eq_true in C.
    destruct ps as [|p0 [|p1 ps]]; try discriminate C.
    apply handleUnionRecursively_total; [exact G|].
    eapply (renderable_closed _ _ G); [exact N|]. rewrite Sh. left.
  - destruct (negb _ && bool_decide (length ps = 1)) eqn:C;
      [|destruct (0 <? length allKeys)%nat; eexists; reflexivity].
    apply andb_true_iff in C as [_ C]. apply bool_decide_eq_true in C.
    destruct ps as [|p0 [|p1 ps]]; try discriminate C.
    apply handleUnionRecursively_total; [exact G|].
    eapply (renderable_closed _ _ G); [exact N|]. rewrite Sh. left.
  - destruct (truthy (standaloneName n) && _); [eexists; reflexivity|].
    destruct ms as [|m0 [|m1 ms]];
      try (destruct (0 <? length allKeys)%nat; eexists; reflexivity).
    destruct (negb (truthy (standaloneName n)) && _);
      [|destruct (0 <? length allKeys)%nat; eexists; reflexivity].
    destruct (lookup_lt_is_Some_2 (nodes st) (p_ast m0)) as [n0 N0].
    { eapply (renderable_closed _ _ G); [exact N|]. rewrite Sh. left. }
    rewrite (get_node_ok _ _ _ _ N0). eexists. reflexivity.
Qed.

Lemma generateInterface_total params st :
  renderable rank st ->
  (forall m, m ∈ params -> callable st (p_ast m)) ->
  total (generateInterface gt params) st (fun _ st' => memo_only st st').
Proof.
  intros G C. unfold generateInterface.
  set (shown := List.filter _ params).
  assert (forall m, m ∈ shown -> m ∈ params) as Sub.
  { intros m Hm. apply list_elem_of_In, filter_In in Hm as [Hm _].
    apply list_elem_of_In, Hm. }
  apply total_bind. eapply total_mono.
  - apply (total_mapM memo_only (fun m mt => fst mt = m)).
    intros m st1 Hm M1. apply total_bind. eapply total_mono.
    + apply gt_total; [eapply renderable_memo_only; eassumption|].
      eapply callable_memo_only; [exact M1 | apply C, Sub, Hm].
    + intros ty st2 M2. cbv beta in M2. apply total_ret. split; [exact M2 | reflexivity].
  - intros typed st1 [M1 F]. apply total_bind. eapply total_mono.
    + apply (total_mapM eq (fun _ _ => True)).
      intros mt st2 Hmt <-.
      destruct (generateMember_total
                  (map (fun m => escapeKeyName (p_keyName m))
                     (List.filter
                        (fun m => negb (String.eqb
                                          (escapeKeyName (p_keyName m))
                                          index_signature)) shown))
                  (fst mt) (snd mt) st1) as [text E].
      * eapply renderable_memo_only; eassumption.
      * assert (fst mt ∈ shown) as Hs.
        { clear -F Hmt. induction F as [|m mt' l l' E F IH].
          - inversion Hmt.
          - apply elem_of_cons in Hmt as [-> | Hmt].
            + rewrite E. left.
            + right. apply IH, Hmt. }
        destruct M1 as [N1 _]. rewrite N1. apply (C _ (Sub _ Hs)).
      * exists text, st1. split; [exact E|]. split; reflexivity.
    + intros members st2 [<- _]. apply total_ret. exact M1.
Qed.

Lemma addSpreadParam_total sp l st :
  renderable rank st ->
  (forall s, sp = Some s -> callable st s) ->
  total (addSpreadParam gt sp l) st (fun _ st' => memo_only st st').
Proof.
  intros G C. unfold addSpreadParam. destruct sp as [s|].
  - apply total_bind. eapply total_mono; [apply gt_total; auto|].
    intros ty st1 M1. cbv beta in M1. apply total_ret. exact M1.
  - apply total_ret. reflexivity.
Qed.

Lemma unionOfTuples_total sp l n :
  forall i c t st,
    renderable rank st ->
    (forall s, sp = Some s -> callable st s) ->
    total (unionOfTuples gt sp l n i c t) st (fun _ st' => memo_only st st').
Proof.
  induction n as [|n IH]; intros i c t st G C; cbn [unionOfTuples].
  - apply total_ret. reflexivity.
  - apply total_bind. eapply total_mono.
    + destruct (i =? _)%Z;
        [apply addSpreadParam_total; assumption | apply total_ret; reflexivity].
    + intros c' st1 M1. cbv beta in M1. eapply total_mono.
      * apply IH; [eapply renderable_memo_only; eassumption|].
        intros s Es. eapply callable_memo_only; [exact M1 | apply C, Es].
      * intros ts st2 M2. cbv beta in M2. etrans; eassumption.
Qed.

Lemma generateTuple_total params minItems maxItems spreadParam st :
  renderable rank st ->
  (forall c, c ∈ rendered (TTuple params minItems maxItems spreadParam) ->
             callable st c) ->
  total (generateTuple options gt params minItems maxItems spreadParam) st
    (fun _ st' => memo_only st st').
Proof.
  intros G C. unfold generateTuple.
  set (filler := if unknownAny options then T_UNKNOWN else T_ANY).
  assert (callable st filler) as Cf.
  { apply C. unfold filler. cbn [rendered].
    destruct (unknownAny options); [right; left | left]. }
  set (sp := if _ && _ && _ && _ then Some filler else spreadParam).
  assert (forall s, sp = Some s -> callable st s) as Cs.
  { intros s. unfold sp. destruct (_ && _ && _ && _).
    - intros [= <-]. exact Cf.
    - intros ->. apply C. cbn [rendered]. set_solver. }
  set (astParams := if _ && _ then _ else params).
  assert (forall c, c ∈ astParams -> callable st c) as Ca.
  { intros c. unfold astParams.
    match goal with
    | |- context [if ?b then params ++ _ else params] => destruct b
    end.
    - intros [Hc | Hc]%elem_of_app.
      + apply C. cbn [rendered]. set_solver.
      + apply elem_of_replicate in Hc as [-> _]. exact Cf.
    - intros Hc. apply C. cbn [rendered]. set_solver. }
  apply total_bind. eapply total_mono; [apply mapM_gt_total; assumption|].
  intros paramsList st1 M1. cbv beta in M1.
  assert (renderable rank st1) as G1
      by (eapply renderable_memo_only; eassumption).
  assert (forall s, sp = Some s -> callable st1 s) as Cs1.
  { intros s Es. eapply callable_memo_only; [exact M1 | apply Cs, Es]. }
  destruct (minItems <? _)%Z.
  - apply total_bind. eapply total_mono;
      [apply unionOfTuples_total; assumption|].
    intros ts st2 M2. cbv beta in M2. apply total_ret. etrans; eassumption.
  - apply total_bind. eapply total_mono;
      [apply addSpreadParam_total; assumption|].
    intros ts st2 M2. cbv beta in M2. apply total_ret. etrans; eassumption.
Qed.

Lemma generateSetOperation_total b params st :
  renderable rank st ->
  (forall c, c ∈ params -> callable st c) ->
  total (generateSetOperation gt b params) st
    (fun _ st' => memo_only st st').
Proof.
  intros G C. unfold generateSetOperation.
  apply total_bind. eapply total_mono; [apply mapM_gt_total; assumption|].
  intros members st1 M1. cbv beta in M1.
  destruct members as [|m [|m' members]]; apply total_ret; exact M1.
Qed.

Lemma generateTypeUnmemoized_total a n st :
  renderable rank st ->
  nodes st !! a = Some n ->
  rank a <= k ->
  total (generateTypeUnmemoized options gt n) st
    (fun _ st' => memo_only st st').
Proof.
  intros G N L. unfold generateTypeUnmemoized.
  assert (standaloneName n = None ->
          forall c, c ∈ rendered (shape n) -> callable st c) as C.
  { intros Nn c Hc. split.
    - destruct (shape n) as [ | | | | | | | | v | x | x | e | ps mn mx sp
                             | ps | ps | ms sup | es ] eqn:Sh;
        cbn [rendered] in Hc; try (inversion Hc; fail);
        try (eapply (renderable_closed _ _ G); [exact N|]; rewrite Sh;
             cbn [refs];
             first [exact Hc | apply elem_of_app; left; exact Hc]).
      apply elem_of_app in Hc as [Hc | Hc].
      + pose proof (renderable_constants _ _ G) as K3. unfold T_UNKNOWN in K3.
        apply elem_of_cons in Hc as [-> | Hc]; [unfold T_ANY; lia|].
        apply list_elem_of_singleton in Hc as ->. unfold T_UNKNOWN. lia.
      + eapply (renderable_closed _ _ G); [exact N|]. rewrite Sh. exact Hc.
    - pose proof (renderable_rank _ _ G _ _ _ N Nn Hc). lia. }
  apply total_bind.
  eapply total_mono with (Q := fun _ st' => memo_only st st').
  - unfold generateRawType.
    destruct (standaloneName n) as [name|] eqn:Name;
      [apply total_ret; reflexivity|].
    specialize (C eq_refl).
    destruct (shape n) as [ | | | | | | | | v | x | x | e | ps mn mx sp | ps
                           | ps | ms sup | es ] eqn:Sh;
      try (apply total_ret; reflexivity).
    + apply total_bind. eapply total_mono.
      * apply gt_total; [exact G|]. apply C. left.
      * intros ty st1 M1. cbv beta in M1. apply total_ret. exact M1.
    + apply generateTuple_total; assumption.
    + apply generateSetOperation_total; assumption.
    + apply generateSetOperation_total; assumption.
    + apply generateInterface_total; [exact G|].
      intros m Hm. apply C. cbn [rendered]. apply list_elem_of_fmap.
      exists m. split; [reflexivity | exact Hm].
    + exfalso. eapply (renderable_enums _ _ G); [exact N | | exact Name].
      unfold type. rewrite Sh. reflexivity.
  - intros ty st1 M1. cbv beta in M1. destruct (_ && _); apply total_ret; exact M1.
Qed.
End RendererTotal.

Lemma generateType_total `{Host} rank o fuel :
  forall st a,
    renderable rank st ->
    a < length (nodes st) ->
    rank a < fuel ->
    total (generateType fuel o a) st (fun _ st' => memo_only st st').
Proof.
  induction fuel as [|fuel IH]; intros st a G V L; [lia|].
  cbn [generateType]. destruct (memo st !! a) as [text|] eqn:E.
  - exists text, st. split; [apply memoize_hit, E | reflexivity].
  - destruct (lookup_lt_is_Some_2 _ _ V) as [n N].
    unfold total. rewrite (memoize_miss _ _ _ _ E N). fold_total.
    apply total_bind. eapply total_mono.
    + eapply (generateTypeUnmemoized_total rank o (generateType fuel o) fuel);
        [ | exact G | exact N | lia ].
      intros c st1 G1 [V1 L1]. apply IH; assumption.
    + intros text st1 M1. cbv beta in M1. apply total_bind.
      exists tt, (mkState (nodes st1) (<[a := text]> (memo st1))
                    (processed st1)).
      split; [reflexivity|]. apply total_ret.
      destruct M1 as [N1 P1]. split; assumption.
Qed.

(** X12: [generateType] returns on every store that is [renderable], from each
    of its nodes, with a recursion budget above the rank of the node: the
    renderer ends on every graph in which each cycle goes through a node
    that has a standalone name (of such a node it writes the name, and goes
    no further).  It leaves the nodes and the set [processed] as they
    were. *)
Theorem X12_generateType_returns_when_cycles_are_named :
  forall (H : Host) (o : Options) (rank : addr -> nat) (st : State)
    (a : addr) (fuel : nat),
    renderable rank st ->
    a < length (nodes st) ->
    rank a < fuel ->
    exists text st',
      generateType fuel o a st = Ok text st'
      /\ nodes st' = nodes st
      /\ processed st' = processed st.
Proof.
  intros H o rank st a fuel G V L.
  destruct (generateType_total rank o fuel st a G V L)
    as (text & st' & E & N & P).
  exists text, st'. split; [exact E|]. split; assumption.
Qed.

(** An array of [Node], where [Node] is an interface with a member [next]
    that is such an array: a cycle through the interface. *)
Definition list_of_nodes : State :=
  store [bare (TArray 4);
         mkAST (TInterface [mkParam 3 "next" true false false] [])
           (Some "Node") None false None].

(** Proves [renderable] on a store that is given in full. *)
Ltac renderable_by_cases :=
  split;
  [ intros i n c N Hc;
    repeat (destruct i as [|i];
            [injection N as <-; cbn in Hc;
             repeat (apply elem_of_cons in Hc as [-> | Hc]; [vm_compute; lia|]);
             inversion Hc|]);
    inversion N
  | vm_compute; lia
  | intros i n N T;
    repeat (destruct i as [|i];
            [injection N as <-; first [discriminate T | discriminate]|]);
    inversion N
  | intros i n c N Nn Hc;
    repeat (destruct i as [|i];
            [injection N as <-; try discriminate Nn; cbn in Hc;
             repeat (apply elem_of_cons in Hc as [-> | Hc]; [vm_compute; lia|]);
             inversion Hc|]);
    inversion N ].

Lemma list_of_nodes_renderable :
  renderable (fun i => if (i =? 3)%nat then 1 else 0) list_of_nodes.
Proof. renderable_by_cases. Qed.

Lemma X12_witness :
  exists text st',
    generateType (H := example_host) 2 (example_options true) 3 list_of_nodes
    = Ok text st'
    /\ nodes st' = nodes list_of_nodes
    /\ processed st' = processed list_of_nodes.
Proof.
  apply (X12_generateType_returns_when_cycles_are_named example_host
           (example_options true) (fun i => if (i =? 3)%nat then 1 else 0)
           list_of_nodes 3 2).
  - exact list_of_nodes_renderable.
  - simpl. lia.
  - simpl. lia.
Defined.

(** ** The declaration walks *)

Section WalkPreserves.
Context `{Host}.
Context (R : relation State) `{!PreOrder R}.
Variable options : Options.
Variable gt : addr -> M string.
Variable rootASTName : option string.
Variable rec : addr -> M string.
Hypothesis gt_R : forall c, preserves R (gt c).
Hypothesis rec_R : forall c, preserves R (rec c).
Hypothesis add_R : forall c, preserves R (processed_add c).
Hypothesis alloc_R : forall n, preserves R (alloc n).

Lemma generateStandaloneEnum_preserves n :
  preserves R (generateStandaloneEnum options gt n).
Proof. unfold generateStandaloneEnum. frame. Qed.

Lemma generateStandaloneInterface_preserves n :
  preserves R (generateStandaloneInterface gt n).
Proof.
  pose proof (generateInterface_preserves R gt gt_R).
  unfold generateStandaloneInterface. frame.
Qed.

Lemma generateStandaloneType_preserves n :
  preserves R (generateStandaloneType gt n).
Proof. unfold generateStandaloneType, omit_standaloneName. frame. Qed.

Lemma declareEnums_body_preserves a :
  preserves R (declareEnums_body options gt rec a).
Proof.
  pose proof generateStandaloneEnum_preserves.
  unfold declareEnums_body. frame.
Qed.

Lemma declareNamedInterfaces_body_preserves a :
  preserves R (declareNamedInterfaces_body options gt rootASTName rec a).
Proof.
  pose proof generateStandaloneInterface_preserves.
  unfold declareNamedInterfaces_body. frame.
Qed.

Lemma declareNamedTypes_body_preserves a :
  preserves R (declareNamedTypes_body options gt rootASTName rec a).
Proof.
  pose proof generateStandaloneType_preserves.
  unfold declareNamedTypes_body. frame.
Qed.
End WalkPreserves.

(** From [st] to [st']: the nodes are what they were, and the set
    [processed] and the cache have lost nothing. *)
Definition marks : relation State :=
  fun st st' =>
    nodes st' = nodes st
    /\ processed st ⊆ processed st'
    /\ memo st ⊆ memo st'.

(** The same, but that new nodes may have come after the nodes that were
    there. *)
Definition copies : relation State :=
  fun st st' =>
    nodes st `prefix_of` nodes st'
    /\ processed st ⊆ processed st'
    /\ memo st ⊆ memo st'.

#[local] Instance marks_preorder : PreOrder marks.
Proof.
  split.
  - intros st. repeat split; reflexivity.
  - intros x y z (? & ? & ?) (? & ? & ?).
    repeat split; [congruence | etrans; eassumption..].
Qed.

#[local] Instance copies_preorder : PreOrder copies.
Proof.
  split.
  - intros st. repeat split; reflexivity.
  - intros x y z (? & ? & ?) (? & ? & ?).
    repeat split; etrans; eassumption.
Qed.

Lemma marks_copies st st' : marks st st' -> copies st st'.
Proof. intros (N & P & Mm). split; [rewrite N; reflexivity | auto]. Qed.

Lemma cache_grows_marks st st' : cache_grows st st' -> marks st st'.
Proof. intros (N & P & Mm). split; [exact N|]. split; [rewrite P|]; auto. Qed.

Lemma processed_add_marks c : preserves marks (processed_add c).
Proof.
  intros st x st' [= _ <-]. split; [reflexivity|].
  split; [simpl; set_solver | reflexivity].
Qed.

Lemma alloc_copies n : preserves copies (alloc n).
Proof.
  intros st x st' [= _ <-]. split; [apply prefix_app_r; reflexivity|].
  split; reflexivity.
Qed.

Lemma declareEnums_marks `{Host} fuel o a :
  preserves marks (declareEnums fuel o a).
Proof.
  revert a. induction fuel as [|fuel IH]; intros a; cbn [declareEnums].
  - apply preserves_diverge; typeclasses eauto.
  - apply declareEnums_body_preserves;
      [exact _ | | exact IH | apply processed_add_marks].
    intros c. eapply preserves_weaken; [apply cache_grows_marks|].
    apply generateType_cache_grows.
Qed.

Lemma declareNamedInterfaces_marks `{Host} fuel o root a :
  preserves marks (declareNamedInterfaces fuel o root a).
Proof.
  revert a. induction fuel as [|fuel IH]; intros a;
    cbn [declareNamedInterfaces].
  - apply preserves_diverge; typeclasses eauto.
  - apply declareNamedInterfaces_body_preserves;
      [exact _ | | exact IH | apply processed_add_marks].
    intros c. eapply preserves_weaken; [apply cache_grows_marks|].
    apply generateType_cache_grows.
Qed.

Lemma declareNamedTypes_copies `{Host} fuel o root a :
  preserves copies (declareNamedTypes fuel o root a).
Proof.
  revert a. induction fuel as [|fuel IH]; intros a; cbn [declareNamedTypes].
  - apply preserves_diverge; typeclasses eauto.
  - apply declareNamedTypes_body_preserves;
      [exact _ | | exact IH | | apply alloc_copies].
    + intros c. eapply preserves_weaken;
        [intros ? ? X; apply marks_copies, cache_grows_marks, X|].
      apply generateType_cache_grows.
    + intros c. eapply preserves_weaken; [apply marks_copies|].
      apply processed_add_marks.
Qed.

(** What the three walks do with a node they are called on again. *)
Lemma processed_has_true {B} a (k : bool -> M B) st :
  a ∈ processed st -> bind (processed_has a) k st = k true st.
Proof.
  intros P. unfold bind, processed_has.
  rewrite bool_decide_eq_true_2 by exact P. reflexivity.
Qed.

(** The node that a walk was called on is in [processed] when the walk
    returns, if [processed] only grows after the walk has put it there. *)
Lemma visited_after {B} (a : addr) (k : bool -> M B) st (b : B) st' :
  bind (processed_has a) k st = Ok b st' ->
  (a ∈ processed st -> k true st = Ok b st' -> a ∈ processed st') ->
  (a ∉ processed st -> k false st = Ok b st' -> a ∈ processed st') ->
  a ∈ processed st'.
Proof.
  unfold bind at 1, processed_has. intros E Ht Hf.
  destruct (decide (a ∈ processed st)) as [P | P].
  - rewrite bool_decide_eq_true_2 in E by exact P. auto.
  - rewrite bool_decide_eq_false_2 in E by exact P. auto.
Qed.

(** X13: [declareEnums] does not write the tree: a call that returns has left
    the nodes as they were, and has taken nothing from the set [processed]
    and from the cache.  The node it was called on is in [processed] then,
    so that a later call on it in the same pass returns the empty text and
    changes nothing: an enum is declared once. *)
Theorem X13_declareEnums_visits_a_node_once :
  forall (H : Host) (fuel : nat) (o : Options) (a : addr)
    (st : State) (text : string) (st' : State),
    declareEnums fuel o a st = Ok text st' ->
    nodes st' = nodes st
    /\ processed st ⊆ processed st'
    /\ memo st ⊆ memo st'
    /\ a ∈ processed st'
    /\ forall fuel' o', declareEnums (S fuel') o' a st' = Ok "" st'.
Proof.
  intros H fuel o a st text st' E.
  destruct (declareEnums_marks fuel o a st text st' E) as (N & P & Mm).
  assert (a ∈ processed st') as V.
  { destruct fuel as [|fuel]; [discriminate E|]. cbn [declareEnums] in E.
    unfold declareEnums_body in E. eapply visited_after; [exact E | |].
    - intros Pa _. apply P, Pa.
    - intros _ E'. apply bind_inv in E' as ([] & st1 & E1 & E').
      injection E1 as <-.
      assert (marks (mkState (nodes st) (memo st) ({[a]} ∪ processed st))
                st') as (_ & P' & _).
      { pose proof (declareEnums_marks fuel o).
        pose proof (generateStandaloneEnum_preserves marks o
                      (generateType fuel o)
                      (fun c => preserves_weaken _ _ _ cache_grows_marks
                                  (generateType_cache_grows fuel o c))).
        by_frame E'. }
      apply P'. simpl. set_solver. }
  repeat split; try assumption.
  intros fuel' o'. cbn [declareEnums]. unfold declareEnums_body.
  apply processed_has_true, V.
Qed.

Lemma X13_witness :
  exists text st',
    declareEnums (H := example_host) 6 options_declaring_all 3
      root_with_all_sections = Ok text st'
    /\ nodes st' = nodes root_with_all_sections
    /\ 3 ∈ processed st'
    /\ declareEnums (H := example_host) 1 options_declaring_all 3 st'
       = Ok "" st'.
Proof.
  eexists _, _. split; [vm_compute; reflexivity|].
  edestruct (X13_declareEnums_visits_a_node_once example_host 6
               options_declaring_all 3 root_with_all_sections)
    as (N & _ & _ & V & E); [vm_compute; reflexivity|].
  split; [exact N|]. split; [exact V | exact (E 0 options_declaring_all)].
Defined.

(** X14: [declareNamedInterfaces] does not write the tree either: a call that
    returns has left the nodes as they were, and has taken nothing from the
    set [processed] and from the cache.  The node it was called on is in
    [processed] then, so that a later call on it in the same pass returns
    the empty text and changes nothing: an interface is declared once. *)
Theorem X14_declareNamedInterfaces_visits_a_node_once :
  forall (H : Host) (fuel : nat) (o : Options) (root : option string)
    (a : addr) (st : State) (text : string) (st' : State),
    declareNamedInterfaces fuel o root a st = Ok text st' ->
    nodes st' = nodes st
    /\ processed st ⊆ processed st'
    /\ memo st ⊆ memo st'
    /\ a ∈ processed st'
    /\ forall fuel' o' root',
         declareNamedInterfaces (S fuel') o' root' a st' = Ok "" st'.
Proof.
  intros H fuel o root a st text st' E.
  destruct (declareNamedInterfaces_marks fuel o root a st text st' E)
    as (N & P & Mm).
  assert (a ∈ processed st') as V.
  { destruct fuel as [|fuel]; [discriminate E|].
    cbn [declareNamedInterfaces] in E.
    unfold declareNamedInterfaces_body in E.
    eapply visited_after; [exact E | |].
    - intros Pa _. apply P, Pa.
    - intros _ E'. apply bind_inv in E' as ([] & st1 & E1 & E').
      injection E1 as <-.
      assert (marks (mkState (nodes st) (memo st) ({[a]} ∪ processed st))
                st') as (_ & P' & _).
      { pose proof (declareNamedInterfaces_marks fuel o root).
        pose proof (generateStandaloneInterface_preserves marks
                      (generateType fuel o)
                      (fun c => preserves_weaken _ _ _ cache_grows_marks
                                  (generateType_cache_grows fuel o c))).
        by_frame E'. }
      apply P'. simpl. set_solver. }
  repeat split; try assumption.
  intros fuel' o' root'. cbn [declareNamedInterfaces].
  unfold declareNamedInterfaces_body. apply processed_has_true, V.
Qed.

Lemma X14_witness :
  exists text st',
    declareNamedInterfaces (H := example_host) 6 options_declaring_all
      (Some "Root") 3 root_with_all_sections = Ok text st'
    /\ nodes st' = nodes root_with_all_sections
    /\ 3 ∈ processed st'
    /\ declareNamedInterfaces (H := example_host) 1 options_declaring_all
         (Some "Root") 3 st'
       = Ok "" st'.
Proof.
  eexists _, _. split; [vm_compute; reflexivity|].
  edestruct (X14_declareNamedInterfaces_visits_a_node_once example_host 6
               options_declaring_all (Some "Root") 3 root_with_all_sections)
    as (N & _ & _ & V & E); [vm_compute; reflexivity|].
  split; [exact N|].
  split; [exact V | exact (E 0 options_declaring_all (Some "Root"))].
Defined.

(** X15: [declareNamedTypes] does not write the nodes of the tree.  A call that
    returns has left them as they were; it may have put new nodes after
    them (the copy without its standalone name that a named node is
    rendered from), and it has taken nothing from the set [processed] and
    from the cache.  The node it was called on is in [processed] then, so
    that a later call on it in the same pass returns the empty text and
    changes nothing: a type is declared once. *)
Theorem X15_declareNamedTypes_visits_a_node_once :
  forall (H : Host) (fuel : nat) (o : Options) (root : option string)
    (a : addr) (st : State) (text : string) (st' : State),
    declareNamedTypes fuel o root a st = Ok text st' ->
    nodes st `prefix_of` nodes st'
    /\ processed st ⊆ processed st'
    /\ memo st ⊆ memo st'
    /\ a ∈ processed st'
    /\ forall fuel' o' root',
         declareNamedTypes (S fuel') o' root' a st' = Ok "" st'.
Proof.
  intros H fuel o root a st text st' E.
  destruct (declareNamedTypes_copies fuel o root a st text st' E)
    as (N & P & Mm).
  assert (a ∈ processed st') as V.
  { destruct fuel as [|fuel]; [discriminate E|].
    cbn [declareNamedTypes] in E. unfold declareNamedTypes_body in E.
    eapply visited_after; [exact E | |].
    - intros Pa _. apply P, Pa.
    - intros _ E'. apply bind_inv in E' as ([] & st1 & E1 & E').
      injection E1 as <-.
      assert (copies (mkState (nodes st) (memo st) ({[a]} ∪ processed st))
                st') as (_ & P' & _).
      { pose proof (declareNamedTypes_copies fuel o root).
        assert (forall c, preserves copies (generateType fuel o c)) as G'.
        { intros c. eapply preserves_weaken;
            [intros ? ? X; apply marks_copies, cache_grows_marks, X|].
          apply generateType_cache_grows. }
        pose proof (generateStandaloneType_preserves copies
                      (generateType fuel o) G' alloc_copies).
        by_frame E'. }
      apply P'. simpl. set_solver. }
  repeat split; try assumption.
  intros fuel' o' root'. cbn [declareNamedTypes].
  unfold declareNamedTypes_body. apply processed_has_true, V.
Qed.

Lemma X15_witness :
  exists text st',
    declareNamedTypes (H := example_host) 6 options_declaring_all
      (Some "Root") 3 root_with_all_sections = Ok text st'
    /\ nodes root_with_all_sections `prefix_of` nodes st'
    /\ 3 ∈ processed st'
    /\ declareNamedTypes (H := example_host) 1 options_declaring_all
         (Some "Root") 3 st'
       = Ok "" st'.
Proof.
  eexists _, _. split; [vm_compute; reflexivity|].
  edestruct (X15_declareNamedTypes_visits_a_node_once example_host 6
               options_declaring_all (Some "Root") 3 root_with_all_sections)
    as (N & _ & _ & V & E); [vm_compute; reflexivity|].
  split; [exact N|].
  split; [exact V | exact (E 0 options_declaring_all (Some "Root"))].
Defined.

(** ** The walks and [generate] return *)

Definition superTypesOf (s : Shape) : list addr :=
  match s with
  | TInterface _ superTypes => superTypes
  | _ => []
  end.

(** The super types of every interface are nodes that have a standalone
    name, as the type [TNamedInterface] of the source asks. *)
Definition supers_named (st : State) : Prop :=
  forall i n s,
    nodes st !! i = Some n -> s ∈ superTypesOf (shape n) ->
    exists ns name, nodes st !! s = Some ns /\ standaloneName ns = Some name.

(** A store that the walks can go through: it is [renderable]; its first
    [base] nodes, which hold the constants, are the tree (their parameters
    are among them), with ranks below [k]; the nodes after them have the
    rank [k]. *)
Record declarable (rank : addr -> nat) (k base : nat) (st : State)
    : Prop := {
  declarable_renderable : renderable rank st;
  declarable_constants : T_UNKNOWN < base;
  declarable_base : base <= length (nodes st);
  declarable_closed :
    forall i n c,
      i < base -> nodes st !! i = Some n -> c ∈ refs (shape n) -> c < base;
  declarable_low : forall i, i < base -> rank i < k;
  declarable_high : forall i, base <= i -> rank i = k
}.

Lemma rendered_refs s c :
  c ∈ rendered s -> c ∈ refs s \/ c = T_ANY \/ c = T_UNKNOWN.
Proof.
  destruct s; cbn [rendered refs]; intros Hc; try (left; exact Hc).
  - apply elem_of_app in Hc as [Hc | Hc]; [|left; exact Hc].
    apply elem_of_cons in Hc as [-> | Hc]; [right; left; reflexivity|].
    apply list_elem_of_singleton in Hc as ->. right. right. reflexivity.
  - left. apply elem_of_app. left. exact Hc.
  - inversion Hc.
Qed.

Lemma declarable_rank_le rank k base st i :
  declarable rank k base st -> rank i <= k.
Proof.
  intros D. destruct (Nat.lt_ge_cases i base) as [L | L].
  - pose proof (declarable_low _ _ _ _ D i L). lia.
  - rewrite (declarable_high _ _ _ _ D i L). reflexivity.
Qed.

Lemma declarable_nodes rank k base st st' :
  nodes st' = nodes st ->
  declarable rank k base st -> declarable rank k base st'.
Proof.
  intros N [[C K E R] K3 B Cl Lo Hi].
  split; [split | ..]; rewrite ?N; assumption.
Qed.

Lemma supers_named_nodes st st' :
  nodes st' = nodes st -> supers_named st -> supers_named st'.
Proof. intros N S. unfold supers_named. rewrite N. exact S. Qed.

(** The store after [omit(ast, 'standaloneName')] has made a copy of a
    node of the tree that is no enum. *)
Lemma declarable_copy rank k base st i n mm pp :
  declarable rank k base st ->
  i < base ->
  nodes st !! i = Some n ->
  type n <> ENUM ->
  declarable rank k base
    (mkState
       (nodes st
        ++ [mkAST (shape n) None (comment n) (deprecated n) (keyName n)])
       mm pp).
Proof.
  intros D Li N Ne. pose proof D as [[C K E R] K3 B Cl Lo Hi].
  assert (forall c, c ∈ refs (shape n) -> c < base) as Rn
      by (intros c; apply (Cl i n c Li N)).
  split; [split | ..]; cbn [nodes].
  - intros j x c X Hc. rewrite length_app. cbn [length].
    apply lookup_app_Some in X as [X | [Lj X]].
    + pose proof (C j x c X Hc). lia.
    + apply list_lookup_singleton_Some in X as [_ <-]. cbn [shape] in Hc.
      pose proof (Rn c Hc). lia.
  - rewrite length_app. lia.
  - intros j x X T.
    apply lookup_app_Some in X as [X | [Lj X]]; [exact (E j x X T)|].
    apply list_lookup_singleton_Some in X as [_ <-]. contradiction.
  - intros j x c X Nx Hc.
    apply lookup_app_Some in X as [X | [Lj X]]; [exact (R j x c X Nx Hc)|].
    apply list_lookup_singleton_Some in X as [_ <-]. cbn [shape] in Hc.
    rewrite (Hi j) by lia. apply Lo.
    destruct (rendered_refs _ _ Hc) as [Hr | [-> | ->]];
      [apply Rn, Hr | unfold T_ANY, T_UNKNOWN in *; lia | exact K3].
  - exact K3.
  - rewrite length_app. lia.
  - intros j x c Lj X Hc. rewrite lookup_app_l in X by lia.
    exact (Cl j x c Lj X Hc).
  - exact Lo.
  - exact Hi.
Qed.

Lemma supers_named_copy st i n mm pp :
  supers_named st ->
  nodes st !! i = Some n ->
  supers_named
    (mkState
       (nodes st
        ++ [mkAST (shape n) None (comment n) (deprecated n) (keyName n)])
       mm pp).
Proof.
  intros S N j x s X Hs. cbn [nodes] in *.
  apply lookup_app_Some in X as [X | [Lj X]].
  - destruct (S j x s X Hs) as (ns & name & Ns & Nm).
    exists ns, name. split; [apply lookup_app_l_Some, Ns | exact Nm].
  - apply list_lookup_singleton_Some in X as [_ <-]. cbn [shape] in Hs.
    destruct (S i n s N Hs) as (ns & name & Ns & Nm).
    exists ns, name. split; [apply lookup_app_l_Some, Ns | exact Nm].
Qed.

(** The nodes of the tree that are not in [processed]. *)
Definition unprocessed (base : nat) (st : State) : gset nat :=
  (set_seq 0 base : gset nat) ∖ processed st.

Lemma unprocessed_mono base st st' :
  processed st ⊆ processed st' ->
  size (unprocessed base st') <= size (unprocessed base st).
Proof.
  intros P. apply subseteq_size. unfold unprocessed.
  intros i. rewrite !elem_of_difference. intros [Hi Hn].
  split; [exact Hi|]. intros Hp. apply Hn, P, Hp.
Qed.

Lemma unprocessed_add base st a :
  a < base -> a ∉ processed st ->
  size (unprocessed base
          (mkState (nodes st) (memo st) ({[a]} ∪ processed st)))
  < size (unprocessed base st).
Proof.
  intros V P. apply subset_size. unfold unprocessed. cbn [processed].
  split.
  - intros i. rewrite !elem_of_difference, elem_of_union.
    intros [Hi Hn]. split; [exact Hi|]. intros Hp. apply Hn. right. exact Hp.
  - intros Sub. specialize (Sub a).
    rewrite !elem_of_difference, elem_of_union, elem_of_set_seq in Sub.
    destruct Sub as [_ Sub]; [split; [lia | exact P]|].
    apply Sub. left. apply elem_of_singleton. reflexivity.
Qed.

(** From [st] to [st']: the set [processed] has lost nothing, and a store
    that was [declarable] still is. *)
Definition visits (rank : addr -> nat) (k base : nat) : relation State :=
  fun st st' =>
    processed st ⊆ processed st'
    /\ (declarable rank k base st -> declarable rank k base st').

#[local] Instance visits_preorder rank k base : PreOrder (visits rank k base).
Proof.
  split.
  - intros st. split; [reflexivity | auto].
  - intros x y z [P1 D1] [P2 D2]. split; [etrans; eassumption | auto].
Qed.

Lemma memo_only_visits rank k base st st' :
  memo_only st st' -> visits rank k base st st'.
Proof.
  intros [N P]. split; [rewrite P; reflexivity|].
  apply declarable_nodes, N.
Qed.

(** From [st] to [st']: the nodes are what they were, with new nodes after
    them; the set [processed] has lost nothing; and a store that was
    [declarable], or had its super types named, is so still. *)
Definition grown (rank : addr -> nat) (k base : nat) : relation State :=
  fun st st' =>
    nodes st `prefix_of` nodes st'
    /\ processed st ⊆ processed st'
    /\ (declarable rank k base st -> declarable rank k base st')
    /\ (supers_named st -> supers_named st').

#[local] Instance grown_preorder rank k base : PreOrder (grown rank k base).
Proof.
  split.
  - intros st. split; [reflexivity|]. split; [reflexivity|]. split; auto.
  - intros x y z (N1 & P1 & D1 & S1) (N2 & P2 & D2 & S2).
    split; [etrans; eassumption|]. split; [etrans; eassumption|].
    split; auto.
Qed.

Lemma grown_visits rank k base st st' :
  grown rank k base st st' -> visits rank k base st st'.
Proof. intros (_ & P & D & _). split; assumption. Qed.

Lemma memo_only_grown rank k base st st' :
  memo_only st st' -> grown rank k base st st'.
Proof.
  intros [N P]. split; [rewrite N; reflexivity|].
  split; [rewrite P; reflexivity|].
  split; [apply declarable_nodes, N | apply supers_named_nodes, N].
Qed.

Section WalksReturn.
Context `{Host}.
Variable rank : addr -> nat.
Variables k base : nat.
Variable o : Options.

Lemma generateType_declarable fuel st c :
  declarable rank k base st ->
  c < length (nodes st) ->
  k < fuel ->
  total (generateType fuel o c) st (fun _ st' => memo_only st st').
Proof.
  intros D V L. apply (generateType_total rank);
    [apply (declarable_renderable _ _ _ _ D) | exact V|].
  pose proof (declarable_rank_le _ _ _ _ c D). lia.
Qed.

Lemma generateStandaloneEnum_total fuel st a n :
  declarable rank k base st ->
  nodes st !! a = Some n ->
  type n = ENUM ->
  k < fuel ->
  total (generateStandaloneEnum o (generateType fuel o) n) st
    (fun _ st' => memo_only st st').
Proof.
  intros D N T L. pose proof (declarable_renderable _ _ _ _ D) as G.
  pose proof (renderable_enums _ _ G _ _ N T) as Nm.
  unfold generateStandaloneEnum. unfold type in T.
  destruct (shape n) as [ | | | | | | | | v | x | x | e | ps mn mx sp | ps
                         | ps | ms sup | es ] eqn:Sh;
    try discriminate T.
  destruct (standaloneName n) as [name|]; [|contradiction].
  apply total_bind. eapply total_mono.
  - apply (total_mapM memo_only (fun _ _ => True)).
    intros p st1 Hp M1. apply total_bind. eapply total_mono.
    + apply generateType_declarable;
        [eapply declarable_nodes; [apply M1 | exact D] | | exact L].
      destruct M1 as [N1 _]. rewrite N1.
      eapply (renderable_closed _ _ G); [exact N|]. rewrite Sh.
      cbn [refs]. apply list_elem_of_fmap. exists p. split; auto.
    + intros ty st2 M2. cbv beta in M2. apply total_ret.
      split; [exact M2 | exact I].
  - intros members st1 [M1 _]. apply total_ret. exact M1.
Qed.

Lemma generateStandaloneInterface_total fuel st a n :
  declarable rank k base st ->
  supers_named st ->
  nodes st !! a = Some n ->
  type n = INTERFACE ->
  hasStandaloneName n = true ->
  k < fuel ->
  total (generateStandaloneInterface (generateType fuel o) n) st
    (fun _ st' => memo_only st st').
Proof.
  intros D S N T Nm L. pose proof (declarable_renderable _ _ _ _ D) as G.
  unfold generateStandaloneInterface. unfold hasStandaloneName in Nm.
  unfold type in T.
  destruct (shape n) as [ | | | | | | | | v | x | x | e | ps mn mx sp | ps
                         | ps | ms sup | es ] eqn:Sh;
    try discriminate T.
  destruct (standaloneName n) as [name|]; [|discriminate Nm].
  apply total_bind. eapply total_mono.
  - apply (total_mapM eq (fun _ _ => True)).
    intros s st1 Hs <-.
    destruct (S a n s N) as (ns & x & Ns & Nx);
      [rewrite Sh; exact Hs|].
    exists (toSafeString x), st. split; [|split; [reflexivity | exact I]].
    rewrite (get_node_ok _ _ _ _ Ns), Nx. reflexivity.
  - intros supers st1 [<- _]. apply total_bind. eapply total_mono.
    + apply (generateInterface_total rank (generateType fuel o) fuel);
        [ | exact G | ].
      * intros c st1 G1 [V1 L1].
        apply (generateType_total rank); assumption.
      * intros m Hm. split.
        -- eapply (renderable_closed _ _ G); [exact N|]. rewrite Sh.
           cbn [refs]. apply elem_of_app. left. apply list_elem_of_fmap.
           exists m. split; auto.
        -- pose proof (declarable_rank_le _ _ _ _ (p_ast m) D). lia.
    + intros body st1 M1. cbv beta in M1. apply total_ret. exact M1.
Qed.

Lemma generateStandaloneType_total fuel st a n :
  declarable rank k base st ->
  a < base ->
  nodes st !! a = Some n ->
  hasStandaloneName n = true ->
  type n <> ENUM ->
  k < fuel ->
  total (generateStandaloneType (generateType fuel o) n) st
    (fun _ st' => grown rank k base st st').
Proof.
  intros D V N Nm T L. unfold generateStandaloneType.
  unfold hasStandaloneName in Nm.
  destruct (standaloneName n) as [name|]; [|discriminate Nm].
  unfold omit_standaloneName. apply total_bind.
  eexists _, _. split; [apply alloc_ok|].
  pose proof (declarable_copy _ _ _ _ _ _ (memo st) (processed st) D V N T)
    as D1.
  apply total_bind. eapply total_mono.
  - apply generateType_declarable; [exact D1 | | exact L].
    cbn [nodes]. rewrite length_app. cbn [length]. lia.
  - intros ty st2 [N2 P2]. apply total_ret. split; [|split; [|split]].
    + rewrite N2. apply prefix_app_r. reflexivity.
    + rewrite P2. reflexivity.
    + intros _. eapply declarable_nodes; [exact N2 | exact D1].
    + intros S. eapply supers_named_nodes; [exact N2|].
      apply (supers_named_copy _ a); assumption.
Qed.

(** The calls of a walk on the nodes of [l]; [f] is the walk, or the
    walk behind a test. *)
Lemma mapM_walk (R : relation State) `{!PreOrder R}
    (f : addr -> M string) (Q : string -> Prop) (l : list addr)
    (fuel : nat) st :
  (forall st1 st2, R st1 st2 -> visits rank k base st1 st2) ->
  (forall c st1,
      c < base -> R st st1 -> declarable rank k base st1 ->
      size (unprocessed base st1) + k < fuel ->
      total (f c) st1 (fun t st2 => R st1 st2 /\ Q t)) ->
  declarable rank k base st ->
  (forall c, c ∈ l -> c < base) ->
  size (unprocessed base st) + k < fuel ->
  total (mapM f l) st (fun ts st' => R st st' /\ Forall Q ts).
Proof.
  intros RV F D V Sz. eapply total_mono.
  - apply (total_mapM R (fun _ t => Q t)).
    intros c st1 Hc R1. destruct (RV _ _ R1) as [P1 D1].
    apply F; [apply V, Hc | exact R1 | apply D1, D|].
    pose proof (unprocessed_mono base _ _ P1). lia.
  - intros ts st' [R' F2]. split; [exact R'|].
    clear -F2. induction F2; constructor; assumption.
Qed.

Lemma nonEmpty_empty (ts : list string) :
  Forall (fun t => t = "") ts -> nonEmpty ts = [].
Proof.
  induction 1 as [|t ts -> F IH]; [reflexivity|]. exact IH.
Qed.

Lemma concat_empty (ts : list string) :
  Forall (fun t => t = "") ts -> join "" ts = "".
Proof.
  induction 1 as [|t ts -> F IH]; [reflexivity|].
  destruct ts as [|t' ts]; [reflexivity|].
  change (join "" ("" :: t' :: ts)) with ("" +:+ "" +:+ join "" (t' :: ts)).
  rewrite IH. reflexivity.
Qed.

(** A walk that comes to a node that is not in [processed] puts it there,
    reads it, and goes on. *)
Lemma walk_enter {B} a (seen : M B) (kk : AST -> M B) st n :
  a ∉ processed st ->
  nodes st !! a = Some n ->
  (let* b := processed_has a in
   if b then seen else processed_add a ;; let* x := get_node a in kk x) st
  = kk n (mkState (nodes st) (memo st) ({[a]} ∪ processed st)).
Proof.
  intros P N. unfold bind at 1, processed_has.
  rewrite bool_decide_eq_false_2 by exact P.
  unfold bind at 1, processed_add. unfold bind, get_node. cbn [nodes].
  rewrite N. reflexivity.
Qed.

(** From [st] to [st']: the nodes are what they were, and the set
    [processed] has lost nothing. *)
Definition same_tree : relation State :=
  fun st st' => nodes st' = nodes st /\ processed st ⊆ processed st'.

#[local] Instance same_tree_preorder : PreOrder same_tree.
Proof.
  split.
  - intros st. split; reflexivity.
  - intros x y z [N1 P1] [N2 P2]. split; [congruence | etrans; eassumption].
Qed.

Lemma same_tree_visits st st' : same_tree st st' -> visits rank k base st st'.
Proof. intros [N P]. split; [exact P | apply declarable_nodes, N]. Qed.

Lemma memo_only_same_tree st st' : memo_only st st' -> same_tree st st'.
Proof. intros [N P]. split; [exact N | rewrite P; reflexivity]. Qed.

(** No node of the store is an enum. *)
Definition no_enum (st : State) : Prop :=
  forall i n, nodes st !! i = Some n -> type n <> ENUM.

Lemma declareEnums_total fuel :
  forall st a,
    declarable rank k base st ->
    a < base ->
    size (unprocessed base st) + k < fuel ->
    total (declareEnums fuel o a) st
      (fun t st' => same_tree st st' /\ (no_enum st -> t = "")).
Proof.
  induction fuel as [|fuel IH]; intros st a D V Sz; [lia|].
  cbn [declareEnums]. unfold declareEnums_body.
  destruct (decide (a ∈ processed st)) as [P | P].
  { exists "", st. split; [apply processed_has_true, P|].
    split; [reflexivity | auto]. }
  destruct (lookup_lt_is_Some_2 (nodes st) a) as [n N];
    [pose proof (declarable_base _ _ _ _ D); lia|].
  unfold total. rewrite (walk_enter _ _ _ _ _ P N).
  set (st1 := mkState (nodes st) (memo st) ({[a]} ∪ processed st)).
  assert (same_tree st st1) as R1 by (split; [reflexivity | set_solver]).
  assert (declarable rank k base st1) as D1
      by (eapply declarable_nodes; [|exact D]; reflexivity).
  pose proof (unprocessed_add base st a V P) as Sz1. fold st1 in Sz1.
  assert (forall c, c ∈ refs (shape n) -> c < base) as Rn
      by (intros c; apply (declarable_closed _ _ _ _ D a n c V N)).
  assert (forall l,
             (forall c, c ∈ l -> c < base) ->
             total (mapM (declareEnums fuel o) l) st1
               (fun ts st' => same_tree st1 st'
                              /\ Forall (fun t => no_enum st -> t = "") ts))
    as Children.
  { intros l Vl.
    apply (mapM_walk same_tree _ _ _ fuel);
      [apply same_tree_visits | | exact D1 | exact Vl | lia].
    intros c st2 Vc [N2 _] D2 Sz2. eapply total_mono; [apply IH; assumption|].
    intros t st3 [R3 E]. split; [exact R3|]. intros NE. apply E.
    intros i x X. rewrite N2 in X. apply (NE i x X). }
  assert (forall ts, Forall (fun t => no_enum st -> t = "") ts ->
                     no_enum st -> join "" ts = "") as Empty.
  { intros ts F NE. apply concat_empty.
    eapply Forall_impl; [exact F|]. intros t E. exact (E NE). }
  fold_total.
  eapply total_mono with
    (Q := fun t st' => same_tree st1 st' /\ (no_enum st -> t = ""));
    [|intros t st' [R' E]; split; [etrans; eassumption | exact E]].
  destruct (shape n) as [ | | | | | | | | v | x | x | e | ps mn mx sp | ps
                         | ps | ms sup | es ] eqn:Sh;
    try (apply total_ret; split; [reflexivity | auto]).
  - eapply total_mono; [apply IH; [exact D1 | apply Rn; left | lia]|].
    intros t st' [R' E]. split; [exact R'|]. intros NE. apply E.
    intros i x X. apply (NE i x X).
  - apply total_bind. eapply total_mono.
    { apply (Children ps). intros c Hc. apply Rn. cbn [refs].
      apply elem_of_app. left. exact Hc. }
    intros ts st2 [R2 F]. destruct sp as [s|].
    + apply total_bind. eapply total_mono.
      * apply IH; [apply (same_tree_visits _ _ R2), D1 | |].
        -- apply Rn. cbn [refs]. apply elem_of_app. right. left.
        -- pose proof (unprocessed_mono base _ _ (proj2 R2)). lia.
      * intros t st3 [R3 E]. apply total_ret.
        split; [etrans; eassumption|]. intros NE.
        rewrite (Empty ts F NE). rewrite E; [reflexivity|].
        intros i x X. rewrite (proj1 R2) in X. apply (NE i x X).
    + apply total_ret. split; [exact R2 | apply Empty, F].
  - apply total_bind. eapply total_mono; [apply (Children ps), Rn|].
    intros ts st2 [R2 F]. apply total_ret.
    split; [exact R2 | apply Empty, F].
  - apply total_bind. eapply total_mono; [apply (Children ps), Rn|].
    intros ts st2 [R2 F]. apply total_ret.
    split; [exact R2 | apply Empty, F].
  - apply total_bind. eapply total_mono;
      [apply (Children (getSuperTypesAndParams ms sup)), Rn|].
    intros ts st2 [R2 F]. apply total_ret.
    split; [exact R2 | apply Empty, F].
  - apply total_bind. eapply total_mono.
    + apply (generateStandaloneEnum_total fuel st1 a n D1 N);
        [unfold type; rewrite Sh; reflexivity | lia].
    + intros t st2 M2. cbv beta in M2. apply total_ret.
      split; [apply memo_only_same_tree, M2|]. intros NE. exfalso.
      apply (NE a n N). unfold type. rewrite Sh. reflexivity.
Qed.

Lemma declareNamedInterfaces_total root fuel :
  forall st a,
    declarable rank k base st ->
    supers_named st ->
    a < base ->
    size (unprocessed base st) + k < fuel ->
    total (declareNamedInterfaces fuel o root a) st
      (fun _ st' => same_tree st st').
Proof.
  induction fuel as [|fuel IH]; intros st a D S V Sz; [lia|].
  cbn [declareNamedInterfaces]. unfold declareNamedInterfaces_body.
  destruct (decide (a ∈ processed st)) as [P | P].
  { exists "", st. split; [apply processed_has_true, P | reflexivity]. }
  destruct (lookup_lt_is_Some_2 (nodes st) a) as [n N];
    [pose proof (declarable_base _ _ _ _ D); lia|].
  unfold total. rewrite (walk_enter _ _ _ _ _ P N).
  set (st1 := mkState (nodes st) (memo st) ({[a]} ∪ processed st)).
  assert (same_tree st st1) as R1 by (split; [reflexivity | set_solver]).
  assert (declarable rank k base st1) as D1
      by (eapply declarable_nodes; [|exact D]; reflexivity).
  pose proof (unprocessed_add base st a V P) as Sz1. fold st1 in Sz1.
  assert (forall c, c ∈ refs (shape n) -> c < base) as Rn
      by (intros c; apply (declarable_closed _ _ _ _ D a n c V N)).
  assert (forall l st2,
             same_tree st1 st2 ->
             (forall c, c ∈ l -> c < base) ->
             total (mapM (declareNamedInterfaces fuel o root) l) st2
               (fun ts st' => same_tree st2 st' /\ Forall (fun _ => True) ts))
    as Children.
  { intros l st2 R2 Vl.
    assert (declarable rank k base st2) as D2
        by (apply (same_tree_visits _ _ R2), D1).
    pose proof (unprocessed_mono base _ _ (proj2 R2)).
    apply (mapM_walk same_tree _ _ _ fuel);
      [apply same_tree_visits | | exact D2 | exact Vl | lia].
    intros c st3 Vc [N3 _] D3 Sz3. eapply total_mono.
    - apply IH; try assumption.
      eapply supers_named_nodes; [|exact S]. rewrite N3. apply R2.
    - intros t st4 R4. split; [exact R4 | exact I]. }
  fold_total.
  eapply total_mono with (Q := fun _ st' => same_tree st1 st');
    [|intros t st' R'; etrans; eassumption].
  destruct (shape n) as [ | | | | | | | | v | x | x | e | ps mn mx sp | ps
                         | ps | ms sup | es ] eqn:Sh;
    try (apply total_ret; reflexivity).
  - apply IH; [exact D1 | exact S | apply Rn; left | lia].
  - apply total_bind. eapply total_mono.
    { apply (Children ps st1); [reflexivity|]. intros c Hc. apply Rn.
      cbn [refs]. apply elem_of_app. left. exact Hc. }
    intros ts st2 [R2 _]. destruct sp as [s|].
    + apply total_bind. eapply total_mono.
      * apply IH; [apply (same_tree_visits _ _ R2), D1 | | |].
        -- eapply supers_named_nodes; [apply R2 | exact S].
        -- apply Rn. cbn [refs]. apply elem_of_app. right. left.
        -- pose proof (unprocessed_mono base _ _ (proj2 R2)). lia.
      * intros t st3 R3. apply total_ret. etrans; eassumption.
    + apply total_ret. exact R2.
  - apply total_bind. eapply total_mono;
      [apply (Children ps st1); [reflexivity | exact Rn]|].
    intros ts st2 [R2 _]. apply total_ret. exact R2.
  - apply total_bind. eapply total_mono;
      [apply (Children ps st1); [reflexivity | exact Rn]|].
    intros ts st2 [R2 _]. apply total_ret. exact R2.
  - apply total_bind.
    eapply total_mono with (Q := fun _ st' => same_tree st1 st').
    + destruct (hasStandaloneName n && _) eqn:C;
        [|apply total_ret; reflexivity].
      apply andb_true_iff in C as [C _]. eapply total_mono.
      * apply (generateStandaloneInterface_total fuel st1 a n D1 S N);
          [unfold type; rewrite Sh; reflexivity | exact C | lia].
      * intros t st2 M2. apply memo_only_same_tree, M2.
    + intros own st2 R2. cbv beta in R2. apply total_bind.
      eapply total_mono;
        [apply (Children (getSuperTypesAndParams ms sup) st2);
         [exact R2 | exact Rn]|].
      intros ts st3 [R3 _]. apply total_ret. etrans; eassumption.
Qed.

Lemma declareNamedTypes_total root fuel :
  forall st a,
    declarable rank k base st ->
    a < base ->
    size (unprocessed base st) + k < fuel ->
    total (declareNamedTypes fuel o root a) st
      (fun _ st' => grown rank k base st st').
Proof.
  induction fuel as [|fuel IH]; intros st a D V Sz; [lia|].
  cbn [declareNamedTypes]. unfold declareNamedTypes_body.
  destruct (decide (a ∈ processed st)) as [P | P].
  { exists "", st. split; [apply processed_has_true, P | reflexivity]. }
  destruct (lookup_lt_is_Some_2 (nodes st) a) as [n N];
    [pose proof (declarable_base _ _ _ _ D); lia|].
  unfold total. rewrite (walk_enter _ _ _ _ _ P N).
  set (st1 := mkState (nodes st) (memo st) ({[a]} ∪ processed st)).
  assert (grown rank k base st st1) as R1.
  { split; [reflexivity|]. split; [simpl; set_solver|].
    split; [apply declarable_nodes | apply supers_named_nodes]; reflexivity. }
  assert (declarable rank k base st1) as D1 by (apply R1, D).
  pose proof (unprocessed_add base st a V P) as Sz1. fold st1 in Sz1.
  assert (forall c, c ∈ refs (shape n) -> c < base) as Rn
      by (intros c; apply (declarable_closed _ _ _ _ D a n c V N)).
  assert (forall st2,
             grown rank k base st1 st2 ->
             declarable rank k base st2
             /\ size (unprocessed base st2) + k < fuel
             /\ nodes st2 !! a = Some n) as After.
  { intros st2 (N2 & P2 & D2 & _). split; [apply D2, D1|].
    pose proof (unprocessed_mono base _ _ P2).
    split; [lia|]. eapply prefix_lookup_Some; [exact N | exact N2]. }
  assert (forall c st2,
             grown rank k base st1 st2 -> c < base ->
             total (declareNamedTypes fuel o root c) st2
               (fun _ st' => grown rank k base st2 st')) as Child.
  { intros c st2 R2 Vc. destruct (After st2 R2) as (D2 & Sz2 & _).
    apply IH; assumption. }
  assert (forall (f : addr -> M string) l st2,
             (forall c st3,
                 grown rank k base st1 st3 -> c < base ->
                 total (f c) st3 (fun _ st' => grown rank k base st3 st')) ->
             grown rank k base st1 st2 ->
             (forall c, c ∈ l -> c < base) ->
             total (mapM f l) st2
               (fun ts st' => grown rank k base st2 st'
                              /\ Forall (fun _ => True) ts))
    as Children.
  { intros f l st2 F R2 Vl. destruct (After st2 R2) as (D2 & Sz2 & _).
    apply (mapM_walk (grown rank k base) _ _ _ fuel);
      [apply grown_visits | | exact D2 | exact Vl | exact Sz2].
    intros c st3 Vc R3 D3 Sz3. eapply total_mono.
    - apply F; [etrans; eassumption | exact Vc].
    - intros t st4 R4. split; [exact R4 | exact I]. }
  assert (type n <> ENUM ->
          forall st2,
            grown rank k base st1 st2 ->
            total (if hasStandaloneName n
                   then generateStandaloneType (generateType fuel o) n
                   else ret "") st2
              (fun _ st' => grown rank k base st2 st')) as Standalone.
  { intros T st2 R2. destruct (After st2 R2) as (D2 & Sz2 & N2).
    destruct (hasStandaloneName n) eqn:Nm; [|apply total_ret; reflexivity].
    apply (generateStandaloneType_total fuel st2 a n); try assumption. lia. }
  fold_total.
  eapply total_mono with (Q := fun _ st' => grown rank k base st1 st');
    [|intros t st' R'; etrans; eassumption].
  cbv zeta.
  destruct (shape n) as [ | | | | | | | | v | x | x | e | ps mn mx sp | ps
                         | ps | ms sup | es ] eqn:Sh;
    try (apply Standalone;
         [unfold type; rewrite Sh; discriminate | reflexivity]).
  - apply total_bind. eapply total_mono;
      [apply (Child e st1); [reflexivity | apply Rn; left]|].
    intros inner st2 R2. cbv beta in R2. apply total_bind. eapply total_mono.
    + apply Standalone; [unfold type; rewrite Sh; discriminate | exact R2].
    + intros own st3 R3. apply total_ret. etrans; eassumption.
  - apply total_bind. eapply total_mono.
    { apply Standalone;
        [unfold type; rewrite Sh; discriminate | reflexivity]. }
    intros own st2 R2. cbv beta in R2. apply total_bind. eapply total_mono.
    { apply (Children (declareNamedTypes fuel o root) ps st2);
        [exact Child | exact R2|].
      intros c Hc. apply Rn. cbn [refs]. apply elem_of_app. left. exact Hc. }
    intros ts st3 [R3 _]. apply total_bind.
    eapply total_mono with (Q := fun _ st' => grown rank k base st3 st').
    + destruct sp as [s|]; [|apply total_ret; reflexivity].
      apply Child; [etrans; eassumption|].
      apply Rn. cbn [refs]. apply elem_of_app. right. left.
    + intros spread st4 R4. apply total_ret.
      etrans; [exact R2|]. etrans; eassumption.
  - apply total_bind. eapply total_mono.
    { apply Standalone;
        [unfold type; rewrite Sh; discriminate | reflexivity]. }
    intros own st2 R2. cbv beta in R2. apply total_bind. eapply total_mono.
    { apply (Children (declareNamedTypes fuel o root) ps st2);
        [exact Child | exact R2 | exact Rn]. }
    intros ts st3 [R3 _]. apply total_ret. etrans; eassumption.
  - apply total_bind. eapply total_mono.
    { apply Standalone;
        [unfold type; rewrite Sh; discriminate | reflexivity]. }
    intros own st2 R2. cbv beta in R2. apply total_bind. eapply total_mono.
    { apply (Children (declareNamedTypes fuel o root) ps st2);
        [exact Child | exact R2 | exact Rn]. }
    intros ts st3 [R3 _]. apply total_ret. etrans; eassumption.
  - apply total_bind. eapply total_mono.
    { apply (Children _ (getSuperTypesAndParams ms sup) st1);
        [ | reflexivity | exact Rn ].
      intros c st3 R3 Vc. destruct (After st3 R3) as (D3 & _ & _).
      destruct (lookup_lt_is_Some_2 (nodes st3) c) as [nc Nc];
        [pose proof (declarable_base _ _ _ _ D3); lia|].
      unfold total. rewrite (get_node_ok _ _ _ _ Nc). fold_total.
      destruct (_ || _); [apply Child; assumption|].
      apply total_ret. reflexivity. }
    intros ts st2 [R2 _]. apply total_ret. exact R2.
  - apply total_ret. reflexivity.
Qed.
End WalksReturn.

Lemma unprocessed_bound base st : size (unprocessed base st) <= base.
Proof.
  transitivity (size (set_seq 0 base : gset nat)).
  - apply subseteq_size. unfold unprocessed. intros i.
    rewrite elem_of_difference. tauto.
  - rewrite size_set_seq. reflexivity.
Qed.

(** The rank that is [rank] on the first [base] nodes and [k] after
    them. *)
Definition rank_from (rank : addr -> nat) (k base : nat) (i : addr) : nat :=
  if (i <? base)%nat then rank i else k.

(** A store that is [renderable], with ranks below [k], is [declarable],
    all of it being the tree. *)
Lemma declarable_start rank k st :
  renderable rank st ->
  (forall i, i < length (nodes st) -> rank i < k) ->
  declarable (rank_from rank k (length (nodes st))) k (length (nodes st)) st.
Proof.
  intros [C K E R] B.
  assert (forall i, i < length (nodes st) ->
                    rank_from rank k (length (nodes st)) i = rank i) as Low.
  { intros i Li. unfold rank_from.
    destruct (Nat.ltb_spec i (length (nodes st))); [reflexivity | lia]. }
  split; [split | ..]; try assumption.
  - intros i n c N Nn Hc.
    rewrite (Low i) by (eapply lookup_lt_Some, N).
    rewrite (Low c); [exact (R i n c N Nn Hc)|].
    destruct (rendered_refs _ _ Hc) as [Hr | [-> | ->]];
      [exact (C i n c N Hr) | unfold T_ANY, T_UNKNOWN in *; lia | exact K].
  - reflexivity.
  - intros i n c _ N Hc. exact (C i n c N Hc).
  - intros i Li. rewrite (Low i Li). apply B, Li.
  - intros i Li. unfold rank_from.
    destruct (Nat.ltb_spec i (length (nodes st))); [lia | reflexivity].
Qed.

Lemma generate_total `{Host} rank k base o fuel st a :
  declarable rank k base st ->
  supers_named st ->
  a < base ->
  base + k < fuel ->
  total (generate fuel o a) st
    (fun text _ =>
       startsWith prefix text = true /\ endsWith text "010"%char = true).
Proof.
  intros D S V L.
  destruct (lookup_lt_is_Some_2 (nodes st) a) as [n N];
    [pose proof (declarable_base _ _ _ _ D); lia|].
  assert (forall st0, size (unprocessed base (reset st0)) + k < fuel) as Sz.
  { intros st0. pose proof (unprocessed_bound base (reset st0)). lia. }
  unfold generate, total. rewrite (get_node_ok _ _ _ _ N). fold_total.
  apply total_bind. eapply total_mono.
  { apply (declareNamedTypes_total rank k base o (standaloneName n) fuel
             (reset st) a); [|exact V | apply Sz].
    eapply declarable_nodes; [|exact D]. reflexivity. }
  intros types st1 (_ & _ & D1 & S1).
  assert (declarable rank k base st1) as D1'.
  { apply D1. eapply declarable_nodes; [|exact D]. reflexivity. }
  assert (supers_named st1) as S1'.
  { apply S1. eapply supers_named_nodes; [|exact S]. reflexivity. }
  apply total_bind. eapply total_mono.
  { apply (declareNamedInterfaces_total rank k base o (standaloneName n) fuel
             (reset st1) a); [| |exact V | apply Sz].
    - eapply declarable_nodes; [|exact D1']. reflexivity.
    - eapply supers_named_nodes; [|exact S1']. reflexivity. }
  intros interfaces st2 [N2 _]. apply total_bind. eapply total_mono.
  { apply (declareEnums_total rank k base o fuel (reset st2) a);
      [|exact V | apply Sz].
    eapply declarable_nodes; [|exact D1']. exact N2. }
  intros enums st3 _. apply total_ret. unfold sections. split.
  - apply startsWith_app.
  - rewrite <- append_assoc. apply endsWith_app_char.
Qed.

(** X16: [declareEnums] returns on every store that the renderer can go through,
    cyclic or shared as it may be, from each of its nodes, with a recursion
    budget above the number of nodes and the ranks; it leaves the nodes as
    they were.  In a store with no enum, what it returns is the empty
    text. *)
Theorem X16_declareEnums_returns :
  forall (H : Host) (o : Options) (rank : addr -> nat) (k : nat)
    (st : State) (a : addr) (fuel : nat),
    renderable rank st ->
    (forall i, i < length (nodes st) -> rank i < k) ->
    a < length (nodes st) ->
    length (nodes st) + k < fuel ->
    exists text st',
      declareEnums fuel o a st = Ok text st'
      /\ nodes st' = nodes st
      /\ (no_enum st -> text = "").
Proof.
  intros H o rank k st a fuel G B V L.
  destruct (declareEnums_total _ _ _ o fuel st a (declarable_start _ _ _ G B)
              V) as (text & st' & E & [N _] & Q).
  { pose proof (unprocessed_bound (length (nodes st)) st). lia. }
  exists text, st'. split; [exact E|]. split; [exact N | exact Q].
Qed.

(** X17: [declareNamedInterfaces] returns on every such store in which the
    super types of the interfaces have standalone names, from each of its
    nodes, and leaves the nodes as they were. *)
Theorem X17_declareNamedInterfaces_returns :
  forall (H : Host) (o : Options) (root : option string)
    (rank : addr -> nat) (k : nat) (st : State) (a : addr) (fuel : nat),
    renderable rank st ->
    supers_named st ->
    (forall i, i < length (nodes st) -> rank i < k) ->
    a < length (nodes st) ->
    length (nodes st) + k < fuel ->
    exists text st',
      declareNamedInterfaces fuel o root a st = Ok text st'
      /\ nodes st' = nodes st.
Proof.
  intros H o root rank k st a fuel G S B V L.
  destruct (declareNamedInterfaces_total _ _ _ o root fuel st a
              (declarable_start _ _ _ G B) S V)
    as (text & st' & E & [N _]).
  { pose proof (unprocessed_bound (length (nodes st)) st). lia. }
  exists text, st'. split; [exact E | exact N].
Qed.

(** X18: [declareNamedTypes] returns on every store that the renderer can go
    through, from each of its nodes; the nodes are then what they were,
    with the copies it has made after them. *)
Theorem X18_declareNamedTypes_returns :
  forall (H : Host) (o : Options) (root : option string)
    (rank : addr -> nat) (k : nat) (st : State) (a : addr) (fuel : nat),
    renderable rank st ->
    (forall i, i < length (nodes st) -> rank i < k) ->
    a < length (nodes st) ->
    length (nodes st) + k < fuel ->
    exists text st',
      declareNamedTypes fuel o root a st = Ok text st'
      /\ nodes st `prefix_of` nodes st'.
Proof.
  intros H o root rank k st a fuel G B V L.
  destruct (declareNamedTypes_total _ _ _ o root fuel st a
              (declarable_start _ _ _ G B) V)
    as (text & st' & E & N & _).
  { pose proof (unprocessed_bound (length (nodes st)) st). lia. }
  exists text, st'. split; [exact E | exact N].
Qed.

(** X19: [generate] returns on every store that the renderer can go through and
    in which the super types of the interfaces have standalone names: on
    every graph, cyclic or shared as it may be, in which each cycle goes
    through a node that has a standalone name.  A recursion budget above
    the number of nodes and the ranks is enough.  The text starts with the
    prefix and ends with a line break. *)
Theorem X19_generate_returns :
  forall (H : Host) (o : Options) (rank : addr -> nat) (k : nat)
    (st : State) (a : addr) (fuel : nat),
    renderable rank st ->
    supers_named st ->
    (forall i, i < length (nodes st) -> rank i < k) ->
    a < length (nodes st) ->
    length (nodes st) + k < fuel ->
    exists text st',
      generate fuel o a st = Ok text st'
      /\ startsWith prefix text = true
      /\ endsWith text "010"%char = true.
Proof.
  intros H o rank k st a fuel G S B V L.
  destruct (generate_total _ _ _ o fuel st a (declarable_start _ _ _ G B) S
              V L) as (text & st' & E & Q).
  exists text, st'. split; [exact E | exact Q].
Qed.

Lemma list_of_nodes_supers_named : supers_named list_of_nodes.
Proof.
  intros i n s N Hs.
  repeat (destruct i as [|i]; [injection N as <-; inversion Hs|]).
  inversion N.
Qed.

Lemma list_of_nodes_ranks :
  forall i, i < length (nodes list_of_nodes) ->
            (if (i =? 3)%nat then 1 else 0) < 2.
Proof. intros i _. destruct (i =? 3)%nat; lia. Qed.

Lemma X16_witness :
  exists text st',
    declareEnums (H := example_host) 8 (example_options true) 4 list_of_nodes
    = Ok text st'
    /\ nodes st' = nodes list_of_nodes
    /\ (no_enum list_of_nodes -> text = "").
Proof.
  apply (X16_declareEnums_returns example_host (example_options true)
           (fun i => if (i =? 3)%nat then 1 else 0) 2 list_of_nodes 4 8).
  - exact list_of_nodes_renderable.
  - exact list_of_nodes_ranks.
  - simpl. lia.
  - simpl. lia.
Defined.

Lemma X17_witness :
  exists text st',
    declareNamedInterfaces (H := example_host) 8 (example_options true)
      (Some "Node") 4 list_of_nodes = Ok text st'
    /\ nodes st' = nodes list_of_nodes.
Proof.
  apply (X17_declareNamedInterfaces_returns example_host
           (example_options true) (Some "Node")
           (fun i => if (i =? 3)%nat then 1 else 0) 2 list_of_nodes 4 8).
  - exact list_of_nodes_renderable.
  - exact list_of_nodes_supers_named.
  - exact list_of_nodes_ranks.
  - simpl. lia.
  - simpl. lia.
Defined.

Lemma X18_witness :
  exists text st',
    declareNamedTypes (H := example_host) 8 (example_options true)
      (Some "Node") 4 list_of_nodes = Ok text st'
    /\ nodes list_of_nodes `prefix_of` nodes st'.
Proof.
  apply (X18_declareNamedTypes_returns example_host (example_options true)
           (Some "Node") (fun i => if (i =? 3)%nat then 1 else 0) 2
           list_of_nodes 4 8).
  - exact list_of_nodes_renderable.
  - exact list_of_nodes_ranks.
  - simpl. lia.
  - simpl. lia.
Defined.

Lemma X19_witness :
  exists text st',
    generate (H := example_host) 8 (example_options true) 4 list_of_nodes
    = Ok text st'
    /\ startsWith prefix text = true
    /\ endsWith text "010"%char = true.
Proof.
  apply (X19_generate_returns example_host (example_options true)
           (fun i => if (i =? 3)%nat then 1 else 0) 2 list_of_nodes 4 8).
  - exact list_of_nodes_renderable.
  - exact list_of_nodes_supers_named.
  - exact list_of_nodes_ranks.
  - simpl. lia.
  - simpl. lia.
Defined.

(** ** Interfaces *)

(** The members [ms'] are the members [ms], each with the node it had or
    with another node in its place: the key names, and what is required,
    are the same. *)
Definition same_members (ms ms' : list TInterfaceParam) : Prop :=
  Forall2 (fun m m' => exists r, m' = with_ast m r) ms ms'.

(** The first loop of the interface case, from the member at position
    [length pre] on. *)
Lemma optimize_members `{Host} fuel o a n sup :
  forall rest pre st1 st2,
    a ∈ processed st1 ->
    nodes st1 !! a = Some (with_shape n (TInterface (pre ++ rest) sup)) ->
    forEach
      (fun i m =>
         let* r := optimize fuel o (p_ast m) in assign_member a i r)
      (length pre) rest st1 = Ok tt st2 ->
    exists rest',
      same_members rest rest'
      /\ nodes st2 !! a = Some (with_shape n (TInterface (pre ++ rest') sup))
      /\ a ∈ processed st2.
Proof.
  induction rest as [|m rest IH]; intros pre st1 st2 P N E.
  - injection E as <-. exists []. split; [constructor | split; assumption].
  - cbn [forEach] in E. apply bind_inv in E as ([] & st1b & E1 & E).
    apply bind_inv in E1 as (r & st1a & O & A).
    destruct (optimize_keeps fuel o {[a]} _ _ _ _ O) as [Pa U];
      [set_solver|].
    assert (nodes st1a !! a
            = Some (with_shape n (TInterface (pre ++ m :: rest) sup))) as Na
        by (apply U; [set_solver | exact N]).
    rewrite (assign_member_middle _ _ _ _ _ _ _ _ Na eq_refl) in A.
    injection A as <-. rewrite with_shape_twice in E.
    replace (S (length pre)) with (length (pre ++ [with_ast m r])) in E
      by (rewrite length_app; simpl; lia).
    apply IH in E as (rest' & F & N2 & P2).
    + exists (with_ast m r :: rest'). split; [|split; [|exact P2]].
      * constructor; [exists r; reflexivity | exact F].
      * rewrite N2, <- app_assoc. reflexivity.
    + simpl. apply Pa. set_solver.
    + apply (put_lookup _ _ _ _ Na).
Qed.

Lemma not_named_string_interface st a n ms sup :
  nodes st !! a = Some (with_shape n (TInterface ms sup)) ->
  ~ named_string st a.
Proof.
  intros N (x & X & Nx). rewrite N in X. injection X as <-.
  apply andb_true_iff in Nx as [_ Nx]. apply bool_decide_eq_true in Nx.
  discriminate Nx.
Qed.

(** One turn of the second loop of the interface case. *)
Lemma flatten_member a n sup s0 pre m rest st1 st2 :
  a <> T_STRING ->
  nodes st1 !! a = Some (with_shape n (TInterface (pre ++ m :: rest) sup)) ->
  nodes st1 !! T_STRING = Some s0 ->
  standaloneName s0 = None ->
  flattenNamedString (p_ast m) (assign_member a (length pre)) st1
  = Ok tt st2 ->
  exists r,
    nodes st2 !! a
    = Some (with_shape n
              (TInterface ((pre ++ [with_ast m r]) ++ rest) sup))
    /\ ~ named_string st2 r
    /\ nodes st2 !! T_STRING = Some s0
    /\ forall c, ~ named_string st1 c -> ~ named_string st2 c.
Proof.
  intros Ne N C C0 E. unfold flattenNamedString in E.
  apply bind_inv in E as (ne & st0 & G & E).
  apply get_node_inv in G as [-> G].
  pose proof (lookup_lt_Some _ _ _ N) as La.
  destruct (truthy (standaloneName ne) && bool_decide (type ne = STRING))
    eqn:Named.
  - unfold stringWithComment in E. destruct (truthy (comment ne)) eqn:Tc.
    + rewrite (bind_ok _ _ _ _ _ (alloc_ok _ _)) in E.
      erewrite assign_member_middle in E;
        [ | simpl; apply lookup_app_l_Some; exact N | reflexivity ].
      injection E as <-. rewrite with_shape_twice.
      exists (length (nodes st1)). split; [|split; [|split]].
      * simpl. apply list_lookup_insert_eq. rewrite length_app. lia.
      * intros (x & X & Nx). simpl in X.
        rewrite list_lookup_insert_ne in X by lia.
        rewrite lookup_app_r in X by reflexivity.
        rewrite Nat.sub_diag in X. injection X as <-. discriminate Nx.
      * simpl. rewrite list_lookup_insert_ne by congruence.
        apply lookup_app_l_Some. exact C.
      * intros c Hc (x & X & Nx). simpl in X.
        destruct (decide (c = a)) as [-> | Nca].
        { rewrite list_lookup_insert_eq in X by (rewrite length_app; lia).
          injection X as <-. apply andb_true_iff in Nx as [_ Nx].
          apply bool_decide_eq_true in Nx. discriminate Nx. }
        rewrite list_lookup_insert_ne in X by congruence.
        apply lookup_app_Some in X as [X | [Lc X]].
        { apply Hc. exists x. split; assumption. }
        apply list_lookup_singleton_Some in X as [_ <-]. discriminate Nx.
    + unfold bind, ret in E.
      rewrite (assign_member_middle _ _ _ _ _ _ _ _ N eq_refl) in E.
      injection E as <-. rewrite with_shape_twice.
      exists T_STRING. split; [|split; [|split]].
      * apply (put_lookup _ _ _ _ N).
      * intros (x & X & Nx). rewrite put_lookup_ne in X by congruence.
        rewrite C in X. injection X as <-. rewrite C0 in Nx. discriminate Nx.
      * rewrite put_lookup_ne by congruence. exact C.
      * intros c Hc (x & X & Nx).
        destruct (decide (c = a)) as [-> | Nca].
        { rewrite (put_lookup _ _ _ _ N) in X. injection X as <-.
          apply andb_true_iff in Nx as [_ Nx].
          apply bool_decide_eq_true in Nx. discriminate Nx. }
        rewrite put_lookup_ne in X by exact Nca.
        apply Hc. exists x. split; assumption.
  - injection E as <-. exists (p_ast m). rewrite with_ast_same.
    rewrite <- app_assoc. split; [exact N|]. split; [|split; [exact C|auto]].
    intros (x & X & Nx). rewrite G in X. injection X as <-.
    rewrite Named in Nx. discriminate Nx.
Qed.

(** The second loop of the interface case, from the member at position
    [length pre] on. *)
Lemma flatten_members a n sup s0 :
  forall rest pre st1 st2,
    a <> T_STRING ->
    nodes st1 !! a = Some (with_shape n (TInterface (pre ++ rest) sup)) ->
    nodes st1 !! T_STRING = Some s0 ->
    standaloneName s0 = None ->
    (forall m, m ∈ pre -> ~ named_string st1 (p_ast m)) ->
    forEach (fun i m => flattenNamedString (p_ast m) (assign_member a i))
      (length pre) rest st1 = Ok tt st2 ->
    exists rest',
      same_members rest rest'
      /\ nodes st2 !! a = Some (with_shape n (TInterface (pre ++ rest') sup))
      /\ forall m, m ∈ pre ++ rest' -> ~ named_string st2 (p_ast m).
Proof.
  induction rest as [|m rest IH]; intros pre st1 st2 Ne N C C0 Pre E.
  - injection E as <-. exists []. split; [constructor|].
    split; [exact N|]. rewrite app_nil_r. exact Pre.
  - cbn [forEach] in E. apply bind_inv in E as ([] & st1b & E1 & E).
    destruct (flatten_member _ _ _ _ _ _ _ _ _ Ne N C C0 E1)
      as (r & N1 & Nr & C1 & Stable).
    replace (S (length pre)) with (length (pre ++ [with_ast m r])) in E
      by (rewrite length_app; simpl; lia).
    apply IH in E as (rest' & F & N2 & All); try assumption.
    + exists (with_ast m r :: rest'). split; [|split].
      * constructor; [exists r; reflexivity | exact F].
      * rewrite N2, <- app_assoc. reflexivity.
      * intros x Hx. apply All. rewrite <- app_assoc. exact Hx.
    + intros x [Hx | Hx]%elem_of_app.
      * apply Stable, Pre, Hx.
      * apply list_elem_of_singleton in Hx as ->. exact Nr.
Qed.


(** An interface whose member [name] is a STRING with the standalone name
    [Name], and the store after [optimize] has run on the interface. *)
Definition interface_of_named_string : State :=
  store [bare (TInterface [mkParam 4 "name" true false false] []);
         mkAST TString (Some "Name") None false None].

Definition interface_of_named_string_optimized : State :=
  mkState
    (constants
     ++ [bare (TInterface [mkParam T_STRING "name" true false false] []);
         mkAST TString (Some "Name") None false None])
    ∅ {[4; 3]}.


(** ** A union of nothing but NULL *)

(** [optimize] on nodes of type NULL: each is returned as it is. *)
Lemma mapM_optimize_nulls `{Host} fuel o :
  forall ps st,
    (forall p, p ∈ ps ->
               exists np, nodes st !! p = Some np /\ type np = NULL) ->
    exists st',
      mapM (optimize (S fuel) o) ps st = Ok ps st'
      /\ nodes st' = nodes st
      /\ processed st ⊆ processed st'.
Proof.
  induction ps as [|p ps IH]; intros st Nulls.
  - exists st. repeat split; reflexivity.
  - destruct (Nulls p) as (np & Np & Tp); [left|].
    assert (exists st1,
               optimize (S fuel) o p st = Ok p st1
               /\ nodes st1 = nodes st
               /\ processed st ⊆ processed st1) as (st1 & O & N1 & P1).
    { destruct (decide (p ∈ processed st)) as [P | P].
      - exists st. split; [apply optimize_processed, P|].
        split; reflexivity.
      - eexists. rewrite (optimize_new _ _ _ _ _ P Np).
        unfold optimize_switch. unfold type in Tp.
        destruct (shape np); try discriminate Tp.
        split; [reflexivity|]. split; [reflexivity | simpl; set_solver]. }
    destruct (IH st1) as (st2 & E2 & N2 & P2).
    { intros q Hq. rewrite N1. apply Nulls. right. exact Hq. }
    exists st2. split; [|split; [congruence | etrans; eassumption]].
    cbn [mapM]. rewrite (bind_ok _ _ _ _ _ O), (bind_ok _ _ _ _ _ E2).
    reflexivity.
Qed.

Lemma mapM_get_node_nulls (a : addr) (na : AST) :
  forall ps st,
    type na <> NULL ->
    nodes st !! a = Some na ->
    (forall p, p ∈ ps ->
               p = a \/ exists np, nodes st !! p = Some np /\ type np = NULL) ->
    (forall p, p ∈ ps -> p <> a) ->
    exists ns,
      mapM get_node ps st = Ok ns st
      /\ List.filter (fun p => negb (hasType NULL p)) (zip ps ns) = [].
Proof.
  induction ps as [|p ps IH]; intros st Ta Na Nulls Ne.
  - exists []. split; reflexivity.
  - destruct (Nulls p) as [-> | (np & Np & Tp)]; [left | | ].
    { exfalso. apply (Ne a); [left | reflexivity]. }
    destruct (IH st Ta Na) as (ns & E & F).
    { intros q Hq. apply Nulls. right. exact Hq. }
    { intros q Hq. apply Ne. right. exact Hq. }
    exists (np :: ns). split.
    + cbn [mapM]. rewrite (get_node_ok _ _ _ _ Np), (bind_ok _ _ _ _ _ E).
      reflexivity.
    + cbn [zip zip_with List.filter]. unfold hasType at 1. cbn [snd].
      rewrite bool_decide_eq_true_2 by exact Tp. exact F.
Qed.

(** X21: a union or an intersection that [optimize] has not met yet and that
    has no parameter, or only parameters of type NULL, gives a STRING: the
    constant [T_STRING], or a new STRING node with the comment of the
    union.  (When the NULL parameters are dropped none is left, and "every
    one that is left is a LITERAL, a STRING or a NULL" holds of none.) *)
Theorem X21_union_of_nulls_gives_string :
  forall (H : Host) (fuel : nat) (o : Options) (a : addr) (st : State)
    (n : AST) (params : list addr),
    a ∉ processed st ->
    nodes st !! a = Some n ->
    shape n = TUnion params \/ shape n = TIntersection params ->
    (forall p, p ∈ params ->
               exists np, nodes st !! p = Some np /\ type np = NULL) ->
    exists r st',
      optimize (S (S fuel)) o a st = Ok r st'
      /\ is_string_for (comment n) r st'.
Proof.
  intros H fuel o a st n ps P N Sh Nulls.
  assert (type n <> NULL) as Tn.
  { unfold type. destruct Sh as [-> | ->]; discriminate. }
  assert (forall p, p ∈ ps -> p <> a) as Ne.
  { intros p Hp ->. destruct (Nulls a Hp) as (np & Np & Tp).
    rewrite N in Np. injection Np as <-. contradiction. }
  set (st0 := mkState (nodes st) (memo st) ({[a]} ∪ processed st)).
  destruct (mapM_optimize_nulls fuel o ps st0 Nulls) as (st1 & O & N1 & _).
  assert (nodes st1 !! a = Some n) as Na1 by (rewrite N1; exact N).
  set (n1 := with_shape n (withParams (shape n) ps)).
  set (st2 := mkState (<[a := n1]> (nodes st1)) (memo st1) (processed st1)).
  destruct (mapM_get_node_nulls a n1 ps st2) as (ns & G & F).
  - unfold n1, type. cbn [shape with_shape].
    destruct Sh as [-> | ->]; discriminate.
  - apply list_lookup_insert_eq. eapply lookup_lt_Some, Na1.
  - intros p Hp. right. destruct (Nulls p Hp) as (np & Np & Tp).
    exists np. split; [|exact Tp]. cbn [st2 nodes].
    rewrite list_lookup_insert_ne by (intros ->; apply (Ne p Hp); reflexivity).
    rewrite N1. exact Np.
  - exact Ne.
  - rewrite (optimize_set_after_null_drop (S fuel) o a st n ps ps st1 ns st2
               P N Sh).
    + rewrite F. unfold afterNullDrop. cbn [map existsb forallb].
      assert (nodes st2 !! a = Some n1) as Na2
          by (apply list_lookup_insert_eq; eapply lookup_lt_Some, Na1).
      rewrite (bind_ok _ _ _ _ _ (assign_params_ok _ _ _ _ Na2)).
      apply stringWithComment_ok.
    + exact O.
    + rewrite (bind_ok _ _ _ _ _ (assign_params_ok _ _ _ _ Na1)). exact G.
Qed.

(** A union of two NULL nodes, and a union with no parameter. *)
Definition union_of_nulls : State :=
  store [bare (TUnion [4; 4]); bare TNull; bare (TUnion [])].

Lemma X21_witness :
  exists r st',
    optimize (H := example_host) 2 (example_options true) 5 union_of_nulls
    = Ok r st'
    /\ is_string_for None r st'.
Proof.
  apply (X21_union_of_nulls_gives_string example_host 0
           (example_options true) 5 union_of_nulls (bare (TUnion [])) []).
  - vm_compute. intros X. discriminate X.
  - reflexivity.
  - left. reflexivity.
  - intros p Hp. inversion Hp.
Defined.

(** ** The optimizer and the cache of the renderer *)

(** From [st] to [st']: every text of the cache is still there. *)
Definition caches : relation State := fun st st' => memo st ⊆ memo st'.

#[local] Instance caches_preorder : PreOrder caches.
Proof.
  split.
  - intros st. unfold caches. reflexivity.
  - intros x y z C1 C2. unfold caches in *. etrans; eassumption.
Qed.

Lemma optimize_caches `{Host} fuel o :
  forall a, preserves caches (optimize fuel o a).
Proof.
  induction fuel as [|fuel IH]; intros a.
  - apply preserves_diverge; typeclasses eauto.
  - intros st r st' E.
    apply optimize_inv in E as [(_ & _ & ->) | (_ & n & _ & E)];
      [reflexivity|].
    eapply (optimize_switch_preserves caches) in E; [exact E | exact IH | ..].
    + intros c st1 t st2 G.
      apply (generateType_cache_grows fuel o c st1 t st2 G).
    + intros x st1 y st2 [= _ <-]. unfold caches. reflexivity.
    + intros s st1 y st2. unfold assign_shape.
      destruct (nodes st1 !! a); [|discriminate].
      intros [= _ <-]. unfold caches. reflexivity.
Qed.

(** X22: [optimize] takes nothing from the cache of [generateType] and
    changes no text in it, also for the nodes that it writes.  So for a node
    whose text is in the cache when [optimize] is called, [generateType]
    returns that text after [optimize] has returned, whatever [optimize]
    has made of the node. *)
Theorem X22_optimize_keeps_the_cache :
  forall (H : Host) (fuel : nat) (o : Options) (a : addr)
    (st : State) (r : addr) (st' : State),
    optimize fuel o a st = Ok r st' ->
    memo st ⊆ memo st'
    /\ forall b text fuel' o',
         memo st !! b = Some text ->
         generateType (S fuel') o' b st' = Ok text st'.
Proof.
  intros H fuel o a st r st' E.
  pose proof (optimize_caches fuel o a st r st' E) as C. split; [exact C|].
  intros b text fuel' o' B. cbn [generateType]. apply memoize_hit.
  eapply lookup_weaken; [exact B | exact C].
Qed.

(** The store of [array_of_named_string] when the text of its array is in
    the cache, before and after [optimize] has run on the array. *)
Definition array_of_named_string_rendered : State :=
  mkState (nodes array_of_named_string) (<[3 := "Name[]"]> ∅) ∅.

Definition array_of_named_string_rendered_optimized : State :=
  mkState (nodes array_of_named_string_optimized) (<[3 := "Name[]"]> ∅)
    {[4; 3]}.

Lemma X22_witness :
  generateType (H := example_host) 1 (example_options true) 3
    array_of_named_string_rendered_optimized
  = Ok "Name[]" array_of_named_string_rendered_optimized.
Proof.
  refine (proj2 (X22_optimize_keeps_the_cache example_host 3
                   (example_options true) 3 array_of_named_string_rendered 3
                   array_of_named_string_rendered_optimized _)
            3 "Name[]" 0 (example_options true) _).
  - vm_compute. reflexivity.
  - vm_compute. reflexivity.
Defined.

(** ** The cache is transparent *)

(** The renderer that answers with the text [txt] gives for a node,
    without going into the node. *)
Definition oracle (txt : addr -> string) (c : addr) : M string :=
  ret (txt c).

(** The texts of the cache are those of [txt]. *)
Definition agrees (txt : addr -> string) (st : State) : Prop :=
  forall b t, memo st !! b = Some t -> t = txt b.

(** [txt] gives every node of the tree [l] the text that
    [generateTypeUnmemoized] makes for it from the texts that [txt] gives
    the nodes it goes to. *)
Definition consistent `{Host} (o : Options) (txt : addr -> string)
    (l : list AST) : Prop :=
  forall a n st,
    nodes st = l -> l !! a = Some n ->
    generateTypeUnmemoized o (oracle txt) n st = Ok (txt a) st.

(** When the call [m1] returns from a store with the tree [l] and a cache
    that agrees with [txt], the tree is still [l], the cache still agrees
    with [txt], and [m2] returns the same value, from any store with the
    tree [l], which it leaves as it is. *)
Definition sim {A} (txt : addr -> string) (l : list AST) (m1 m2 : M A)
    : Prop :=
  forall st x st',
    nodes st = l -> agrees txt st -> m1 st = Ok x st' ->
    nodes st' = l /\ agrees txt st'
    /\ forall st2, nodes st2 = l -> m2 st2 = Ok x st2.

Section Sim.
Variable txt : addr -> string.
Variable l : list AST.

Lemma sim_ret {A} (x : A) : sim txt l (ret x) (ret x).
Proof. intros st y st' N G [= <- <-]. auto. Qed.

Lemma sim_stuck {A} : sim txt l (@stuck A) (@stuck A).
Proof. intros st y st' N G [=]. Qed.

Lemma sim_get_node a : sim txt l (get_node a) (get_node a).
Proof.
  intros st n st' N G E. apply get_node_inv in E as [-> E].
  split; [exact N|]. split; [exact G|]. intros st2 N2.
  unfold get_node. rewrite N2, <- N, E. reflexivity.
Qed.

Lemma sim_bind {A B} (m1 m2 : M A) (k1 k2 : A -> M B) :
  sim txt l m1 m2 -> (forall x, sim txt l (k1 x) (k2 x)) ->
  sim txt l (bind m1 k1) (bind m2 k2).
Proof.
  intros Sm Sk st y st' N G E. apply bind_inv in E as (x & st1 & E1 & E2).
  destruct (Sm _ _ _ N G E1) as (N1 & G1 & R1).
  destruct (Sk x _ _ _ N1 G1 E2) as (N2 & G2 & R2).
  split; [exact N2|]. split; [exact G2|]. intros st2 Ns.
  rewrite (bind_ok _ _ _ _ _ (R1 st2 Ns)). apply R2, Ns.
Qed.

Lemma sim_mapM {A B} (f1 f2 : A -> M B) (xs : list A) :
  (forall x, sim txt l (f1 x) (f2 x)) ->
  sim txt l (mapM f1 xs) (mapM f2 xs).
Proof.
  intros Sf. induction xs as [|x xs IH]; cbn [mapM].
  - apply sim_ret.
  - apply sim_bind; [apply Sf|]. intros y.
    apply sim_bind; [apply IH|]. intros ys. apply sim_ret.
Qed.
End Sim.

(** Splits a goal [sim txt l m1 m2] along the structure that [m1] and
    [m2] share. *)
Ltac sim_step :=
  first
    [ assumption
    | solve [ eauto ]
    | apply sim_ret
    | apply sim_stuck
    | apply sim_get_node
    | progress cbv zeta
    | apply sim_mapM; intros
    | match goal with
      | |- sim _ _ (bind _ _) (bind _ _) => apply sim_bind; [|intros]
      | |- sim _ _ (match ?x with _ => _ end) _ => destruct x
      end ].

Ltac sim_all := repeat sim_step.

Section RendererSim.
Context `{Host}.
Variable txt : addr -> string.
Variable l : list AST.
Variable options : Options.
Variable gt : addr -> M string.
Hypothesis gt_sim : forall c, sim txt l (gt c) (oracle txt c).

Lemma generateInterface_sim ps :
  sim txt l (generateInterface gt ps) (generateInterface (oracle txt) ps).
Proof.
  assert (forall n ps key ty req,
             sim txt l (handleUnionRecursively n ps key ty req)
               (handleUnionRecursively n ps key ty req))
    by (intros; unfold handleUnionRecursively; sim_all).
  assert (forall keys m ty,
             sim txt l (generateMember keys m ty) (generateMember keys m ty))
    by (intros; unfold generateMember; sim_all).
  unfold generateInterface. sim_all.
Qed.

Lemma addSpreadParam_sim sp xs :
  sim txt l (addSpreadParam gt sp xs) (addSpreadParam (oracle txt) sp xs).
Proof. unfold addSpreadParam. sim_all. Qed.

Lemma unionOfTuples_sim sp xs n i c t :
  sim txt l (unionOfTuples gt sp xs n i c t)
    (unionOfTuples (oracle txt) sp xs n i c t).
Proof.
  pose proof addSpreadParam_sim.
  revert i c t. induction n as [|n IH]; intros i c t; cbn [unionOfTuples];
    sim_all.
Qed.

Lemma generateTypeUnmemoized_sim n :
  sim txt l (generateTypeUnmemoized options gt n)
    (generateTypeUnmemoized options (oracle txt) n).
Proof.
  pose proof generateInterface_sim.
  pose proof addSpreadParam_sim. pose proof unionOfTuples_sim.
  assert (forall ps mn mx sp,
             sim txt l (generateTuple options gt ps mn mx sp)
               (generateTuple options (oracle txt) ps mn mx sp))
    by (intros; unfold generateTuple; sim_all).
  assert (forall b ps,
             sim txt l (generateSetOperation gt b ps)
               (generateSetOperation (oracle txt) b ps))
    by (intros; unfold generateSetOperation; sim_all).
  unfold generateTypeUnmemoized, generateRawType. sim_all.
Qed.
End RendererSim.

Lemma generateType_agrees `{Host} o txt fuel :
  forall a st t st',
    consistent o txt (nodes st) ->
    agrees txt st ->
    generateType fuel o a st = Ok t st' ->
    t = txt a /\ agrees txt st' /\ nodes st' = nodes st.
Proof.
  induction fuel as [|fuel IH]; intros a st t st' C G E; [discriminate E|].
  cbn [generateType] in E. unfold memoize in E.
  unfold bind at 1, memo_get in E.
  destruct (memo st !! a) as [t0|] eqn:Ea.
  - injection E as <- <-. split; [apply G, Ea | split; [exact G|reflexivity]].
  - apply bind_inv in E as (n & st0 & E0 & E).
    apply get_node_inv in E0 as [-> N].
    apply bind_inv in E as (t1 & st1 & E1 & E).
    injection E as <- <-.
    destruct (generateTypeUnmemoized_sim txt (nodes st) o (generateType fuel o))
      with (n := n) (st := st) (x := t1) (st' := st1)
      as (N1 & G1 & R1); try assumption || reflexivity.
    { intros c st2 x st2' N2 G2 E2.
      destruct (IH c st2 x st2') as (-> & G2' & N2'); try assumption.
      - rewrite N2. exact C.
      - split; [congruence|]. split; [exact G2'|]. intros. reflexivity. }
    specialize (R1 st eq_refl). rewrite (C a n st eq_refl N) in R1.
    injection R1 as <-. split; [reflexivity|]. split; [|exact N1].
    intros b t Eb. cbn [memo] in Eb.
    destruct (decide (b = a)) as [-> | Nb].
    + rewrite lookup_insert_eq in Eb. injection Eb as <-. reflexivity.
    + rewrite lookup_insert_ne in Eb by congruence. apply G1, Eb.
Qed.

(** X23: the cache of [generateType] is transparent as long as the texts it
    holds are right.  Let [txt] give every node of the tree the text that
    [generateTypeUnmemoized] makes for it, under the options [o], from the
    texts of the nodes it goes to.  If the texts of the cache are those of
    [txt] (so, if the cache is empty), then a call of [generateType] with
    the options [o] returns the text of [txt] for its node, whatever the
    cache holds and whatever has been rendered before; and the texts of
    the cache are those of [txt] afterwards. *)
Theorem X23_generateType_cache_is_transparent :
  forall (H : Host) (o : Options) (txt : addr -> string) (fuel : nat)
    (a : addr) (st : State) (t : string) (st' : State),
    consistent o txt (nodes st) ->
    agrees txt st ->
    generateType fuel o a st = Ok t st' ->
    t = txt a /\ agrees txt st' /\ consistent o txt (nodes st').
Proof.
  intros H o txt fuel a st t st' C G E.
  destruct (generateType_agrees o txt fuel a st t st' C G E) as (T & G' & N).
  split; [exact T|]. split; [exact G'|]. rewrite N. exact C.
Qed.

(** The texts of the nodes of [tuple_1_3], with [unknownAny] on. *)
Definition tuple_1_3_texts (a : addr) : string :=
  match a with
  | 0 => "any"
  | 1 => "unknown"
  | 2 | 3 => "string"
  | 4 => "[string]|[string, unknown]|[string, unknown, unknown]"
  | _ => ""
  end.

Lemma tuple_1_3_consistent :
  consistent (H := example_host) (example_options true) tuple_1_3_texts
    (nodes tuple_1_3).
Proof.
  intros a n st _ N.
  do 5 (destruct a as [|a]; [injection N as <-; reflexivity|]).
  inversion N.
Qed.

Lemma X23_witness :
  "[string]|[string, unknown]|[string, unknown, unknown]" = tuple_1_3_texts 4
  /\ agrees tuple_1_3_texts tuple_1_3_rendered
  /\ consistent (H := example_host) (example_options true) tuple_1_3_texts
       (nodes tuple_1_3_rendered).
Proof.
  apply (X23_generateType_cache_is_transparent example_host
           (example_options true) tuple_1_3_texts 2 4 tuple_1_3).
  - exact tuple_1_3_consistent.
  - intros b t E. unfold tuple_1_3, store in E. cbn [memo] in E.
    rewrite lookup_empty in E. discriminate E.
  - vm_compute. reflexivity.
Defined.
